(** * ID3 decision tree with reduced-error pruning (src/3/decision_tree.py)

    A shallow embedding of [Node], [entropy], [partition] and the methods of
    [DecisionTree], together with [accuracy] and [make_confusion] of
    src/2/common.py and [chunks] and [one_hot_encode] of
    src/3/neural_network.py.

    Modelling decisions, all visible in the definitions below:
    - Python objects of class [Node] live in a store ([heap]); a reference is
      an index into it.  Attribute assignment ([node.children = ...]) is an
      update of the store at that index.
    - A [dict] is an association list in insertion order (iteration order of
      the children mapping decides the order of [nodes()]).
    - numpy integers are mathematical integers ([Z]); histogram counts are
      naturals.
    - Quotients of integer counts (error rates, accuracy) are binary64
      floats, computed with the kernel's IEEE 754 primitives exactly as
      numpy computes them: each count is converted to a double, divided,
      and sums run left to right.
    - Entropies and gains are binary64 floats as well, computed in the
      order in which Python evaluates them.  [np.log2] comes from the
      mathematical library numpy is built against and is not fixed bit by
      bit, so the embedding is parametric in it (class [Log2]): general
      properties hold for every [np.log2], and properties of one training
      set state the values of [np.log2] they rest on.
    - The Python ints 0 and -1 that [sum] and [_best_attribute] start from
      are represented by the doubles 0.0 and -1.0, to which Python converts
      them in every operation with a double.
    - Python recursion is bounded by a recursion budget ([fuel]); exhausting
      it is [RecursionError].  The [while] loop of [nodes()] gets a step
      budget whose exhaustion is the model-only outcome [Diverge]. *)

From Stdlib Require Import ZArith Lia List Sorted.
From Corelib Require PrimInt63 PrimFloat SpecFloat FloatOps FloatAxioms.
From stdpp Require Import base list.
Import ListNotations.
Set Warnings "-register-all".

(** ** Outcomes of a call *)

Inductive exn : Type :=
| ValueError
| TypeError
| IndexError
| ZeroDivisionError
| AssertionError
| RecursionError
| Diverge    (* model only: the step budget of a loop ran out *)
| Dangling.  (* model only: a reference outside the store *)

Inductive result (A : Type) : Type :=
| Ok (a : A)
| Raise (e : exn).
Arguments Ok {A} a.
Arguments Raise {A} e.

#[global] Instance result_ret : MRet result := fun A a => Ok a.
#[global] Instance result_bind : MBind result := fun A B f m =>
  match m with
  | Ok a => f a
  | Raise e => Raise e
  end.

Definition is_ok {A} (r : result A) : bool :=
  match r with Ok _ => true | Raise _ => false end.

(** ** binary64 *)

Abbreviation float := PrimFloat.float.

Module Float64.
Import PrimInt63 PrimFloat.

(** A count as a 63-bit machine integer; counts stay far below [2^63]. *)
Fixpoint int_of_nat (n : nat) : int :=
  match n with
  | O => 0%uint63
  | S k => PrimInt63.add (int_of_nat k) 1%uint63
  end.

(** The conversion of an integer to a double in a true division. *)
Definition of_nat (n : nat) : float := of_uint63 (int_of_nat n).

Definition zero : float := 0%float.

Definition minus_one : float := (-1)%float.

(** The doubles nearest to the base-2 logarithms of the doubles nearest to
    1/3, 2/3, 1/5, 2/5, 3/5 and 4/5. *)
Definition log2_1_3 : float := (-0x1.95c01a39fbd69p+0)%float.  (* -1.5849625007211563 *)
Definition log2_2_3 : float := (-0x1.2b803473f7ad2p-1)%float.  (* -0.5849625007211563 *)
Definition log2_1_5 : float := (-0x1.2934f0979a371p+1)%float.  (* -2.321928094887362 *)
Definition log2_2_5 : float := (-0x1.5269e12f346e2p+0)%float.  (* -1.3219280948873622 *)
Definition log2_3_5 : float := (-0x1.79538dea712f5p-1)%float.  (* -0.7369655941662062 *)
Definition log2_4_5 : float := (-0x1.49a784bcd1b8ap-2)%float.  (* -0.3219280948873623 *)

(** The double written [0.2]. *)
#[warnings="-inexact-float"]
Definition point_two : float := 0.2%float.

(** The gap between 1 and the next double, [2^-52]. *)
Definition epsilon : float := 0x1p-52%float.  (* 2.220446049250313e-16 *)

(** Two doubles, about 0.42, one above the other with one double between
    them: the gains computed for the two attributes of [rounding_tie]
    below. *)
Definition gain_tie_first : float := 0x1.ae0d6d4018e64p-2%float.
Definition gain_tie_second : float := 0x1.ae0d6d4018e66p-2%float.
End Float64.

(** [num / den] for two numpy integers: a double; a zero denominator gives
    [nan] or an infinity, not an exception. *)
Definition rate (num den : nat) : float :=
  PrimFloat.div (Float64.of_nat num) (Float64.of_nat den).

(** Truth value of a double: a zero of either sign is false, [nan] is true. *)
Definition py_bool (p : float) : bool := negb (PrimFloat.eqb p Float64.zero).

(** [a / b] for two Python ints: [ZeroDivisionError] for a zero divisor,
    otherwise the double nearest to the quotient, which for ints below 2^53
    (the lengths of arrays are) is the quotient of the two doubles. *)
Definition py_truediv (a b : nat) : result float :=
  if b =? 0 then Raise ZeroDivisionError else Ok (rate a b).

(** ** np.log2

    [np.log2] on a double is computed by the mathematical library numpy was
    built against.  Neither numpy nor IEEE 754 fixes its results bit by bit,
    so the embedding is parametric in it: every definition that reaches
    [np.log2] takes it from an instance of [Log2]. *)
Class Log2 : Type := np_log2 : float -> float.

(** A function given by a table of arguments and values, and by [f]
    elsewhere; [agrees f tbl] says that [f] takes the values of the table. *)
Fixpoint tabulate (tbl : list (float * float)) (f : float -> float) (x : float)
    : float :=
  match tbl with
  | [] => f x
  | (k, v) :: tbl' => if PrimFloat.Leibniz.eqb x k then v else tabulate tbl' f x
  end.

Definition agrees (f : float -> float) (tbl : list (float * float)) : Prop :=
  Forall (fun kv => f (fst kv) = snd kv) tbl.

(** The base-2 logarithms, rounded to the nearest double, of the ratios of
    counts that occur in the training sets below: halves, thirds and
    fifths. *)
Definition log2_halves : list (float * float) :=
  [ (rate 1 1, Float64.zero);
    (rate 1 2, Float64.minus_one) ].

Definition log2_thirds : list (float * float) :=
  [ (rate 1 1, Float64.zero);
    (rate 1 3, Float64.log2_1_3);
    (rate 2 3, Float64.log2_2_3) ].

Definition log2_fifths : list (float * float) :=
  [ (rate 1 1, Float64.zero);
    (rate 1 5, Float64.log2_1_5);
    (rate 2 5, Float64.log2_2_5);
    (rate 3 5, Float64.log2_3_5);
    (rate 4 5, Float64.log2_4_5) ].

(** One [np.log2]: the tables above, and [nan] at every other argument. *)
Definition log2_tabulated : Log2 :=
  tabulate (log2_halves ++ log2_thirds ++ log2_fifths) (fun _ => PrimFloat.nan).

(** A logarithm completed at the zeros, where [np.log2] returns minus
    infinity. *)
Definition log2_with_zero (f : float -> float) : Log2 :=
  fun x => if py_bool x then f x else PrimFloat.neg_infinity.

(** ** numpy arrays *)

(** A one-dimensional array with its dtype. *)
Inductive ndarray1 : Type :=
| IntVec (l : list Z)
| FloatVec (l : list float).

(** A two-dimensional integer array of shape [(length rows, ncols)]. *)
Record matrix : Type := Matrix { ncols : nat; rows : list (list Z) }.

(** A two-dimensional array with its dtype. *)
Inductive ndarray2 : Type :=
| IntMat (m : matrix)
| FloatMat (nc : nat) (rs : list (list float)).

Definition len (Y : ndarray1) : nat :=
  match Y with
  | IntVec l => length l
  | FloatVec l => length l
  end.

(** [a[i]] along an axis of size [n]: negative indices count from the end. *)
Definition np_axis_index (n : nat) (i : Z) : result nat :=
  if ((0 <=? i) && (i <? Z.of_nat n))%Z then Ok (Z.to_nat i)
  else if ((- Z.of_nat n <=? i) && (i <? 0))%Z then Ok (Z.to_nat (Z.of_nat n + i))
  else Raise IndexError.

(** [x[i]] for a row [x]. *)
Definition np_index (x : list Z) (i : Z) : result Z :=
  j ← np_axis_index (length x) i;
  Ok (nth j x 0%Z).

(** [data[:, j]] *)
Definition column (data : matrix) (j : Z) : result (list Z) :=
  k ← np_axis_index (ncols data) j;
  Ok (map (fun r => nth k r 0%Z) (rows data)).

(** [data[:, 0]] for either dtype. *)
Definition labels (data : ndarray2) : result ndarray1 :=
  match data with
  | IntMat m => Y ← column m 0; Ok (IntVec Y)
  | FloatMat nc rs =>
      k ← np_axis_index nc 0;
      Ok (FloatVec (map (fun r => nth k r Float64.zero) rs))
  end.

(** [data[:, 1:].T] with [enumerate]: the attribute columns, numbered from 0. *)
Definition attribute_columns (data : matrix) : list (nat * list Z) :=
  map (fun i => (i, map (fun r => nth (S i) r 0%Z) (rows data)))
      (seq 0 (ncols data - 1)).

(** [Y[p]] and [data[p]] for an index array [p]. *)
Definition take (Y : list Z) (p : list nat) : list Z :=
  map (fun i => nth i Y 0%Z) p.

Definition take_rows (data : matrix) (p : list nat) : matrix :=
  Matrix (ncols data) (map (fun i => nth i (rows data) []) p).

(** [np.bincount]: refuses a float array and negative entries; otherwise slot
    [c] counts the occurrences of [c], for [c] from 0 to the largest entry. *)
Definition amax (Y : list Z) : Z := fold_right Z.max 0%Z Y.

Definition np_bincount (Y : ndarray1) : result (list nat) :=
  match Y with
  | FloatVec _ => Raise TypeError
  | IntVec [] => Ok []
  | IntVec l =>
      if existsb (fun y => (y <? 0)%Z) l then Raise ValueError
      else Ok (map (fun c => count_occ Z.eq_dec l (Z.of_nat c))
                   (seq 0 (S (Z.to_nat (amax l)))))
  end.

(** [a.argmax()]: index of the first maximum; an empty array is refused. *)
Fixpoint argmax_from (best_i best_v i : nat) (l : list nat) : nat :=
  match l with
  | [] => best_i
  | x :: l' =>
      if best_v <? x then argmax_from i x (S i) l'
      else argmax_from best_i best_v (S i) l'
  end.

Definition argmax (l : list nat) : result nat :=
  match l with
  | [] => Raise ValueError
  | x :: l' => Ok (argmax_from 0 x 1 l')
  end.

(** [np.unique]: the distinct values in ascending order. *)
Fixpoint insert_uniq (v : Z) (l : list Z) : list Z :=
  match l with
  | [] => [v]
  | x :: l' =>
      if (v <? x)%Z then v :: l
      else if (v =? x)%Z then l
      else x :: insert_uniq v l'
  end.

Definition np_unique (Xa : list Z) : list Z := fold_right insert_uniq [] Xa.

(** [np.where(Xa == v)[0]] *)
Fixpoint where_eq_from (i : nat) (Xa : list Z) (v : Z) : list nat :=
  match Xa with
  | [] => []
  | x :: r =>
      if (x =? v)%Z then i :: where_eq_from (S i) r v
      else where_eq_from (S i) r v
  end.

Definition np_where_eq (Xa : list Z) (v : Z) : list nat := where_eq_from 0 Xa v.

(** [len(set(Y))] *)
Definition distinct (Y : list Z) : nat := length (nodup Z.eq_dec Y).

(** Python's builtin [min] over a sequence. *)
Definition py_min (l : list nat) : result nat :=
  match l with
  | [] => Raise ValueError
  | x :: l' => Ok (fold_left Nat.min l' x)
  end.

Definition py_sum (l : list nat) : nat := fold_left Nat.add l 0.

(** [dict.get] on a mapping kept in insertion order. *)
Fixpoint dict_get {V} (d : list (Z * V)) (k : Z) : option V :=
  match d with
  | [] => None
  | (k', v) :: d' => if (k' =? k)%Z then Some v else dict_get d' k
  end.

Definition dict_values {V} (d : list (Z * V)) : list V := map snd d.

(** ** entropy and partition *)

(** [-1 * sum(p * np.log2(p) for p in probabilities if p)], where
    [probabilities] is [np.bincount(Y) / len(Y)].  [sum] starts from the int
    0 and adds from left to right; over an empty generator it is the int 0,
    and so is [-1 * 0]. *)
Definition entropy_of_counts `{Log2} (counts : list nat) (n : nat) : float :=
  let probabilities := map (fun c => rate c n) counts in
  match map (fun p => PrimFloat.mul p (np_log2 p))
            (List.filter py_bool probabilities) with
  | [] => Float64.zero
  | terms =>
      PrimFloat.mul Float64.minus_one (fold_left PrimFloat.add terms Float64.zero)
  end.

Definition entropy `{Log2} (Y : ndarray1) : result float :=
  counts ← np_bincount Y;
  Ok (entropy_of_counts counts (len Y)).

Definition partition (Xa : list Z) : list (Z * list nat) :=
  map (fun v => (v, np_where_eq Xa v)) (np_unique Xa).

(** ** Node objects and the store *)

Abbreviation loc := nat.

(** The attributes of a [Node] object.  [nsamples] is the class histogram,
    [cls] its argmax, [children] the mapping from attribute value to child. *)
Record Node : Type := mkNode {
  parent : option loc;
  nsamples : list nat;
  cls : nat;
  attr_idx : option Z;
  children : list (Z * loc)
}.

Abbreviation heap := (list Node).

Definition deref (h : heap) (l : loc) : result Node :=
  match h !! l with
  | Some o => Ok o
  | None => Raise Dangling
  end.

(** [node.children = d] *)
Definition set_children (d : list (Z * loc)) (o : Node) : Node :=
  mkNode (parent o) (nsamples o) (cls o) (attr_idx o) d.

Definition assign_children (l : loc) (d : list (Z * loc)) (h : heap) : heap :=
  match h !! l with
  | Some o => <[l := set_children d o]> h
  | None => h
  end.

(** [Node(parent, nsamples, attr_idx)]: [argmax] is taken in the constructor.
    The [children] default is an empty mapping; no method of this module
    ever inserts into it, so it is kept by value. *)
Definition Node_init (parent : option loc) (nsamples : list nat)
    (attr_idx : option Z) (h : heap) : result (loc * heap) :=
  c ← argmax nsamples;
  Ok (length h, h ++ [mkNode parent nsamples c attr_idx []]).

(** ** DecisionTree._best_attribute *)

(** [sum((len(p) / len(Xa)) * entropy(Y[p]) for p in partition(Xa).values())] *)
Fixpoint weighted_entropy `{Log2} (Y Xa : list Z) (ps : list (list nat))
    (acc : float) : result float :=
  match ps with
  | [] => Ok acc
  | p :: ps' =>
      w ← py_truediv (length p) (length Xa);
      e ← entropy (IntVec (take Y p));
      weighted_entropy Y Xa ps' (PrimFloat.add acc (PrimFloat.mul w e))
  end.

(** One iteration of the loop over the attribute columns. *)
Definition best_attribute_step `{Log2} (Y : list Z) (best : float * Z)
    (col : nat * list Z) : result (float * Z) :=
  let '(best_gain, best_attr) := best in
  let '(i, Xa) := col in
  entropy_Y_Xa ← weighted_entropy Y Xa (dict_values (partition Xa)) Float64.zero;
  eY ← entropy (IntVec Y);
  let gain := PrimFloat.sub eY entropy_Y_Xa in
  if PrimFloat.ltb best_gain gain then Ok (gain, (Z.of_nat i + 1)%Z)
  else Ok (best_gain, best_attr).

Fixpoint best_attribute_loop `{Log2} (Y : list Z) (cols : list (nat * list Z))
    (best : float * Z) : result (float * Z) :=
  match cols with
  | [] => Ok best
  | col :: cols' =>
      best' ← best_attribute_step Y best col;
      best_attribute_loop Y cols' best'
  end.

Definition _best_attribute `{Log2} (data : matrix) : result (float * Z) :=
  Y ← column data 0;
  best_attribute_loop Y (attribute_columns data) (Float64.minus_one, (-1)%Z).

(** ** DecisionTree._build_tree *)

(** The dict comprehension
    [{v: _build_tree(data[p], parent=this_node) for v, p in ...items()}],
    with [build] the recursive call. *)
Fixpoint build_children (build : matrix -> heap -> result (loc * heap))
    (data : matrix) (parts : list (Z * list nat)) (h : heap)
    : result (list (Z * loc) * heap) :=
  match parts with
  | [] => Ok ([], h)
  | (v, p) :: parts' =>
      '(child, h1) ← build (take_rows data p) h;
      '(rest, h2) ← build_children build data parts' h1;
      Ok ((v, child) :: rest, h2)
  end.

Fixpoint _build_tree `{Log2} (fuel : nat) (data : ndarray2) (parent : option loc)
    (h : heap) {struct fuel} : result (loc * heap) :=
  match fuel with
  | 0 => Raise RecursionError
  | S fuel' =>
      Y ← labels data;
      nsamples ← np_bincount Y;
      match data, Y with
      | IntMat m, IntVec Yz =>
          if distinct Yz <=? 1 then Node_init parent nsamples None h
          else
            '(gain, attr_idx) ← _best_attribute m;
            if PrimFloat.ltb Float64.zero gain then
              '(this_node, h1) ← Node_init parent nsamples (Some attr_idx) h;
              Xa ← column m attr_idx;
              '(kids, h2) ←
                build_children
                  (fun d h' => _build_tree fuel' (IntMat d) (Some this_node) h')
                  m (partition Xa) h1;
              Ok (this_node, assign_children this_node kids h2)
            else Node_init parent nsamples None h
      | _, _ => Raise TypeError   (* not reached: [np_bincount] has raised *)
      end
  end.

(** [DecisionTree(data)] *)
Definition DecisionTree_init `{Log2} (fuel : nat) (data : ndarray2)
    : result (loc * heap) :=
  _build_tree fuel data None [].

(** ** Prediction and scoring *)

Fixpoint _predict (fuel : nat) (h : heap) (dtree : loc) (x : list Z)
    : result nat :=
  match fuel with
  | 0 => Raise RecursionError
  | S fuel' =>
      o ← deref h dtree;
      match children o with
      | [] => Ok (cls o)
      | _ =>
          match attr_idx o with
          | None => Raise TypeError
          | Some a =>
              v ← np_index x a;
              match dict_get (children o) v with
              | None => Ok (cls o)
              | Some child => _predict fuel' h child x
              end
          end
      end
  end.

(** [accuracy] of common.py *)
Definition accuracy (actual : list Z) (predicted : list nat) : result float :=
  if negb (length actual =? length predicted) then Raise AssertionError
  else
    let correct :=
      py_sum (map (fun '(a, p) => if (a =? Z.of_nat p)%Z then 1 else 0)
                  (combine actual predicted)) in
    if length actual =? 0 then Raise ZeroDivisionError
    else Ok (PrimFloat.div (Float64.of_nat correct) (Float64.of_nat (length actual))).

Fixpoint predict_all (fuel : nat) (h : heap) (root : loc) (xs : list (list Z))
    : result (list nat) :=
  match xs with
  | [] => Ok []
  | x :: xs' =>
      p ← _predict fuel h root x;
      ps ← predict_all fuel h root xs';
      Ok (p :: ps)
  end.

Definition score (fuel : nat) (h : heap) (root : loc) (data : matrix)
    : result float :=
  predictions ← predict_all fuel h root (rows data);
  Y ← column data 0;
  accuracy Y predictions.

(** ** Structural queries *)

Fixpoint map_result {A B} (f : A -> result B) (l : list A) : result (list B) :=
  match l with
  | [] => Ok []
  | a :: l' =>
      b ← f a;
      bs ← map_result f l';
      Ok (b :: bs)
  end.

Fixpoint _height (fuel : nat) (h : heap) (dtree : loc) : result nat :=
  match fuel with
  | 0 => Raise RecursionError
  | S fuel' =>
      o ← deref h dtree;
      match children o with
      | [] => Ok 0
      | _ =>
          hs ← map_result (_height fuel' h) (dict_values (children o));
          Ok (1 + fold_right Nat.max 0 hs)
      end
  end.

Fixpoint _node_count (fuel : nat) (h : heap) (dtree : loc) : result nat :=
  match fuel with
  | 0 => Raise RecursionError
  | S fuel' =>
      o ← deref h dtree;
      match children o with
      | [] => Ok 1
      | _ =>
          cs ← map_result (_node_count fuel' h) (dict_values (children o));
          Ok (1 + py_sum cs)
      end
  end.

(** [_remove_node]: returns the parent (or [None] for the root) and the store. *)
Fixpoint dict_remove_value (d : list (Z * loc)) (node : loc) : list (Z * loc) :=
  match d with
  | [] => []
  | (v, n) :: d' =>
      if n =? node then d' else (v, n) :: dict_remove_value d' node
  end.

Definition _remove_node (h : heap) (node : loc) : result (option loc * heap) :=
  o ← deref h node;
  match parent o with
  | None => Ok (None, h)
  | Some p =>
      po ← deref h p;
      Ok (Some p, assign_children p (dict_remove_value (children po) node) h)
  end.

(** [nodes()]: the queue [q] of the breadth-first walk; the result is the
    sequence of yielded references. *)
Fixpoint nodes_loop (fuel : nat) (h : heap) (q : list loc) : result (list loc) :=
  match q with
  | [] => Ok []
  | node :: q' =>
      match fuel with
      | 0 => Raise Diverge
      | S fuel' =>
          o ← deref h node;
          rest ← nodes_loop fuel' h (q' ++ dict_values (children o));
          Ok (node :: rest)
      end
  end.

Definition nodes (fuel : nat) (h : heap) (root : loc) : result (list loc) :=
  nodes_loop fuel h [root].

(** ** Pruning *)

(** [min(node.nsamples) / sum(node.nsamples)] *)
Definition node_err_rate (o : Node) : result float :=
  m ← py_min (nsamples o);
  Ok (rate m (py_sum (nsamples o))).

(** [sum(min(child.nsamples) / sum(node.nsamples) for child in ...values())] *)
Fixpoint children_err_sum (h : heap) (o : Node) (kids : list loc) (acc : float)
    : result float :=
  match kids with
  | [] => Ok acc
  | k :: kids' =>
      child ← deref h k;
      m ← py_min (nsamples child);
      children_err_sum h o kids' (PrimFloat.add acc (rate m (py_sum (nsamples o))))
  end.

Definition children_err_rate (h : heap) (o : Node) : result float :=
  children_err_sum h o (dict_values (children o)) Float64.zero.

(** The body of the loop over the collected nodes. *)
Definition prune_step (h : heap) (node : loc) : result heap :=
  o ← deref h node;
  match children o with
  | [] => Ok h
  | _ =>
      ne ← node_err_rate o;
      ce ← children_err_rate h o;
      if PrimFloat.ltb ne ce then Ok (assign_children node [] h) else Ok h
  end.

Fixpoint prune_loop (h : heap) (ns : list loc) : result heap :=
  match ns with
  | [] => Ok h
  | node :: ns' =>
      h' ← prune_step h node;
      prune_loop h' ns'
  end.

Definition prune (fuel : nat) (h : heap) (root : loc) : result heap :=
  ns ← nodes fuel h root;
  prune_loop h (rev ns).

(** ** Trees laid out in the store

    [tree_at h t] says that the store [h] holds, at the references listed in
    [t], objects whose children mappings point exactly at the roots of the
    subtrees of [t].  It is the ownership reading of a built tree: every
    child is owned by one parent. *)

Inductive tree : Type := T (l : loc) (o : Node) (kids : list tree).

Definition root (t : tree) : loc := match t with T l _ _ => l end.
Definition obj (t : tree) : Node := match t with T _ o _ => o end.
Definition subtrees (t : tree) : list tree := match t with T _ _ ks => ks end.

Fixpoint locs (t : tree) : list loc :=
  match t with T l _ ks => l :: flat_map locs ks end.

Fixpoint size (t : tree) : nat :=
  match t with T _ _ ks => S (list_sum (map size ks)) end.

Fixpoint height (t : tree) : nat :=
  match t with T _ _ ks => fold_right Nat.max 0 (map (fun k => S (height k)) ks) end.

Inductive tree_at (h : heap) : tree -> Prop :=
| tree_at_node l o ks :
    h !! l = Some o ->
    dict_values (children o) = map root ks ->
    Forall (tree_at h) ks ->
    tree_at h (T l o ks).

(** A property of every object of a tree. *)
Inductive tree_all (P : Node -> Prop) : tree -> Prop :=
| tree_all_node l o ks :
    P o -> Forall (tree_all P) ks -> tree_all P (T l o ks).

(** Breadth-first order as the specification words it: the roots of a forest,
    then the breadth-first order of the forest of their children, level by
    level.  [n] bounds the number of levels. *)
Fixpoint levelorder (n : nat) (ts : list tree) : list loc :=
  match n with
  | 0 => []
  | S n' => map root ts ++ levelorder n' (flat_map subtrees ts)
  end.

Definition bfs_order (t : tree) : list loc := levelorder (S (height t)) [t].

(** The nodes at depth [n] of a tree, left to right. *)
Fixpoint level (n : nat) (t : tree) : list loc :=
  match n with
  | 0 => [root t]
  | S n' => flat_map (level n') (subtrees t)
  end.

(** Parent references along a tree: the root's is [par], every child's is
    its parent's reference. *)
Inductive parents_ok : option loc -> tree -> Prop :=
| parents_ok_node par l o ks :
    parent o = par ->
    Forall (parents_ok (Some l)) ks ->
    parents_ok par (T l o ks).

(** What the constructor and the builder establish for an object over data
    with [nc] columns: a non-empty histogram, its argmax as class, and on an
    internal node a split attribute that indexes a column. *)
Definition node_ok (nc : nat) (o : Node) : Prop :=
  nsamples o <> [] /\
  argmax (nsamples o) = Ok (cls o) /\
  (children o <> [] ->
   exists a, attr_idx o = Some a /\ is_ok (np_axis_index nc a) = true).

(** The store [h'] is [h] followed by the objects of [t], allocated in
    preorder. *)
Definition extends (h h' : heap) (ls : list loc) : Prop :=
  exists ext, h' = h ++ ext /\ ls = seq (length h) (length ext).

(** A tree as [_build_tree] leaves it in the store. *)
Definition built (nc : nat) (par : option loc) (h : heap) (t : tree) (h' : heap)
    : Prop :=
  extends h h' (locs t) /\ tree_at h' t /\ parents_ok par t /\
  tree_all (node_ok nc) t.

(** The object graph: the references reachable from [r] through children
    mappings. *)
Inductive reachable (h : heap) (r : loc) : loc -> Prop :=
| reachable_root : reachable h r r
| reachable_child l o v c :
    reachable h r l -> h !! l = Some o -> (v, c) ∈ children o ->
    reachable h r c.

Definition forest_size (ts : list tree) : nat := list_sum (map size ts).

(** ** Entropy and gain as values

    On labels that [np.bincount] accepts, [entropy] and the loop body of
    [_best_attribute] cannot raise; these are the values they compute. *)

Definition hist (Y : list Z) : list nat :=
  match Y with
  | [] => []
  | _ => map (fun c => count_occ Z.eq_dec Y (Z.of_nat c))
             (seq 0 (S (Z.to_nat (amax Y))))
  end.

Definition entropy_val `{Log2} (Y : list Z) : float :=
  entropy_of_counts (hist Y) (length Y).

Definition cond_entropy `{Log2} (Y Xa : list Z) : float :=
  fold_left (fun acc p =>
               PrimFloat.add acc
                 (PrimFloat.mul (rate (length p) (length Xa)) (entropy_val (take Y p))))
            (dict_values (partition Xa)) Float64.zero.

Definition gain_of `{Log2} (Y Xa : list Z) : float :=
  PrimFloat.sub (entropy_val Y) (cond_entropy Y Xa).

Definition best_step `{Log2} (Y : list Z) (best : float * Z) (col : nat * list Z)
    : float * Z :=
  if PrimFloat.ltb (fst best) (gain_of Y (snd col))
  then (gain_of Y (snd col), (Z.of_nat (fst col) + 1)%Z)
  else best.

Definition nonneg (Y : list Z) : Prop := Forall (fun y => (0 <= y)%Z) Y.

(** ** A training set on which the attribute separates the classes

    Three rows, labels in column 0 and one attribute in column 1:
    [[0, 0], [0, 0], [1, 1]]. *)
Definition separable : matrix := Matrix 2 [[0; 0]; [0; 0]; [1; 1]]%Z.

(** The store [_build_tree] produces for it: an internal root over two
    leaves. *)
Definition separable_root : Node :=
  mkNode None [2; 1] 0 (Some 1%Z) [(0%Z, 1); (1%Z, 2)].

Definition separable_leaves : list Node :=
  [ mkNode (Some 0) [2] 0 None [];
    mkNode (Some 0) [0; 1] 1 None [] ].

Definition separable_heap : heap := separable_root :: separable_leaves.

(** The same store after [prune]. *)
Definition separable_pruned : heap :=
  [ mkNode None [2; 1] 0 (Some 1%Z) [];
    mkNode (Some 0) [2] 0 None [];
    mkNode (Some 0) [0; 1] 1 None [] ].

(** ** The error rates as the specification words them

    [(total_count - max(class_counts)) / total_count] for the node, and the
    sum over the children of [(child_total - max(child.class_counts))]
    divided by the node's total. *)
Definition py_max (l : list nat) : nat := fold_right Nat.max 0 l.

Definition spec_node_error_rate (o : Node) : float :=
  rate (py_sum (nsamples o) - py_max (nsamples o)) (py_sum (nsamples o)).

Definition spec_children_error_rate (o : Node) (kids : list Node) : float :=
  fold_left PrimFloat.add
    (map (fun child =>
            rate (py_sum (nsamples child) - py_max (nsamples child))
                 (py_sum (nsamples o)))
         kids)
    Float64.zero.

(** ** The boundary scenario: counts [{A:8, B:2}] over children
    [{A:5, B:0}] and [{A:3, B:2}]

    Ten rows with one attribute: five rows of class A with attribute value
    0, and three rows of class A and two of class B with attribute value 1.
    In [boundary] A is label 0 and B is label 1; in [boundary_swapped] A is
    label 1 and B is label 0. *)
Definition boundary : matrix :=
  Matrix 2 [[0; 0]; [0; 0]; [0; 0]; [0; 0]; [0; 0];
            [0; 1]; [0; 1]; [0; 1]; [1; 1]; [1; 1]]%Z.

Definition boundary_swapped : matrix :=
  Matrix 2 [[1; 0]; [1; 0]; [1; 0]; [1; 0]; [1; 0];
            [1; 1]; [1; 1]; [1; 1]; [0; 1]; [0; 1]]%Z.

(** The store [_build_tree] produces for [boundary]: [np.bincount] gives the
    child without B the one-slot histogram [[5]]. *)
Definition boundary_root : Node :=
  mkNode None [8; 2] 0 (Some 1%Z) [(0%Z, 1); (1%Z, 2)].

Definition boundary_leaves : list Node :=
  [ mkNode (Some 0) [5] 0 None [];
    mkNode (Some 0) [3; 2] 0 None [] ].

Definition boundary_heap_one_slot : heap := boundary_root :: boundary_leaves.

(** The store it produces for [boundary_swapped]. *)
Definition boundary_heap_swapped : heap :=
  [ mkNode None [2; 8] 1 (Some 1%Z) [(0%Z, 1); (1%Z, 2)];
    mkNode (Some 0) [0; 5] 1 None [];
    mkNode (Some 0) [2; 3] 1 None [] ].

(** ** Two training sets on which rounding decides

    In [rounding_tie] the labels are [0, 0, 0, 1, 2].  The first attribute
    splits them into [0, 0, 1] and [0, 2], the second into [0, 0] and
    [0, 1, 2]: in exact arithmetic both conditional entropies are
    [(3/5) * log2 3], and the two gains are equal. *)
Definition rounding_tie : matrix :=
  Matrix 3 [[0; 0; 0]; [0; 0; 0]; [0; 1; 1]; [1; 0; 1]; [2; 1; 1]]%Z.

(** In [independent_attribute] each of the labels 0, 1 and 2 has a third of
    the rows, among the rows of either attribute value alike: in exact
    arithmetic the gain of the attribute is 0. *)
Definition independent_attribute : matrix :=
  Matrix 2 [[0; 0]; [1; 0]; [2; 0];
            [0; 1]; [0; 1]; [1; 1]; [1; 1]; [2; 1]; [2; 1]]%Z.

Definition independent_attribute_heap : heap :=
  [ mkNode None [3; 3; 3] 0 (Some 1%Z) [(0%Z, 1); (1%Z, 2)];
    mkNode (Some 0) [1; 1; 1] 0 None [];
    mkNode (Some 0) [2; 2; 2] 0 None [] ].

(** The rates [prune] computes at the node stored at [l]. *)
Definition rates_at (h : heap) (l : loc) : result (float * float) :=
  o ← deref h l;
  ne ← node_err_rate o;
  ce ← children_err_rate h o;
  Ok (ne, ce).

Definition nrows (data : ndarray2) : nat :=
  match data with
  | IntMat m => length (rows m)
  | FloatMat _ rs => length rs
  end.

(** ** The walk of [_predict], as the specification words it

    [walk h x n m]: starting at [n], the example [x] is handed down along the
    children mappings and the walk stops at [m], which is either a leaf or
    the first internal node whose children mapping has no key equal to the
    example's value of the split attribute. *)
Inductive walk (h : heap) (x : list Z) : loc -> loc -> Prop :=
| walk_leaf n o :
    h !! n = Some o -> children o = [] -> walk h x n n
| walk_unseen n o a v :
    h !! n = Some o -> children o <> [] ->
    attr_idx o = Some a -> np_index x a = Ok v ->
    dict_get (children o) v = None ->
    walk h x n n
| walk_descend n o a v c m :
    h !! n = Some o -> children o <> [] ->
    attr_idx o = Some a -> np_index x a = Ok v ->
    dict_get (children o) v = Some c ->
    walk h x c m ->
    walk h x n m.

(** ** What [prune] may change

    [o'] is [o] with the children mapping kept or emptied; [h'] is [h] with
    some objects changed in that way and nothing else. *)
Definition same_but_children (o o' : Node) : Prop :=
  parent o' = parent o /\ nsamples o' = nsamples o /\ cls o' = cls o /\
  attr_idx o' = attr_idx o /\
  (children o' = children o \/ children o' = []).

Definition pruned_from (h h' : heap) : Prop :=
  length h' = length h /\
  forall l o, h !! l = Some o ->
    exists o', h' !! l = Some o' /\ same_but_children o o'.

(** Every object has a non-empty histogram and children inside the store. *)
Definition heap_ok (h : heap) : Prop :=
  forall l o, h !! l = Some o ->
    nsamples o <> [] /\ forall c, c ∈ dict_values (children o) -> c < length h.

(** ** A training set with negative attribute values

    Labels 0 and 1 in column 0, attribute values -1 and -2 in column 1. *)
Definition negative_attribute : matrix := Matrix 2 [[0; -1]; [1; -2]]%Z.

Definition negative_attribute_heap : heap :=
  [ mkNode None [1; 1] 0 (Some 1%Z) [((-2)%Z, 1); ((-1)%Z, 2)];
    mkNode (Some 0) [0; 1] 1 None [];
    mkNode (Some 0) [1] 0 None [] ].

(** A training set with a negative label. *)
Definition negative_label : matrix := Matrix 2 [[0; 3]; [-1; 4]]%Z.

(** ** Joint counts of an attribute column and the labels

    [select Xa Y v] is [Y[np.where(Xa == v)[0]]] read off the rows: the
    labels of the rows whose attribute value is [v]. *)
Definition select (Xa Y : list Z) (v : Z) : list Z :=
  map snd (List.filter (fun xy => (fst xy =? v)%Z) (combine Xa Y)).

Definition cnt (L : list Z) (k : nat) : nat := count_occ Z.eq_dec L (Z.of_nat k).

(** ** The training rows behind a built tree

    [fitted m t]: the tree [t] is what [_build_tree] makes of the rows [m].
    Every object carries the histogram of the labels of its rows.  A leaf
    has pure labels or no attribute with a positive gain; an internal node
    splits on a column of positive gain that no column exceeds and has one
    subtree per distinct value of that column, in ascending order of the
    values, fitted to the rows holding that value.  Gains are the doubles
    the code computes. *)
Inductive fitted `{Log2} : matrix -> tree -> Prop :=
| fitted_leaf m Y l o :
    column m 0 = Ok Y -> nonneg Y -> Y <> [] ->
    nsamples o = hist Y ->
    children o = [] -> attr_idx o = None ->
    (distinct Y <= 1 \/
     forall c, In c (attribute_columns m) ->
       PrimFloat.ltb Float64.zero (gain_of Y (snd c)) = false) ->
    fitted m (T l o [])
| fitted_split m Y a Xa l o ks :
    column m 0 = Ok Y -> nonneg Y -> Y <> [] ->
    nsamples o = hist Y ->
    1 < distinct Y ->
    attr_idx o = Some a -> (1 <= a < Z.of_nat (ncols m))%Z ->
    column m a = Ok Xa ->
    PrimFloat.ltb Float64.zero (gain_of Y Xa) = true ->
    (forall c, In c (attribute_columns m) ->
       PrimFloat.ltb (gain_of Y Xa) (gain_of Y (snd c)) = false) ->
    map fst (children o) = np_unique Xa ->
    Forall2 (fun v k => fitted (take_rows m (np_where_eq Xa v)) k)
            (np_unique Xa) ks ->
    fitted m (T l o ks).

(** [subtree s t]: [s] is [t] or lies below it. *)
Inductive subtree (s : tree) : tree -> Prop :=
| subtree_refl : subtree s s
| subtree_child t k : k ∈ subtrees t -> subtree s k -> subtree s t.

(** [node.nsamples[k]] and [sum(node.nsamples)] for the node stored at [c];
    a class past the end of the histogram has no sample. *)
Definition count_at (h : heap) (c : loc) (k : nat) : nat :=
  match h !! c with
  | Some o => nth k (nsamples o) 0
  | None => 0
  end.

Definition total_at (h : heap) (c : loc) : nat :=
  match h !! c with
  | Some o => py_sum (nsamples o)
  | None => 0
  end.

(** ** Attribute columns that still vary

    A column is constant when [np.unique] finds at most one value in it;
    [varying m] counts the attribute columns of [m] that are not. *)
Definition constant (Xa : list Z) : bool := length (np_unique Xa) <=? 1.

Definition varying (m : matrix) : nat :=
  length (List.filter (fun c => negb (constant (snd c))) (attribute_columns m)).

(** ** The outcome of [prune] at one object

    [pruned_object h o] is the object [o] as the loop body of [prune] leaves
    it when the rates are read off the store [h]. *)
Definition pruned_object (h : heap) (o : Node) : result Node :=
  match children o with
  | [] => Ok o
  | _ =>
      ne ← node_err_rate o;
      ce ← children_err_rate h o;
      Ok (if PrimFloat.ltb ne ce then set_children [] o else o)
  end.

(** [sum([a == p for (a, p) in zip(actual, predicted)])] *)
Definition count_correct (actual : list Z) (predicted : list nat) : nat :=
  py_sum (map (fun '(a, p) => if (a =? Z.of_nat p)%Z then 1 else 0)
              (combine actual predicted)).

(** The leaf built from [n] rows that all carry the label [y]. *)
Definition pure_leaf (n : nat) (y : Z) : Node :=
  mkNode None (repeat 0 (Z.to_nat y) ++ [n]) (Z.to_nat y) None [].

(** ** Detaching a subtree

    [remove_child c o] is the object [o] after [del parent.children[v]] for
    the first key [v] whose child is [c]; [cut c t] is the tree [t] without
    the subtrees rooted at [c]; [size_at c t] counts the nodes of those
    subtrees. *)
Definition remove_child (c : loc) (o : Node) : Node :=
  set_children (dict_remove_value (children o) c) o.

Fixpoint cut (c : loc) (t : tree) : tree :=
  match t with
  | T l o ks =>
      T l (remove_child c o)
        ((fix go (ks : list tree) : list tree :=
            match ks with
            | [] => []
            | k :: ks' => if root k =? c then go ks' else cut c k :: go ks'
            end) ks)
  end.

Fixpoint size_at (c : loc) (t : tree) : nat :=
  match t with
  | T l o ks => if l =? c then size t else list_sum (map (size_at c) ks)
  end.

(** ** make_confusion (src/2/common.py)

    Labels are integers.  The nested dictionary [cm] is an association list
    of association lists; every inner dictionary is an object of its own, so
    [cm[a][p] += 1] changes one entry of one row.  Besides the failed
    assertion, the update can fail with [KeyError]. *)
Inductive cm_exn : Type :=
| CmAssertionError
| CmKeyError (key : Z).

(** [inl] is a returned value, [inr] a raised exception. *)
Definition cm_result (A : Type) : Type := (A + cm_exn)%type.

Definition cm_bind {A B} (m : cm_result A) (f : A -> cm_result B) : cm_result B :=
  match m with
  | inl a => f a
  | inr e => inr e
  end.

(** [d[k]] *)
Definition dict_lookup {V} (d : list (Z * V)) (k : Z) : cm_result V :=
  match dict_get d k with
  | Some v => inl v
  | None => inr (CmKeyError k)
  end.

(** [d[k] = v] for a key that is present. *)
Fixpoint dict_set {V} (d : list (Z * V)) (k : Z) (v : V) : list (Z * V) :=
  match d with
  | [] => []
  | (k', v') :: d' =>
      if (k' =? k)%Z then (k', v) :: d' else (k', v') :: dict_set d' k v
  end.

(** [{c: {cc: 0 for cc in classes} for c in classes}] *)
Definition cm_init (classes : list Z) : list (Z * list (Z * nat)) :=
  map (fun c => (c, map (fun cc => (cc, 0)) classes)) classes.

(** [cm[a][p] += 1] *)
Definition cm_count (cm : list (Z * list (Z * nat))) (ap : Z * Z)
    : cm_result (list (Z * list (Z * nat))) :=
  let '(a, p) := ap in
  cm_bind (dict_lookup cm a) (fun row =>
  cm_bind (dict_lookup row p) (fun n =>
  inl (dict_set cm a (dict_set row p (n + 1))))).

Fixpoint cm_loop (cm : list (Z * list (Z * nat))) (pairs : list (Z * Z))
    : cm_result (list (Z * list (Z * nat))) :=
  match pairs with
  | [] => inl cm
  | ap :: pairs' => cm_bind (cm_count cm ap) (fun cm' => cm_loop cm' pairs')
  end.

(** [sorted] on integers. *)
Fixpoint insert_sorted (v : Z) (l : list Z) : list Z :=
  match l with
  | [] => [v]
  | x :: l' => if (v <=? x)%Z then v :: l else x :: insert_sorted v l'
  end.

Definition py_sorted (l : list Z) : list Z := fold_right insert_sorted [] l.

Fixpoint cm_map {A B} (f : A -> cm_result B) (l : list A) : cm_result (list B) :=
  match l with
  | [] => inl []
  | a :: l' =>
      cm_bind (f a) (fun b => cm_bind (cm_map f l') (fun bs => inl (b :: bs)))
  end.

(** [[cm[a][p] for p in sorted(cm[a])]] *)
Definition cm_row (cm : list (Z * list (Z * nat))) (a : Z) : cm_result (list nat) :=
  cm_bind (dict_lookup cm a) (fun row =>
  cm_map (dict_lookup row) (py_sorted (map fst row))).

(** [make_confusion], with [classes] the order in which [set(actual)] is
    iterated: that order is not specified by Python. *)
Definition make_confusion_with (classes : list Z) (actual predicted : list Z)
    : cm_result (list (list nat)) :=
  if negb (length actual =? length predicted) then inr CmAssertionError
  else
    cm_bind (cm_loop (cm_init classes) (combine actual predicted)) (fun cm =>
    cm_map (cm_row cm) (py_sorted (map fst cm))).

Definition make_confusion (actual predicted : list Z) : cm_result (list (list nat)) :=
  make_confusion_with (nodup Z.eq_dec actual) actual predicted.

(** The number of positions at which [actual] holds [a] and [predicted]
    holds [p]. *)
Definition pair_count (pairs : list (Z * Z)) (a p : Z) : nat :=
  length (List.filter (fun ap => (fst ap =? a)%Z && (snd ap =? p)%Z) pairs).

(** The first element of [predicted] that is not a class. *)
Definition first_unknown (classes predicted : list Z) : option Z :=
  List.find (fun p => negb (existsb (Z.eqb p) classes)) predicted.

(** The counts [cm] holds when the pairs counted so far are [pairs]. *)
Definition cm_of (classes : list Z) (pairs : list (Z * Z)) : list (Z * list (Z * nat)) :=
  map (fun c => (c, map (fun cc => (cc, pair_count pairs c cc)) classes)) classes.

Definition trace (M : list (list nat)) : nat :=
  list_sum (map (fun i => nth i (nth i M []) 0) (seq 0 (length M))).

(** ** Information gain as the specification words it

    The entropy of a list of labels is [-Σ p_c log2(p_c)] over the class
    slots [c] from 0 to the largest label, with [p_c] the fraction of the
    labels that are [c] and the terms with [p_c = 0] left out.  The gain of
    an attribute column is the entropy of all labels minus
    [Σ_v (|rows with value v| / |rows|) * entropy(labels of those rows)],
    the values [v] of the column taken in ascending order.  Both are
    evaluated in binary64, the sums from left to right.  These definitions
    read the rows directly: they do not go through [np.bincount],
    [np.unique], [np.where] or [partition]. *)
Definition class_slots (labels : list Z) : list nat :=
  match labels with
  | [] => []
  | _ => seq 0 (S (Z.to_nat (amax labels)))
  end.

Definition class_probability (labels : list Z) (c : nat) : float :=
  rate (cnt labels c) (length labels).

Definition label_entropy `{Log2} (labels : list Z) : float :=
  match List.filter py_bool (map (class_probability labels) (class_slots labels)) with
  | [] => Float64.zero
  | ps =>
      PrimFloat.mul Float64.minus_one
        (fold_left (fun s p => PrimFloat.add s (PrimFloat.mul p (np_log2 p)))
                   ps Float64.zero)
  end.

Definition attribute_values (Xa : list Z) : list Z := py_sorted (nodup Z.eq_dec Xa).

Definition information_gain `{Log2} (Y Xa : list Z) : float :=
  PrimFloat.sub (label_entropy Y)
    (fold_left
       (fun s v =>
          PrimFloat.add s
            (PrimFloat.mul (rate (count_occ Z.eq_dec Xa v) (length Y))
                           (label_entropy (select Xa Y v))))
       (attribute_values Xa) Float64.zero).

(** ** The rows that pass through a node

    [path fuel h dtree x] lists the nodes that [_predict] visits for the
    example [x], from [dtree] down to the node whose class it returns;
    [rows_through fuel h r data l] keeps the rows of [data] whose walk from
    [r] passes through [l]. *)
Fixpoint path (fuel : nat) (h : heap) (dtree : loc) (x : list Z) : list loc :=
  match fuel with
  | 0 => []
  | S fuel' =>
      match h !! dtree with
      | None => []
      | Some o =>
          dtree ::
          match children o, attr_idx o with
          | _ :: _, Some a =>
              match np_index x a with
              | Ok v =>
                  match dict_get (children o) v with
                  | Some child => path fuel' h child x
                  | None => []
                  end
              | Raise _ => []
              end
          | _, _ => []
          end
      end
  end.

Definition passes (fuel : nat) (h : heap) (r l : loc) (x : list Z) : bool :=
  existsb (Nat.eqb l) (path fuel h r x).

Definition rows_through (fuel : nat) (h : heap) (r : loc) (data : matrix) (l : loc)
    : list (list Z) :=
  List.filter (passes fuel h r l) (rows data).

(** The label of a row: its entry in column 0. *)
Definition label (x : list Z) : Z := nth 0 x 0%Z.

(** ** chunks and one_hot_encode (src/3/neural_network.py) *)

(** [range(0, stop, step)]: a zero step is refused, a negative step counts
    down from 0 and so produces nothing. *)
Definition py_range_from0 (stop : nat) (step : Z) : result (list nat) :=
  if (step =? 0)%Z then Raise ValueError
  else if (step <? 0)%Z then Ok []
  else Ok (map (fun k => k * Z.to_nat step)
               (seq 0 ((stop + Z.to_nat step - 1) / Z.to_nat step))).

(** [l[i:j]] for [0 <= i <= j]; the slice stops at the end of the list. *)
Definition py_slice {A} (l : list A) (i j : nat) : list A :=
  firstn (j - i) (skipn i l).

(** [chunks(l, n)], as the list of the slices the generator yields when it
    is run to its end. *)
Definition chunks {A} (l : list A) (n : Z) : result (list (list A)) :=
  starts ← py_range_from0 (length l) n;
  Ok (map (fun i => py_slice l i (i + Z.to_nat n)) starts).

Definition float_one : float := Float64.of_nat 1.

(** [np.zeros((n, 1))], kept as the list of its [n] rows of one entry. *)
Definition np_zeros (n : Z) : result (list float) :=
  if (n <? 0)%Z then Raise ValueError
  else Ok (repeat Float64.zero (Z.to_nat n)).

Definition one_hot_encode (cls num_classes : Z) : result (list float) :=
  y ← np_zeros num_classes;
  i ← np_axis_index (length y) cls;
  Ok (<[i := float_one]> y).

(** [a.argmax()] on floats, as numpy computes it: a later entry replaces
    the best one when it is not less than or equal to it, and the first
    [nan] ends the search. *)
Definition is_nan (x : float) : bool := negb (PrimFloat.eqb x x).

Fixpoint argmaxf_from (best_i : nat) (best_v : float) (i : nat) (l : list float)
    : nat :=
  match l with
  | [] => best_i
  | x :: l' =>
      if negb (PrimFloat.leb x best_v) then
        if is_nan x then i else argmaxf_from i x (S i) l'
      else argmaxf_from best_i best_v (S i) l'
  end.

Definition argmaxf (l : list float) : result nat :=
  match l with
  | [] => Raise ValueError
  | x :: l' => if is_nan x then Ok 0 else Ok (argmaxf_from 0 x 1 l')
  end.

(** The position a valid index [i] denotes along an axis of size [n]. *)
Definition wrap_index (n i : Z) : nat :=
  Z.to_nat (if (i <? 0)%Z then n + i else i).

(** [emptied h h' l]: the node [l] was internal in [h] and is a leaf in
    [h']. *)
Definition emptied (h h' : heap) (l : loc) : Prop :=
  exists o o', h !! l = Some o /\ h' !! l = Some o' /\
               children o <> [] /\ children o' = [].

(** * Properties *)

(** ** The result monad *)

Lemma bind_Ok {A B} (a : A) (f : A -> result B) : (Ok a ≫= f) = f a.
Proof. reflexivity. Qed.

Lemma bind_Raise {A B} (e : exn) (f : A -> result B) : (Raise e ≫= f) = Raise e.
Proof. reflexivity. Qed.

Lemma bind_Ok_inv {A B} (m : result A) (f : A -> result B) (b : B) :
  (m ≫= f) = Ok b -> exists a, m = Ok a /\ f a = Ok b.
Proof. destruct m as [a|e]; simpl; [eauto | discriminate]. Qed.

Ltac inv_bind H :=
  let a := fresh "a" in
  let Ha := fresh "Ha" in
  apply bind_Ok_inv in H; destruct H as (a & Ha & H).

(** ** binary64 arithmetic

    Facts about the kernel's floats, from their specification as
    [spec_float] values. *)

Module Binary64.
Import SpecFloat PrimFloat FloatOps FloatAxioms.

Definition SF_one : spec_float := S754_finite false 4503599627370496 (-52).

Lemma Prim2SF_one : Prim2SF 1 = SF_one.
Proof. reflexivity. Qed.

(** Multiplication by one is exact. *)
Lemma SFmul_one_l x : valid_binary x = true -> SF64mul SF_one x = x.
Proof.
  destruct x as [s|s| |s m e]; try reflexivity.
  intros Hv. unfold SpecFloat.valid_binary, bounded in Hv.
  apply andb_prop in Hv as [Hc Hb].
  unfold canonical_mantissa in Hc. apply Z.eqb_eq in Hc.
  unfold SF64mul, SFmul, SF_one, binary_round_aux.
  assert (Hm : Pos.mul 4503599627370496 m = Pos.iter xO m 52) by reflexivity.
  rewrite Hm.
  assert (Hd : Zdigits2 (Zpos (Pos.iter xO m 52)) = (Zpos (digits2_pos m) + 52)%Z).
  { cbn [Zdigits2]. cbn. lia. }
  unfold shr_fexp at 1. rewrite Hd.
  replace (Z.pos (digits2_pos m) + 52 + (-52 + e))%Z
    with (Z.pos (digits2_pos m) + e)%Z by lia.
  rewrite Hc.
  replace (e - (-52 + e))%Z with 52%Z by lia.
  cbn [shr shr_record_of_loc].
  change (iter_pos shr_1 52
            {| shr_m := Z.pos (Pos.iter xO m 52); shr_r := false; shr_s := false |})
    with {| shr_m := Z.pos m; shr_r := false; shr_s := false |}.
  cbn [shr_m loc_of_shr_record round_nearest_even].
  replace (-52 + e + 52)%Z with e by lia.
  unfold shr_fexp. cbn [Zdigits2]. rewrite Hc, Z.sub_diag.
  cbn [shr shr_record_of_loc shr_m].
  rewrite Hb. reflexivity.
Qed.

Lemma mul_one_l (x : float) : mul 1 x = x.
Proof.
  apply Prim2SF_inj. rewrite mul_spec, Prim2SF_one.
  apply SFmul_one_l, Prim2SF_valid.
Qed.

(** [x / x] is one, or [nan] when [x] is zero, infinite or [nan]. *)
Lemma SFdiv_diag x : SF64div x x = SF_one \/ SF64div x x = S754_nan.
Proof.
  destruct x as [s|s| |s m e]; try (right; reflexivity).
  left. unfold SF64div, SFdiv, SFdiv_core_binary.
  rewrite !Z.sub_diag.
  change (Z.min (fexp prec emax 0) 0) with (-53)%Z.
  change (0 - -53)%Z with 53%Z. cbv iota.
  destruct (Z.div_eucl (Z.shiftl (Z.pos m) 53) (Z.pos m)) as [q r] eqn:E.
  assert (Hq : q = (Z.shiftl (Z.pos m) 53 / Z.pos m)%Z)
    by (unfold Z.div; rewrite E; reflexivity).
  assert (Hr : r = (Z.shiftl (Z.pos m) 53 mod Z.pos m)%Z)
    by (unfold Z.modulo; rewrite E; reflexivity).
  rewrite Z.shiftl_mul_pow2 in Hq, Hr by lia.
  rewrite Z.mul_comm, Z.div_mul in Hq by lia.
  rewrite Z.mul_comm, Z.mod_mul in Hr by lia.
  subst q r. unfold new_location, new_location_even, new_location_odd.
  destruct (Z.even (Z.pos m)); destruct s; reflexivity.
Qed.

Lemma div_diag (x : float) : div x x = 1%float \/ Prim2SF (div x x) = S754_nan.
Proof.
  destruct (SFdiv_diag (Prim2SF x)) as [E|E].
  - left. apply Prim2SF_inj. rewrite div_spec, Prim2SF_one. exact E.
  - right. rewrite div_spec. exact E.
Qed.

(** With the weight [x / x], the difference [e - (0 + x / x * e)] is a zero
    or [nan], whatever the doubles [x] and [e] are: it is never positive. *)
Lemma sub_whole_not_positive (x e : float) :
  ltb Float64.zero (sub e (add Float64.zero (mul (div x x) e))) = false.
Proof.
  unfold Float64.zero.
  destruct (div_diag x) as [-> | Hn].
  - rewrite mul_one_l, ltb_spec, sub_spec, add_spec.
    destruct (Prim2SF e) as [s|s| |s m ex] eqn:E;
      try (destruct s; reflexivity); try reflexivity.
    change (Prim2SF 0) with (S754_zero false). unfold SF64add, SFadd.
    unfold SF64sub, SFsub. rewrite Z.min_id, Z.sub_diag. reflexivity.
  - rewrite ltb_spec, sub_spec, add_spec, mul_spec, Hn.
    unfold SF64mul, SFmul. change (Prim2SF 0) with (S754_zero false).
    destruct (Prim2SF e) as [s|s| |s m ex]; reflexivity.
Qed.

(** The comparisons order the doubles that are not [nan]. *)
Ltac cmp_cases :=
  repeat match goal with
  | |- context [Z.compare ?a ?b] => destruct (Z.compare_spec a b)
  | H : context [Z.compare ?a ?b] |- _ => destruct (Z.compare_spec a b)
  | |- context [Pos.compare_cont Eq ?a ?b] =>
      change (Pos.compare_cont Eq a b) with (Pos.compare a b)
  | H : context [Pos.compare_cont Eq ?a ?b] |- _ =>
      change (Pos.compare_cont Eq a b) with (Pos.compare a b) in H
  | |- context [Pos.compare ?a ?b] => destruct (Pos.compare_spec a b)
  | H : context [Pos.compare ?a ?b] |- _ => destruct (Pos.compare_spec a b)
  end.

Ltac cmp_solve :=
  cbn [SFcompare]; try discriminate; try reflexivity;
  cmp_cases; cbn [CompOpp]; try discriminate; try reflexivity; intros; try lia.

Lemma SFltb_leb_trans x y z :
  SFltb x y = true -> SFleb y z = true -> SFltb x z = true.
Proof.
  unfold SFltb, SFleb.
  destruct x as [[]|[]| |[] mx ex], y as [[]|[]| |[] my ey],
           z as [[]|[]| |[] mz ez]; cmp_solve.
Qed.

Lemma SFltb_leb x y : SFltb x y = true -> SFleb x y = true.
Proof. unfold SFltb, SFleb. destruct (SFcompare x y) as [[]|]; congruence. Qed.

Lemma SFltb_not_leb x y : SFltb x y = true -> SFleb y x = false.
Proof.
  unfold SFltb, SFleb.
  destruct x as [[]|[]| |[] mx ex], y as [[]|[]| |[] my ey]; cmp_solve.
Qed.

Lemma SFnot_leb_ltb x y :
  SFleb x y = false -> SFeqb x x = true -> SFeqb y y = true -> SFltb y x = true.
Proof.
  unfold SFltb, SFleb, SFeqb.
  destruct x as [[]|[]| |[] mx ex], y as [[]|[]| |[] my ey]; cmp_solve.
Qed.

Lemma SFnot_ltb_leb x y :
  SFltb x y = false -> SFeqb x x = true -> SFeqb y y = true -> SFleb y x = true.
Proof.
  unfold SFltb, SFleb, SFeqb.
  destruct x as [[]|[]| |[] mx ex], y as [[]|[]| |[] my ey]; cmp_solve.
Qed.

Lemma SFltb_comparable x y :
  SFltb x y = true -> SFeqb x x = true /\ SFeqb y y = true.
Proof.
  unfold SFltb, SFeqb.
  destruct x as [[]|[]| |[] mx ex], y as [[]|[]| |[] my ey];
    cbn [SFcompare]; try discriminate; intros _;
    rewrite ?Z.compare_refl, ?Pos.compare_cont_refl; cbn; auto.
Qed.

Lemma ltb_leb_trans (x y z : float) :
  ltb x y = true -> leb y z = true -> ltb x z = true.
Proof. rewrite !ltb_spec, leb_spec. apply SFltb_leb_trans. Qed.

Lemma ltb_leb (x y : float) : ltb x y = true -> leb x y = true.
Proof. rewrite ltb_spec, leb_spec. apply SFltb_leb. Qed.

Lemma ltb_trans (x y z : float) :
  ltb x y = true -> ltb y z = true -> ltb x z = true.
Proof. intros Hxy Hyz. eapply ltb_leb_trans; [exact Hxy | apply ltb_leb, Hyz]. Qed.

Lemma ltb_not_leb (x y : float) : ltb x y = true -> leb y x = false.
Proof. rewrite ltb_spec, leb_spec. apply SFltb_not_leb. Qed.

Lemma not_leb_ltb (x y : float) :
  leb x y = false -> eqb x x = true -> eqb y y = true -> ltb y x = true.
Proof. rewrite ltb_spec, leb_spec, !eqb_spec. apply SFnot_leb_ltb. Qed.

Lemma not_ltb_leb (x y : float) :
  ltb x y = false -> eqb x x = true -> eqb y y = true -> leb y x = true.
Proof. rewrite ltb_spec, leb_spec, !eqb_spec. apply SFnot_ltb_leb. Qed.

Lemma ltb_comparable (x y : float) :
  ltb x y = true -> eqb x x = true /\ eqb y y = true.
Proof. rewrite ltb_spec, !eqb_spec. apply SFltb_comparable. Qed.

Lemma leb_false_ltb (x y : float) : leb x y = false -> ltb x y = false.
Proof.
  intros Hle. destruct (ltb x y) eqn:E; [| reflexivity].
  rewrite (ltb_leb _ _ E) in Hle. discriminate.
Qed.

Lemma ltb_irrefl (x : float) : ltb x x = false.
Proof.
  destruct (ltb x x) eqn:E; [| reflexivity].
  pose proof (ltb_not_leb _ _ E) as Hn. rewrite (ltb_leb _ _ E) in Hn. discriminate.
Qed.

(** Nothing positive is below -1. *)
Lemma positive_above_minus_one (x : float) :
  ltb Float64.minus_one x = false -> ltb Float64.zero x = false.
Proof.
  unfold Float64.zero, Float64.minus_one. intros Hm. destruct (ltb 0 x) eqn:E; [| reflexivity].
  assert (H10 : ltb (-1) 0 = true) by reflexivity.
  rewrite (ltb_trans (-1) 0 x H10 E) in Hm. discriminate.
Qed.

(** A double that is not exceeded by the greatest is not positive unless
    the greatest is. *)
Lemma positive_below (g x : float) :
  eqb g g = true -> ltb g x = false ->
  ltb Float64.zero x = true -> ltb Float64.zero g = true.
Proof.
  unfold Float64.zero. intros Hg Hgx Hx.
  eapply ltb_leb_trans; [exact Hx |].
  apply not_ltb_leb; [exact Hgx | exact Hg |].
  apply (ltb_comparable _ _ Hx).
Qed.

End Binary64.

(** A function that takes the values of a table is the table, completed
    by the function. *)
Lemma tabulate_agrees f tbl x : agrees f tbl -> tabulate tbl f x = f x.
Proof.
  unfold agrees. intros Ha.
  induction Ha as [|kv tbl Hkv _ IH]; [reflexivity |].
  destruct kv as [k v]. simpl in *.
  destruct (PrimFloat.Leibniz.eqb x k) eqn:E; [| exact IH].
  apply FloatAxioms.Leibniz.eqb_spec in E. subst x. symmetry. exact Hkv.
Qed.

(** Induction over a fitted tree, with the induction hypothesis for every
    subtree. *)
Lemma fitted_ind' (L : Log2) (P : matrix -> tree -> Prop) :
  (forall m Y l o,
     column m 0 = Ok Y -> nonneg Y -> Y <> [] -> nsamples o = hist Y ->
     children o = [] -> attr_idx o = None ->
     (distinct Y <= 1 \/
      forall c, In c (attribute_columns m) ->
        PrimFloat.ltb Float64.zero (gain_of Y (snd c)) = false) ->
     P m (T l o [])) ->
  (forall m Y a Xa l o ks,
     column m 0 = Ok Y -> nonneg Y -> Y <> [] -> nsamples o = hist Y ->
     1 < distinct Y ->
     attr_idx o = Some a -> (1 <= a < Z.of_nat (ncols m))%Z ->
     column m a = Ok Xa ->
     PrimFloat.ltb Float64.zero (gain_of Y Xa) = true ->
     (forall c, In c (attribute_columns m) ->
        PrimFloat.ltb (gain_of Y Xa) (gain_of Y (snd c)) = false) ->
     map fst (children o) = np_unique Xa ->
     Forall2 (fun v k => fitted (take_rows m (np_where_eq Xa v)) k)
             (np_unique Xa) ks ->
     Forall2 (fun v k => P (take_rows m (np_where_eq Xa v)) k)
             (np_unique Xa) ks ->
     P m (T l o ks)) ->
  forall m t, fitted m t -> P m t.
Proof.
  intros Hleaf Hsplit. fix IH 3. intros m t Hf.
  destruct Hf as [m Y l o H1 H2 H3 H4 H5 H5' H6 | m Y a Xa l o ks H1 H2 H3 H4 H5 H6 H7 H8 H9 H10 H11 H12].
  - eapply Hleaf; eauto.
  - eapply Hsplit; eauto.
    clear - IH H12.
    induction H12 as [|v k vs ks' Hvk _ IHl];
      [constructor | constructor; [apply IH, Hvk | exact IHl]].
Qed.

Section Properties.
Context {log2_impl : Log2}.

(** ** Trees *)

Lemma tree_ind' (P : tree -> Prop) :
  (forall l o ks, Forall P ks -> P (T l o ks)) -> forall t, P t.
Proof.
  intros IH. fix rec 1. intros [l o ks]. apply IH.
  induction ks as [|k ks IHks]; constructor; [apply rec | exact IHks].
Qed.

Lemma elem_of_flat_map {A B} (f : A -> list B) (l : list A) (b : B) :
  b ∈ flat_map f l <-> exists a, a ∈ l /\ b ∈ f a.
Proof.
  rewrite list_elem_of_In, in_flat_map. split.
  - intros (a & Ha & Hb). exists a. rewrite !list_elem_of_In. auto.
  - intros (a & Ha & Hb). exists a. rewrite <- !list_elem_of_In. auto.
Qed.

Lemma tree_at_frame h h' t :
  tree_at h t ->
  (forall l, l ∈ locs t -> h' !! l = h !! l) ->
  tree_at h' t.
Proof.
  induction t as [l o ks IH] using tree_ind'. intros Ht Hagree.
  inversion Ht as [l' o' ks' Hl Hkids Hks]; subst.
  constructor.
  - rewrite Hagree; [exact Hl | simpl; left].
  - exact Hkids.
  - rewrite Forall_forall in IH, Hks. apply Forall_forall. intros k Hk.
    apply IH; [exact Hk | apply Hks; exact Hk |].
    intros l' Hl'. apply Hagree. simpl. right.
    apply elem_of_flat_map. eauto.
Qed.

Lemma tree_at_locs_lt h t l : tree_at h t -> l ∈ locs t -> l < length h.
Proof.
  induction t as [l0 o ks IH] using tree_ind'. intros Ht Hl.
  inversion Ht as [l' o' ks' Hl0 Hkids Hks]; subst.
  simpl in Hl. apply elem_of_cons in Hl as [->|Hl].
  - eapply lookup_lt_Some; eauto.
  - apply elem_of_flat_map in Hl as (k & Hk & Hl).
    rewrite Forall_forall in IH, Hks. eauto.
Qed.

Lemma tree_at_app h ext t : tree_at h t -> tree_at (h ++ ext) t.
Proof.
  intros Ht. apply (tree_at_frame h); [exact Ht |].
  intros l Hl. apply lookup_app_l. eapply tree_at_locs_lt; eauto.
Qed.

(** ** The store after [_build_tree] *)

Lemma extends_root h h' t : extends h h' (locs t) -> root t = length h.
Proof.
  intros (ext & -> & Hl). destruct t as [l o ks]. simpl in *.
  destruct ext as [|e ext]; simpl in Hl; [discriminate | congruence].
Qed.

Lemma Node_init_inv par ns a h r h' :
  Node_init par ns a h = Ok (r, h') ->
  exists c, argmax ns = Ok c /\ r = length h /\ h' = h ++ [mkNode par ns c a []].
Proof.
  unfold Node_init. intros H. inv_bind H. injection H as <- <-. eauto.
Qed.

Lemma argmax_nonempty ns c : argmax ns = Ok c -> ns <> [].
Proof. destruct ns; [discriminate | discriminate]. Qed.

Lemma build_children_inv build par data parts h kids h' :
  (forall p h0 r h1, build (take_rows data p) h0 = Ok (r, h1) ->
     exists t, root t = r /\ built (ncols data) par h0 t h1) ->
  build_children build data parts h = Ok (kids, h') ->
  exists ts,
    extends h h' (flat_map locs ts) /\
    dict_values kids = map root ts /\
    map fst kids = map fst parts /\
    Forall (tree_at h') ts /\
    Forall (parents_ok par) ts /\
    Forall (tree_all (node_ok (ncols data))) ts.
Proof.
  intros Hbuild. revert h kids h'.
  induction parts as [|[v p] parts IH]; intros h kids h' H; simpl in H.
  - injection H as <- <-. exists []. repeat split; try constructor.
    exists []. rewrite app_nil_r. split; reflexivity.
  - inv_bind H. destruct a as [child h1]. inv_bind H. destruct a as [rest h2].
    injection H as <- <-.
    apply Hbuild in Ha as (t & Hroot & (e1 & -> & Hl1) & Hat & Hpar & Hall).
    apply IH in Ha0 as (ts & (e2 & -> & Hl2) & Hvals & Hkeys & Hats & Hpars & Halls).
    exists (t :: ts). repeat split.
    + exists (e1 ++ e2). split; [symmetry; apply app_assoc |].
      simpl. rewrite Hl1, Hl2, length_app, length_app, seq_app. reflexivity.
    + unfold dict_values in *. simpl. rewrite Hvals, Hroot. reflexivity.
    + simpl. rewrite Hkeys. reflexivity.
    + constructor; [apply tree_at_app; exact Hat | exact Hats].
    + constructor; assumption.
    + constructor; assumption.
Qed.

Lemma build_tree_unfold fuel data par h :
  _build_tree (S fuel) data par h =
  (Y ← labels data;
   ns ← np_bincount Y;
   match data, Y with
   | IntMat m, IntVec Yz =>
       if distinct Yz <=? 1 then Node_init par ns None h
       else
         '(gain, a) ← _best_attribute m;
         if PrimFloat.ltb Float64.zero gain then
           '(this_node, h1) ← Node_init par ns (Some a) h;
           Xa ← column m a;
           '(kids, h2) ←
             build_children
               (fun d h' => _build_tree fuel (IntMat d) (Some this_node) h')
               m (partition Xa) h1;
           Ok (this_node, assign_children this_node kids h2)
         else Node_init par ns None h
   | _, _ => Raise TypeError
   end).
Proof. reflexivity. Qed.

Lemma built_leaf nc par ns c a h :
  argmax ns = Ok c ->
  built nc par h (T (length h) (mkNode par ns c a []) [])
        (h ++ [mkNode par ns c a []]).
Proof.
  intros Hc. split; [| split; [| split]].
  - exists [mkNode par ns c a []]. split; reflexivity.
  - constructor; [| reflexivity | constructor].
    rewrite lookup_app_r, Nat.sub_diag by lia. reflexivity.
  - constructor; [reflexivity | constructor].
  - constructor; [| constructor].
    split; [eapply argmax_nonempty; eauto | split; [exact Hc |]].
    simpl. intros []. reflexivity.
Qed.

Lemma assign_children_app h o ext d :
  assign_children (length h) d (h ++ o :: ext) = h ++ set_children d o :: ext.
Proof.
  unfold assign_children.
  rewrite lookup_app_r, Nat.sub_diag by lia. simpl.
  rewrite insert_app_r_alt, Nat.sub_diag by lia. reflexivity.
Qed.

Lemma built_internal nc par ns c a h kids ts ext :
  argmax ns = Ok c ->
  is_ok (np_axis_index nc a) = true ->
  flat_map locs ts = seq (S (length h)) (length ext) ->
  dict_values kids = map root ts ->
  Forall (tree_at ((h ++ [mkNode par ns c (Some a) []]) ++ ext)) ts ->
  Forall (parents_ok (Some (length h))) ts ->
  Forall (tree_all (node_ok nc)) ts ->
  built nc par h (T (length h) (mkNode par ns c (Some a) kids) ts)
        (h ++ mkNode par ns c (Some a) kids :: ext).
Proof.
  intros Hc Ha Hlocs Hvals Hats Hpars Halls. split; [| split; [| split]].
  - exists (mkNode par ns c (Some a) kids :: ext). split; [reflexivity |].
    simpl. rewrite Hlocs. reflexivity.
  - constructor.
    + rewrite lookup_app_r, Nat.sub_diag by lia. reflexivity.
    + exact Hvals.
    + rewrite Forall_forall in Hats. apply Forall_forall. intros k Hk.
      apply (tree_at_frame _ _ _ (Hats k Hk)).
      intros l Hl.
      assert (Hin : l ∈ flat_map locs ts) by (apply elem_of_flat_map; eauto).
      rewrite Hlocs in Hin. apply elem_of_seq in Hin.
      rewrite <- app_assoc. simpl.
      rewrite !lookup_app_r by lia.
      destruct (l - length h) as [|n] eqn:E; [lia | reflexivity].
  - constructor; [reflexivity | exact Hpars].
  - constructor; [| exact Halls].
    split; [eapply argmax_nonempty; eauto | split; [exact Hc |]].
    simpl. intros _. eauto.
Qed.

Lemma build_tree_inv fuel : forall m par h r h',
  _build_tree fuel (IntMat m) par h = Ok (r, h') ->
  exists t, root t = r /\ built (ncols m) par h t h'.
Proof.
  induction fuel as [|fuel IH]; intros m par h r h' H; [discriminate |].
  rewrite build_tree_unfold in H.
  inv_bind H. rename a into Y. inv_bind H. rename a into ns.
  destruct Y as [Yz|]; try discriminate.
  assert (Hleaf : forall a, Node_init par ns a h = Ok (r, h') ->
            exists t, root t = r /\ built (ncols m) par h t h').
  { intros a Hn. apply Node_init_inv in Hn as (c & Hc & -> & ->).
    eexists. split; [| apply built_leaf; exact Hc]. reflexivity. }
  destruct (distinct Yz <=? 1); [eapply Hleaf; eauto |].
  inv_bind H. destruct a as [gain a].
  destruct (PrimFloat.ltb Float64.zero gain); [| eapply Hleaf; eauto].
  inv_bind H. destruct a0 as [this h1].
  apply Node_init_inv in Ha2 as (c & Hc & -> & ->).
  inv_bind H. rename a0 into Xa. inv_bind H. destruct a0 as [kids h2].
  injection H as <- <-.
  eapply build_children_inv in Ha3
    as (ts & (ext & -> & Hlocs) & Hvals & _ & Hats & Hpars & Halls);
    [| intros p h0 r1 h3 Hb; apply IH in Hb; exact Hb].
  rewrite length_app in Hlocs. simpl in Hlocs.
  replace (length h + 1) with (S (length h)) in Hlocs by lia.
  rewrite <- app_assoc. simpl. rewrite assign_children_app.
  eexists. split; [| eapply built_internal; eauto]; [reflexivity |].
  match goal with Hcol : column m a = Ok _ |- _ => unfold column in Hcol end.
  destruct (np_axis_index (ncols m) a); [reflexivity | discriminate].
Qed.

Lemma build_tree_float fuel nc rs par h : is_ok (_build_tree fuel (FloatMat nc rs) par h) = false.
Proof.
  destruct fuel as [|fuel]; [reflexivity |].
  rewrite build_tree_unfold. simpl.
  destruct (np_axis_index nc 0); reflexivity.
Qed.

(** ** Breadth-first traversal *)

Lemma bind_ret_r {A} (m : result A) : (m ≫= Ok) = m.
Proof. destruct m; reflexivity. Qed.

Lemma tree_at_deref h t : tree_at h t -> deref h (root t) = Ok (obj t).
Proof. intros Ht. inversion Ht; subst. unfold deref. simpl. rewrite H. reflexivity. Qed.

Lemma tree_at_children h t :
  tree_at h t -> dict_values (children (obj t)) = map root (subtrees t).
Proof. intros Ht. inversion Ht; subst. assumption. Qed.

Lemma tree_at_subtrees h t : tree_at h t -> Forall (tree_at h) (subtrees t).
Proof. intros Ht. inversion Ht; subst. assumption. Qed.

Lemma nodes_loop_nil fuel h : nodes_loop fuel h [] = Ok [].
Proof. destruct fuel; reflexivity. Qed.

(** Dequeuing a whole level: the roots of [ts] are yielded in order and
    their children are appended behind what was already waiting. *)
Lemma nodes_loop_forest h : forall ts K fuel,
  Forall (tree_at h) ts ->
  length ts <= fuel ->
  nodes_loop fuel h (map root ts ++ K) =
  (rest ← nodes_loop (fuel - length ts) h (K ++ map root (flat_map subtrees ts));
   Ok (map root ts ++ rest)).
Proof.
  induction ts as [|t ts IH]; intros K fuel Hts Hfuel.
  - simpl. rewrite Nat.sub_0_r, app_nil_r. symmetry. apply bind_ret_r.
  - apply Forall_cons in Hts as [Ht Hts].
    destruct fuel as [|fuel]; [simpl in Hfuel; lia |].
    simpl in Hfuel. simpl.
    rewrite (tree_at_deref _ _ Ht), bind_Ok, (tree_at_children _ _ Ht).
    rewrite <- app_assoc, IH by (auto; lia).
    rewrite map_app, <- app_assoc.
    destruct (nodes_loop _ _ _); reflexivity.
Qed.

Lemma forest_size_subtrees ts :
  forest_size ts = length ts + forest_size (flat_map subtrees ts).
Proof.
  unfold forest_size. induction ts as [|[l o ks] ts IH]; [reflexivity |].
  simpl. rewrite map_app, list_sum_app, IH. lia.
Qed.

Lemma height_subtree t k : k ∈ subtrees t -> height k < height t.
Proof.
  destruct t as [l o ks]. simpl. induction ks as [|k' ks IH]; intros Hk.
  - apply elem_of_nil in Hk as [].
  - apply elem_of_cons in Hk as [->|Hk]; simpl; [lia |].
    specialize (IH Hk). lia.
Qed.

Lemma nodes_loop_levelorder h : forall n ts fuel,
  Forall (tree_at h) ts ->
  Forall (fun t => height t < n) ts ->
  forest_size ts <= fuel ->
  nodes_loop fuel h (map root ts) = Ok (levelorder n ts).
Proof.
  induction n as [|n IH]; intros ts fuel Hts Hh Hfuel.
  - destruct ts as [|t ts]; [apply nodes_loop_nil |].
    apply Forall_cons in Hh as [Hh _]. lia.
  - rewrite forest_size_subtrees in Hfuel.
    rewrite <- (app_nil_r (map root ts)).
    rewrite nodes_loop_forest by (auto; lia). simpl.
    rewrite (IH (flat_map subtrees ts)); [reflexivity | | | lia].
    + apply Forall_forall. intros k Hk.
      apply elem_of_flat_map in Hk as (t & Ht & Hk).
      rewrite Forall_forall in Hts.
      pose proof (tree_at_subtrees _ _ (Hts t Ht)) as Hsub.
      rewrite Forall_forall in Hsub. auto.
    + apply Forall_forall. intros k Hk.
      apply elem_of_flat_map in Hk as (t & Ht & Hk).
      rewrite Forall_forall in Hh. specialize (Hh t Ht).
      apply height_subtree in Hk. lia.
Qed.

Lemma nodes_bfs_order h t fuel :
  tree_at h t -> size t <= fuel -> nodes fuel h (root t) = Ok (bfs_order t).
Proof.
  intros Ht Hfuel. unfold nodes, bfs_order.
  apply (nodes_loop_levelorder h (S (height t)) [t]).
  - constructor; [exact Ht | constructor].
  - constructor; [lia | constructor].
  - unfold forest_size. simpl. lia.
Qed.

Lemma flat_map_locs_unfold ts :
  flat_map locs ts ≡ₚ map root ts ++ flat_map locs (flat_map subtrees ts).
Proof.
  induction ts as [|[l o ks] ts IH]; [reflexivity |].
  simpl. rewrite flat_map_app, IH. constructor.
  rewrite !app_assoc. apply Permutation_app_tail, Permutation_app_comm.
Qed.

Lemma levelorder_perm : forall n ts,
  Forall (fun t => height t < n) ts ->
  levelorder n ts ≡ₚ flat_map locs ts.
Proof.
  induction n as [|n IH]; intros ts Hh.
  - destruct ts as [|t ts]; [reflexivity |].
    apply Forall_cons in Hh as [Hh _]. lia.
  - simpl. rewrite flat_map_locs_unfold. apply Permutation_app_head, IH.
    apply Forall_forall. intros k Hk.
    apply elem_of_flat_map in Hk as (t & Ht & Hk).
    rewrite Forall_forall in Hh. specialize (Hh t Ht).
    apply height_subtree in Hk. lia.
Qed.

Lemma bfs_order_perm t : bfs_order t ≡ₚ locs t.
Proof.
  unfold bfs_order. rewrite levelorder_perm.
  - simpl. rewrite app_nil_r. reflexivity.
  - constructor; [lia | constructor].
Qed.

Lemma size_length_locs t : size t = length (locs t).
Proof.
  induction t as [l o ks IH] using tree_ind'. simpl. f_equal.
  induction IH as [|k ks Hk _ IHks]; [reflexivity |].
  simpl. rewrite length_app, Hk, IHks. reflexivity.
Qed.

Lemma bfs_order_length t : length (bfs_order t) = size t.
Proof. rewrite size_length_locs. apply Permutation_length, bfs_order_perm. Qed.

(** Breadth-first order is the concatenation of the levels. *)
Lemma levelorder_levels : forall n ts,
  levelorder n ts = flat_map (fun k => flat_map (level k) ts) (seq 0 n).
Proof.
  induction n as [|n IH]; intros ts; [reflexivity |].
  cbn [levelorder seq flat_map]. rewrite IH, <- seq_shift.
  apply (f_equal2 (@app loc)).
  - induction ts as [|t ts IHts]; [reflexivity |]. simpl. rewrite IHts. reflexivity.
  - generalize (seq 0 n). intros ks.
    induction ks as [|k ks IHks]; [reflexivity |].
    cbn [map flat_map]. rewrite IHks. apply (f_equal2 (@app loc)); [| reflexivity].
    clear. induction ts as [|t ts IHts]; [reflexivity |].
    cbn [flat_map level]. rewrite flat_map_app, IHts. reflexivity.
Qed.

Lemma bfs_order_levels t :
  bfs_order t = flat_map (fun k => level k t) (seq 0 (S (height t))).
Proof.
  unfold bfs_order. rewrite levelorder_levels. apply flat_map_ext.
  intros k. simpl. apply app_nil_r.
Qed.

(** ** Reachability in the store and the references of a tree *)

Lemma subtree_locs t k l : k ∈ subtrees t -> l ∈ locs k -> l ∈ locs t.
Proof.
  destruct t as [l0 o ks]. simpl. intros Hk Hl.
  apply elem_of_cons. right. apply elem_of_flat_map. eauto.
Qed.

Lemma locs_reachable h t l : tree_at h t -> l ∈ locs t -> reachable h (root t) l.
Proof.
  induction t as [l0 o ks IH] using tree_ind'. intros Ht Hl.
  inversion Ht as [l' o' ks' Hl0 Hkids Hks]; subst. simpl in *.
  apply elem_of_cons in Hl as [->|Hl]; [constructor |].
  apply elem_of_flat_map in Hl as (k & Hk & Hl).
  rewrite Forall_forall in IH, Hks.
  specialize (IH k Hk (Hks k Hk) Hl).
  assert (Hedge : exists v, (v, root k) ∈ children o).
  { assert (Hr : root k ∈ dict_values (children o))
      by (rewrite Hkids; apply list_elem_of_fmap; eauto).
    unfold dict_values in Hr. apply list_elem_of_fmap in Hr as ([v c] & Hc & Hr).
    simpl in Hc. subst. eauto. }
  destruct Hedge as (v & Hv).
  clear -IH Hv Hl0. induction IH.
  - econstructor; [constructor | exact Hl0 | exact Hv].
  - econstructor; eauto.
Qed.

Lemma locs_closed h t l o v c :
  tree_at h t -> l ∈ locs t -> h !! l = Some o -> (v, c) ∈ children o ->
  c ∈ locs t.
Proof.
  induction t as [l0 o0 ks IH] using tree_ind'. intros Ht Hl Ho Hc.
  inversion Ht as [l' o' ks' Hl0 Hkids Hks]; subst. simpl in Hl.
  apply elem_of_cons in Hl as [->|Hl].
  - assert (o = o0) by congruence. subst o.
    assert (Hr : c ∈ map root ks).
    { rewrite <- Hkids. unfold dict_values.
      apply list_elem_of_fmap. exists (v, c). auto. }
    apply list_elem_of_fmap in Hr as (k & -> & Hk).
    apply (subtree_locs (T l0 o0 ks) k); [exact Hk |].
    destruct k; simpl; left.
  - apply elem_of_flat_map in Hl as (k & Hk & Hl).
    rewrite Forall_forall in IH, Hks.
    apply (subtree_locs (T l0 o0 ks) k); [exact Hk |]. eauto.
Qed.

Lemma reachable_locs h t l : tree_at h t -> reachable h (root t) l -> l ∈ locs t.
Proof.
  intros Ht Hr. induction Hr.
  - destruct t; simpl; left.
  - eapply locs_closed; eauto.
Qed.

(** ** Counting nodes *)

Lemma py_sum_list_sum l : py_sum l = list_sum l.
Proof.
  unfold py_sum. rewrite <- (Nat.add_0_l (list_sum l)). generalize 0.
  induction l as [|x l IH]; intros a; simpl; [lia |].
  rewrite IH. lia.
Qed.

Lemma node_count_size h t : forall fuel,
  tree_at h t -> height t < fuel -> _node_count fuel h (root t) = Ok (size t).
Proof.
  induction t as [l o ks IH] using tree_ind'. intros fuel Ht Hfuel.
  destruct fuel as [|fuel]; [lia |].
  pose proof (tree_at_deref _ _ Ht) as Hd.
  pose proof (tree_at_children _ _ Ht) as Hc.
  pose proof (tree_at_subtrees _ _ Ht) as Hs.
  simpl in Hd, Hc, Hs |- *. rewrite Hd, bind_Ok.
  destruct ks as [|k ks].
  - destruct (children o); [reflexivity | discriminate].
  - destruct (children o) as [|e d] eqn:E; [discriminate |].
    rewrite Hc.
    assert (Hall : Forall (fun k' => _node_count fuel h (root k') = Ok (size k')) (k :: ks)).
    { rewrite Forall_forall in IH, Hs. apply Forall_forall. intros k' Hk'.
      apply IH; auto.
      pose proof (height_subtree (T l o (k :: ks)) k' Hk'). lia. }
    clear -Hall.
    assert (Hm : map_result (_node_count fuel h) (map root (k :: ks)) = Ok (map size (k :: ks))).
    { induction Hall as [|k' ks' Hk' _ IHks']; [reflexivity |].
      simpl. rewrite Hk', bind_Ok, IHks'. reflexivity. }
    rewrite Hm, bind_Ok, py_sum_list_sum. reflexivity.
Qed.

(** ** numpy helpers *)

Lemma existsb_neg_false Y : nonneg Y -> existsb (fun y => (y <? 0)%Z) Y = false.
Proof.
  induction 1 as [|y Y Hy _ IH]; [reflexivity |].
  simpl. rewrite IH. destruct (Z.ltb_spec y 0); [lia | reflexivity].
Qed.

Lemma existsb_neg_true Y :
  ¬ nonneg Y -> existsb (fun y => (y <? 0)%Z) Y = true.
Proof.
  intros Hn. destruct (existsb _ Y) eqn:E; [reflexivity |].
  exfalso. apply Hn. apply Forall_forall. intros y Hy.
  destruct (Z.ltb_spec y 0) as [Hlt|]; [| assumption].
  assert (existsb (fun y => (y <? 0)%Z) Y = true); [| congruence].
  apply existsb_exists. exists y. split; [apply list_elem_of_In; exact Hy |].
  apply Z.ltb_lt. exact Hlt.
Qed.

Lemma np_bincount_nonneg Y : nonneg Y -> np_bincount (IntVec Y) = Ok (hist Y).
Proof.
  intros Hn. destruct Y as [|y Y]; [reflexivity |].
  unfold np_bincount, hist. rewrite (existsb_neg_false _ Hn). reflexivity.
Qed.

Lemma take_nonneg Y p : nonneg Y -> nonneg (take Y p).
Proof.
  intros Hn. apply Forall_forall. intros y Hy.
  apply list_elem_of_fmap in Hy as (i & -> & _).
  destruct (nth_in_or_default i Y 0%Z) as [Hin| ->]; [| lia].
  unfold nonneg in Hn. rewrite Forall_forall in Hn.
  apply Hn, list_elem_of_In, Hin.
Qed.

(** ** [entropy] and [_best_attribute] on accepted labels *)

Lemma entropy_nonneg_labels Y : nonneg Y -> entropy (IntVec Y) = Ok (entropy_val Y).
Proof. intros Hn. unfold entropy. rewrite (np_bincount_nonneg _ Hn). reflexivity. Qed.

(** The division [len(p) / len(Xa)] cannot fail on a part of [Xa]. *)
Lemma weighted_entropy_pure Y Xa : forall ps acc,
  nonneg Y -> ps = [] \/ Xa <> [] ->
  weighted_entropy Y Xa ps acc =
  Ok (fold_left (fun a p =>
                   PrimFloat.add a
                     (PrimFloat.mul (rate (length p) (length Xa)) (entropy_val (take Y p))))
                ps acc).
Proof.
  induction ps as [|p ps IH]; intros acc Hn Hx; [reflexivity |].
  assert (HX : Xa <> []) by (destruct Hx as [Hx|Hx]; [discriminate | exact Hx]).
  simpl. unfold py_truediv.
  destruct Xa as [|x Xa']; [congruence |]. simpl length. cbn [Nat.eqb].
  rewrite bind_Ok, (entropy_nonneg_labels _ (take_nonneg _ p Hn)), bind_Ok.
  apply IH; [exact Hn | right; discriminate].
Qed.

Lemma best_attribute_step_pure Y best col :
  nonneg Y -> best_attribute_step Y best col = Ok (best_step Y best col).
Proof.
  intros Hn. destruct best as [bg ba], col as [i Xa].
  unfold best_attribute_step, best_step.
  rewrite (weighted_entropy_pure _ _ _ _ Hn), bind_Ok
    by (destruct Xa; [left; reflexivity | right; discriminate]).
  rewrite (entropy_nonneg_labels _ Hn), bind_Ok. simpl.
  fold (cond_entropy Y Xa). fold (gain_of Y Xa).
  destruct (PrimFloat.ltb bg (gain_of Y Xa)); reflexivity.
Qed.

Lemma best_attribute_loop_pure Y : forall cols best,
  nonneg Y ->
  best_attribute_loop Y cols best = Ok (fold_left (best_step Y) cols best).
Proof.
  induction cols as [|col cols IH]; intros best Hn; [reflexivity |].
  simpl. rewrite (best_attribute_step_pure _ _ _ Hn), bind_Ok. apply IH, Hn.
Qed.

Lemma best_attribute_pure data Y :
  column data 0 = Ok Y -> nonneg Y ->
  _best_attribute data =
  Ok (fold_left (best_step Y) (attribute_columns data) (Float64.minus_one, (-1)%Z)).
Proof.
  intros Hc Hn. unfold _best_attribute. rewrite Hc, bind_Ok.
  apply best_attribute_loop_pure, Hn.
Qed.

(** ** One call of [_build_tree], case by case *)

Lemma build_tree_leaf fuel m par h Y c :
  column m 0 = Ok Y -> nonneg Y -> distinct Y <= 1 ->
  argmax (hist Y) = Ok c ->
  _build_tree (S fuel) (IntMat m) par h =
  Ok (length h, h ++ [mkNode par (hist Y) c None []]).
Proof.
  intros Hc Hn Hd Ha. rewrite build_tree_unfold. simpl labels.
  rewrite Hc, !bind_Ok, (np_bincount_nonneg _ Hn), bind_Ok.
  destruct (Nat.leb_spec (distinct Y) 1); [| lia].
  unfold Node_init. rewrite Ha. reflexivity.
Qed.

Lemma build_tree_no_gain fuel m par h Y c g a :
  column m 0 = Ok Y -> nonneg Y -> 1 < distinct Y ->
  _best_attribute m = Ok (g, a) -> PrimFloat.ltb Float64.zero g = false ->
  argmax (hist Y) = Ok c ->
  _build_tree (S fuel) (IntMat m) par h =
  Ok (length h, h ++ [mkNode par (hist Y) c None []]).
Proof.
  intros Hc Hn Hd Hb Hg Ha. rewrite build_tree_unfold. simpl labels.
  rewrite Hc, !bind_Ok, (np_bincount_nonneg _ Hn), bind_Ok.
  destruct (Nat.leb_spec (distinct Y) 1); [lia |].
  rewrite Hb, bind_Ok, Hg.
  unfold Node_init. rewrite Ha. reflexivity.
Qed.

Lemma build_tree_split fuel m par h Y c g a Xa kids h2 :
  column m 0 = Ok Y -> nonneg Y -> 1 < distinct Y ->
  _best_attribute m = Ok (g, a) -> PrimFloat.ltb Float64.zero g = true ->
  argmax (hist Y) = Ok c ->
  column m a = Ok Xa ->
  build_children
    (fun d h' => _build_tree fuel (IntMat d) (Some (length h)) h')
    m (partition Xa) (h ++ [mkNode par (hist Y) c (Some a) []]) = Ok (kids, h2) ->
  _build_tree (S fuel) (IntMat m) par h =
  Ok (length h, assign_children (length h) kids h2).
Proof.
  intros Hc Hn Hd Hb Hg Ha Hx Hk. rewrite build_tree_unfold. simpl labels.
  rewrite Hc, !bind_Ok, (np_bincount_nonneg _ Hn), bind_Ok.
  destruct (Nat.leb_spec (distinct Y) 1); [lia |].
  rewrite Hb, bind_Ok, Hg.
  unfold Node_init. rewrite Ha, !bind_Ok, Hx, bind_Ok, Hk. reflexivity.
Qed.

(** ** The arguments at which [np.log2] is consulted

    [entropy] skips the probabilities that are zero, so nothing the code
    computes depends on the value of [np.log2] at a zero: two functions
    that agree on the doubles Python takes as true give the same entropies,
    the same best attribute and the same tree. *)

Lemma entropy_of_counts_ext (f g : Log2) counts n :
  (forall x, py_bool x = true -> f x = g x) ->
  @entropy_of_counts f counts n = @entropy_of_counts g counts n.
Proof.
  intros Hfg. unfold entropy_of_counts.
  assert (E : map (fun p => PrimFloat.mul p (@np_log2 f p))
                (List.filter py_bool (map (fun c => rate c n) counts)) =
              map (fun p => PrimFloat.mul p (@np_log2 g p))
                (List.filter py_bool (map (fun c => rate c n) counts))).
  { apply map_ext_in. intros p Hp. apply filter_In in Hp as [_ Hp].
    unfold np_log2. rewrite (Hfg p Hp). reflexivity. }
  rewrite E. reflexivity.
Qed.

Lemma entropy_ext (f g : Log2) Y :
  (forall x, py_bool x = true -> f x = g x) -> @entropy f Y = @entropy g Y.
Proof.
  intros Hfg. unfold entropy. destruct (np_bincount Y) as [counts|e]; [| reflexivity].
  simpl. rewrite (entropy_of_counts_ext f g _ _ Hfg). reflexivity.
Qed.

Lemma weighted_entropy_ext (f g : Log2) Y Xa : forall ps acc,
  (forall x, py_bool x = true -> f x = g x) ->
  @weighted_entropy f Y Xa ps acc = @weighted_entropy g Y Xa ps acc.
Proof.
  induction ps as [|p ps IH]; intros acc Hfg; [reflexivity |].
  simpl. destruct (py_truediv (length p) (length Xa)) as [w|e]; [| reflexivity].
  simpl. rewrite (entropy_ext f g _ Hfg).
  destruct (@entropy g (IntVec (take Y p))) as [e|e]; [| reflexivity].
  simpl. apply IH, Hfg.
Qed.

Lemma best_attribute_loop_ext (f g : Log2) Y : forall cols best,
  (forall x, py_bool x = true -> f x = g x) ->
  @best_attribute_loop f Y cols best = @best_attribute_loop g Y cols best.
Proof.
  induction cols as [|[i Xa] cols IH]; intros [bg ba] Hfg; [reflexivity |].
  simpl. unfold best_attribute_step.
  rewrite (weighted_entropy_ext f g _ _ _ _ Hfg).
  destruct (@weighted_entropy g Y Xa _ _) as [c|e]; [| reflexivity].
  simpl. rewrite (entropy_ext f g _ Hfg).
  destruct (@entropy g (IntVec Y)) as [eY|e]; [| reflexivity].
  simpl. destruct (PrimFloat.ltb bg _); simpl; apply IH, Hfg.
Qed.

Lemma best_attribute_ext (f g : Log2) m :
  (forall x, py_bool x = true -> f x = g x) ->
  @_best_attribute f m = @_best_attribute g m.
Proof.
  intros Hfg. unfold _best_attribute. destruct (column m 0) as [Y|e]; [| reflexivity].
  simpl. apply best_attribute_loop_ext, Hfg.
Qed.

Lemma build_children_ext b1 b2 data : forall parts h,
  (forall d h', b1 d h' = b2 d h') ->
  build_children b1 data parts h = build_children b2 data parts h.
Proof.
  induction parts as [|[v p] parts IH]; intros h Hb; [reflexivity |].
  simpl. rewrite Hb. destruct (b2 (take_rows data p) h) as [[child h1]|e]; [| reflexivity].
  simpl. rewrite (IH h1 Hb). reflexivity.
Qed.

Lemma build_tree_ext (f g : Log2) fuel : forall data par h,
  (forall x, py_bool x = true -> f x = g x) ->
  @_build_tree f fuel data par h = @_build_tree g fuel data par h.
Proof.
  induction fuel as [|fuel IH]; intros data par h Hfg; [reflexivity |].
  simpl. destruct (labels data) as [Y|e]; [| reflexivity]. simpl.
  destruct (np_bincount Y) as [ns|e]; [| reflexivity]. simpl.
  destruct data as [m|nc rs]; [| reflexivity].
  destruct Y as [Yz|]; [| reflexivity].
  destruct (distinct Yz <=? 1); [reflexivity |].
  rewrite (best_attribute_ext f g m Hfg).
  destruct (@_best_attribute g m) as [[gain a]|e]; [| reflexivity]. simpl.
  destruct (PrimFloat.ltb Float64.zero gain); [| reflexivity].
  destruct (Node_init par ns (Some a) h) as [[this h1]|e]; [| reflexivity]. simpl.
  destruct (column m a) as [Xa|e]; [| reflexivity]. simpl.
  rewrite (build_children_ext
             (fun d h' => @_build_tree f fuel (IntMat d) (Some this) h')
             (fun d h' => @_build_tree g fuel (IntMat d) (Some this) h'));
    [reflexivity |].
  intros d h'. apply IH, Hfg.
Qed.

(** A function that takes the values of a table can be replaced by the
    table. *)
Lemma init_tabulated tbl fuel data :
  agrees np_log2 tbl ->
  DecisionTree_init fuel data =
  @DecisionTree_init (tabulate tbl np_log2) fuel data.
Proof.
  intros Ha. unfold DecisionTree_init. apply build_tree_ext.
  intros x _. symmetry. apply (tabulate_agrees np_log2 tbl x Ha).
Qed.

Lemma best_attribute_tabulated tbl m :
  agrees np_log2 tbl ->
  _best_attribute m = @_best_attribute (tabulate tbl np_log2) m.
Proof.
  intros Ha. apply best_attribute_ext.
  intros x _. symmetry. apply (tabulate_agrees np_log2 tbl x Ha).
Qed.


(** ** Histograms of pure and of mixed label lists *)

Lemma distinct_le1_eq Y x y : distinct Y <= 1 -> In x Y -> In y Y -> x = y.
Proof.
  unfold distinct. intros Hd Hx Hy.
  apply (nodup_In Z.eq_dec) in Hx, Hy.
  destruct (nodup Z.eq_dec Y) as [|a [|b l]]; simpl in *;
    [contradiction | | lia].
  destruct Hx as [<-|[]], Hy as [<-|[]]. reflexivity.
Qed.

Lemma distinct_gt1_two Y :
  1 < distinct Y -> exists x y, In x Y /\ In y Y /\ x <> y.
Proof.
  unfold distinct. intros Hd.
  pose proof (NoDup_nodup Z.eq_dec Y) as Hnd.
  destruct (nodup Z.eq_dec Y) as [|a [|b l]] eqn:E; simpl in Hd; [lia | lia |].
  exists a, b. repeat split.
  - apply (nodup_In Z.eq_dec). rewrite E. left. reflexivity.
  - apply (nodup_In Z.eq_dec). rewrite E. right. left. reflexivity.
  - intros ->. inversion Hnd as [|? ? Hnin _]; subst. apply Hnin. left. reflexivity.
Qed.

Lemma count_occ_const Y x z :
  (forall y, In y Y -> y = x) ->
  count_occ Z.eq_dec Y z = if Z.eq_dec x z then length Y else 0.
Proof.
  induction Y as [|y Y IH]; intros Hall; simpl.
  - destruct (Z.eq_dec x z); reflexivity.
  - rewrite IH by (intros; apply Hall; right; assumption).
    rewrite (Hall y) by (left; reflexivity).
    destruct (Z.eq_dec x z); reflexivity.
Qed.

Lemma hist_bound Y : Forall (fun c => c <= length Y) (hist Y).
Proof.
  unfold hist. destruct Y as [|y Y]; [constructor |].
  apply Forall_forall. intros c Hc.
  apply list_elem_of_fmap in Hc as (k & -> & _). apply count_occ_bound.
Qed.

Lemma amax_ge Y y : In y Y -> (y <= amax Y)%Z.
Proof.
  induction Y as [|x Y IH]; intros Hy; [contradiction |].
  simpl. destruct Hy as [->|Hy]; [lia |]. specialize (IH Hy). lia.
Qed.

(** ** Building the separable training set *)

Lemma nonneg_dec_true Y : forallb (fun y => (0 <=? y)%Z) Y = true -> nonneg Y.
Proof.
  intros Hb. apply Forall_forall. intros y Hy.
  rewrite forallb_forall in Hb. apply Z.leb_le, Hb, list_elem_of_In, Hy.
Qed.

(** With [np.log2] rounded to nearest at 1, 1/3 and 2/3 the attribute has a
    positive gain, and the tree is a root over two leaves. *)
Lemma build_separable fuel :
  agrees np_log2 log2_thirds ->
  DecisionTree_init (S (S fuel)) (IntMat separable) = Ok (0, separable_heap).
Proof.
  intros Ha. rewrite (init_tabulated log2_thirds _ _ Ha).
  vm_compute. reflexivity.
Qed.

(** Labels 0 and 1 on two rows ask for [np.log2] at 1 and at 1/2 only,
    where it is exact. *)
Lemma build_negative_attribute fuel :
  agrees np_log2 log2_halves ->
  DecisionTree_init (S (S fuel)) (IntMat negative_attribute) =
  Ok (0, negative_attribute_heap).
Proof.
  intros Ha. rewrite (init_tabulated log2_halves _ _ Ha).
  vm_compute. reflexivity.
Qed.


(** * Main results *)

(** ** Pruning on the separable training set *)

Lemma prune_separable : prune 3 separable_heap 0 = Ok separable_pruned.
Proof. vm_compute. reflexivity. Qed.

(** C1. Evaluation of [prune] at the root of the tree built from
    [[0,0],[0,0],[1,1]], for every [np.log2] that is rounded to nearest at
    1, 1/3 and 2/3: the node error rate is 1/3, which is
    (total - max) / total, but the children error rate is computed with
    [min] and comes out as 2/3, where the sum of (child_total - max) over the
    node's total is 0.  The root is cleared although 0 > 1/3 is false. *)
Theorem prune_children_rate_uses_min :
  agrees np_log2 log2_thirds ->
  DecisionTree_init 2 (IntMat separable) = Ok (0, separable_heap) /\
  (exists ne ce,
     rates_at separable_heap 0 = Ok (ne, ce) /\
     ne = rate 1 3 /\ ce = rate 2 3 /\
     spec_node_error_rate separable_root = rate 1 3 /\
     spec_children_error_rate separable_root separable_leaves = rate 0 3 /\
     PrimFloat.ltb (spec_node_error_rate separable_root)
       (spec_children_error_rate separable_root separable_leaves) = false /\
     PrimFloat.eqb ce
       (spec_children_error_rate separable_root separable_leaves) = false) /\
  prune 3 separable_heap 0 = Ok separable_pruned.
Proof.
  intros Hlog.
  split; [apply (build_separable 0 Hlog) |]. split; [| apply prune_separable].
  eexists _, _. split; [vm_compute; reflexivity |].
  repeat split; reflexivity.
Qed.

(** C2. On the tree built from [[0,0],[0,0],[1,1]], for every [np.log2]
    that is rounded to nearest at 1, 1/3 and 2/3, the training accuracy is
    1 before [prune] and 2/3 after it: pruning lowers [score] on the
    training set it was built from. *)
Theorem prune_lowers_training_score :
  agrees np_log2 log2_thirds ->
  DecisionTree_init 2 (IntMat separable) = Ok (0, separable_heap) /\
  prune 3 separable_heap 0 = Ok separable_pruned /\
  (exists before after,
     score 2 separable_heap 0 separable = Ok before /\
     score 2 separable_pruned 0 separable = Ok after /\
     before = rate 3 3 /\ after = rate 2 3 /\
     PrimFloat.ltb after before = true).
Proof.
  intros Hlog.
  split; [apply (build_separable 0 Hlog) |]. split; [apply prune_separable |].
  eexists _, _. split; [vm_compute; reflexivity |].
  split; [vm_compute; reflexivity |].
  repeat split; reflexivity.
Qed.

(** The two trainings sets of the boundary scenario, built. *)
Lemma build_boundary fuel :
  agrees np_log2 log2_fifths ->
  DecisionTree_init (S (S fuel)) (IntMat boundary) = Ok (0, boundary_heap_one_slot) /\
  DecisionTree_init (S (S fuel)) (IntMat boundary_swapped) = Ok (0, boundary_heap_swapped).
Proof.
  intros Ha. rewrite !(init_tabulated log2_fifths _ _ Ha).
  split; vm_compute; reflexivity.
Qed.

(** C3. The boundary scenario, built from ten training rows, for every
    [np.log2] that is rounded to nearest at 1 and at the fifths.  With A as
    label 0 and B as label 1, [np.bincount] gives the child without B the
    one-slot histogram [[5]], whose [min] is 5: the code computes the node
    rate 2/10 and the children rate 5/10 + 2/10, and clears the node, where
    the rates of the specification are both 0.2 and the node is kept.  With
    A as label 1 and B as label 0 the histograms are [[2, 8]], [[0, 5]] and
    [[2, 3]], both computed rates are 0.2 and the node is kept. *)
Theorem prune_boundary_depends_on_labels :
  agrees np_log2 log2_fifths ->
  DecisionTree_init 2 (IntMat boundary) = Ok (0, boundary_heap_one_slot) /\
  (exists ne ce,
     rates_at boundary_heap_one_slot 0 = Ok (ne, ce) /\
     ne = rate 2 10 /\ ce = PrimFloat.add (rate 5 10) (rate 2 10) /\
     PrimFloat.ltb ne ce = true /\
     spec_node_error_rate boundary_root = Float64.point_two /\
     spec_children_error_rate boundary_root boundary_leaves = Float64.point_two /\
     PrimFloat.ltb (spec_node_error_rate boundary_root)
       (spec_children_error_rate boundary_root boundary_leaves) = false) /\
  (exists h',
     prune 3 boundary_heap_one_slot 0 = Ok h' /\
     (children <$> h' !! 0) = Some []) /\
  DecisionTree_init 2 (IntMat boundary_swapped) = Ok (0, boundary_heap_swapped) /\
  (exists ne ce,
     rates_at boundary_heap_swapped 0 = Ok (ne, ce) /\
     ne = Float64.point_two /\ ce = Float64.point_two /\
     PrimFloat.ltb ne ce = false) /\
  prune 3 boundary_heap_swapped 0 = Ok boundary_heap_swapped.
Proof.
  intros Hlog. destruct (build_boundary 0 Hlog) as [Hb Hs].
  split; [exact Hb |]. split; [| split; [| split; [exact Hs | split]]].
  - eexists _, _. split; [vm_compute; reflexivity |].
    repeat split; reflexivity.
  - eexists. split; [vm_compute; reflexivity | reflexivity].
  - eexists _, _. split; [vm_compute; reflexivity |].
    repeat split; reflexivity.
  - vm_compute. reflexivity.
Qed.

(** C10. The root is not exempt from collapse: on the tree built from
    [[0,0],[0,0],[1,1]], for every [np.log2] that is rounded to nearest at
    1, 1/3 and 2/3, the root is internal before [prune] and a leaf after
    it, so the whole tree is one node; [_remove_node] on that root changes
    nothing and returns no parent. *)
Theorem prune_collapses_root :
  agrees np_log2 log2_thirds ->
  exists data r h h' o o',
    DecisionTree_init 2 data = Ok (r, h) /\
    h !! r = Some o /\ parent o = None /\ children o <> [] /\
    prune 3 h r = Ok h' /\
    h' !! r = Some o' /\ children o' = [] /\
    _node_count 1 h' r = Ok 1 /\
    _remove_node h r = Ok (None, h).
Proof.
  intros Hlog.
  exists (IntMat separable), 0, separable_heap, separable_pruned.
  eexists _, _.
  split; [apply (build_separable 0 Hlog) |].
  split; [reflexivity |]. split; [reflexivity |]. split; [discriminate |].
  split; [apply prune_separable |].
  split; [reflexivity |]. repeat split; reflexivity.
Qed.

(** ** Empty training sets *)

(** C8. A dataset with zero rows is never built: every call of
    [_build_tree] on it raises.  For an integer dataset with a label column
    the exception is the [ValueError] of [argmax] on the empty histogram,
    raised inside the [Node] constructor. *)
Theorem build_empty_fails fuel data par h :
  nrows data = 0 ->
  (exists e, _build_tree fuel data par h = Raise e) /\
  (forall nc, data = IntMat (Matrix (S nc) []) ->
   _build_tree (S fuel) data par h = Raise ValueError).
Proof.
  intros Hrows. split.
  - destruct fuel as [|fuel]; [eexists; reflexivity |].
    rewrite build_tree_unfold.
    destruct data as [[nc rs]|nc rs]; simpl in Hrows;
      apply length_zero_iff_nil in Hrows; subst rs.
    + destruct nc as [|nc]; [eexists; reflexivity |]. eexists. reflexivity.
    + destruct nc as [|nc]; eexists; reflexivity.
  - intros nc ->. reflexivity.
Qed.

(** ** Trees built from the empty store *)

Lemma height_lt_size t : height t < size t.
Proof.
  induction t as [l o ks IH] using tree_ind'. simpl.
  induction IH as [|k ks Hk _ IHks]; simpl; lia.
Qed.

Lemma init_built fuel data r h :
  DecisionTree_init fuel data = Ok (r, h) ->
  exists m t, data = IntMat m /\ root t = r /\ built (ncols m) None [] t h /\
              size t = length h /\ locs t = seq 0 (length h).
Proof.
  unfold DecisionTree_init. intros Hb. destruct data as [m|nc rs].
  - apply build_tree_inv in Hb as (t & Hr & Hbuilt).
    exists m, t. split; [reflexivity |]. split; [exact Hr |]. split; [exact Hbuilt |].
    destruct Hbuilt as ((ext & -> & Hl) & _). simpl in *.
    rewrite size_length_locs, Hl, length_seq. auto.
  - pose proof (build_tree_float fuel nc rs None []) as Hf.
    rewrite Hb in Hf. discriminate.
Qed.

(** C6. For every built tree, [nodes()] (given at least as many steps as
    there are nodes) yields a sequence without repetition that contains
    exactly the references reachable from the root, starts at the root and
    is the breadth-first order of the tree; [node_count] is the length of
    that sequence.  The single-leaf tree is one instance. *)
Theorem nodes_visits_each_node_once fuel data r h :
  DecisionTree_init fuel data = Ok (r, h) ->
  exists t ls,
    root t = r /\ tree_at h t /\ ls = bfs_order t /\
    (forall n, length h <= n -> nodes n h r = Ok ls) /\
    NoDup ls /\
    (forall l, l ∈ ls <-> reachable h r l) /\
    head ls = Some r /\
    (forall n, length h <= n -> _node_count n h r = Ok (length ls)).
Proof.
  intros Hb.
  apply init_built in Hb as (m & t & -> & Hr & (_ & Hat & _ & _) & Hsize & Hlocs).
  exists t, (bfs_order t). subst r.
  split; [reflexivity |]. split; [exact Hat |]. split; [reflexivity |].
  split; [| split; [| split; [| split]]].
  - intros n Hn. apply nodes_bfs_order; [exact Hat | lia].
  - rewrite bfs_order_perm, Hlocs. apply NoDup_seq.
  - intros l. rewrite bfs_order_perm. split.
    + apply locs_reachable, Hat.
    + apply reachable_locs, Hat.
  - unfold bfs_order. destruct t; reflexivity.
  - intros n Hn. rewrite bfs_order_length.
    apply node_count_size; [exact Hat |].
    pose proof (height_lt_size t). lia.
Qed.

(** The single-leaf tree: one row, one node. *)
Lemma nodes_single_leaf :
  DecisionTree_init 1 (IntMat (Matrix 2 [[1; 7]]%Z)) =
    Ok (0, [mkNode None [0; 1] 1 None []]) /\
  nodes 1 [mkNode None [0; 1] 1 None []] 0 = Ok [0] /\
  _node_count 1 [mkNode None [0; 1] 1 None []] 0 = Ok 1.
Proof.
  split; [| split; reflexivity].
  unfold DecisionTree_init.
  rewrite (build_tree_leaf 0 _ _ _ [1]%Z 1);
    [reflexivity | reflexivity | apply nonneg_dec_true; reflexivity
    | vm_compute; lia | reflexivity].
Qed.

(** ** Prediction *)

Lemma predict_unfold fuel h dtree x :
  _predict (S fuel) h dtree x =
  (o ← deref h dtree;
   match children o with
   | [] => Ok (cls o)
   | _ =>
       match attr_idx o with
       | None => Raise TypeError
       | Some a =>
           v ← np_index x a;
           match dict_get (children o) v with
           | None => Ok (cls o)
           | Some child => _predict fuel h child x
           end
       end
   end).
Proof. reflexivity. Qed.

Lemma deref_Some h l o : h !! l = Some o -> deref h l = Ok o.
Proof. unfold deref. intros ->. reflexivity. Qed.

(** A leaf answers with its class. *)
Lemma predict_leaf fuel h dtree x o :
  h !! dtree = Some o -> children o = [] ->
  _predict (S fuel) h dtree x = Ok (cls o).
Proof.
  intros Ho Hc. rewrite predict_unfold, (deref_Some _ _ _ Ho), bind_Ok, Hc.
  reflexivity.
Qed.

(** An internal node without a child for the example's value answers with
    its own class. *)
Lemma predict_unseen fuel h dtree x o a v :
  h !! dtree = Some o -> attr_idx o = Some a -> np_index x a = Ok v ->
  dict_get (children o) v = None ->
  _predict (S fuel) h dtree x = Ok (cls o).
Proof.
  intros Ho Ha Hv Hg. rewrite predict_unfold, (deref_Some _ _ _ Ho), bind_Ok.
  destruct (children o) eqn:E; [reflexivity |].
  rewrite Ha, Hv, bind_Ok, Hg. reflexivity.
Qed.

Lemma predict_descend fuel h dtree x o a v c :
  h !! dtree = Some o -> attr_idx o = Some a -> np_index x a = Ok v ->
  dict_get (children o) v = Some c ->
  _predict (S fuel) h dtree x = _predict fuel h c x.
Proof.
  intros Ho Ha Hv Hg. rewrite predict_unfold, (deref_Some _ _ _ Ho), bind_Ok.
  destruct (children o) eqn:E; [discriminate |].
  rewrite Ha, Hv, bind_Ok, Hg. reflexivity.
Qed.

Lemma dict_get_Some_values {V} (d : list (Z * V)) k v :
  dict_get d k = Some v -> v ∈ dict_values d.
Proof.
  induction d as [|[k' v'] d IH]; simpl; [discriminate |].
  destruct (k' =? k)%Z.
  - intros [= ->]. left.
  - intros Hg. right. apply IH, Hg.
Qed.

Lemma np_index_axis x a :
  is_ok (np_axis_index (length x) a) = true -> exists v, np_index x a = Ok v.
Proof.
  unfold np_index. destruct (np_axis_index (length x) a); [eauto | discriminate].
Qed.

(** On a tree in the store whose split attributes index the example, the
    walk exists, ends inside the tree, and [_predict] returns the class of
    the node where it ends. *)
Lemma predict_tree h x t :
  tree_at h t -> tree_all (node_ok (length x)) t ->
  exists stop o,
    walk h x (root t) stop /\ stop ∈ locs t /\ h !! stop = Some o /\
    forall fuel, height t < fuel -> _predict fuel h (root t) x = Ok (cls o).
Proof.
  induction t as [l o ks IH] using tree_ind'. intros Hat Hall.
  inversion Hat as [l' o' ks' Hl Hkids Hks]; subst.
  inversion Hall as [l' o' ks' (_ & _ & Hattr) Halls]; subst.
  destruct (children o) as [|e d] eqn:E.
  - exists l, o. split; [eapply walk_leaf; eauto |].
    split; [simpl; left |]. split; [exact Hl |].
    intros [|fuel] Hf; [lia |]. apply predict_leaf; assumption.
  - destruct Hattr as (a & Ha & Hidx); [discriminate |].
    destruct (np_index_axis _ _ Hidx) as (v & Hv).
    destruct (dict_get (children o) v) as [c|] eqn:G.
    + pose proof (dict_get_Some_values _ _ _ G) as Hc.
      rewrite E, Hkids in Hc. apply list_elem_of_fmap in Hc as (k & -> & Hk).
      rewrite Forall_forall in IH, Hks, Halls.
      destruct (IH k Hk (Hks k Hk) (Halls k Hk)) as (stop & os & Hw & Hin & Hs & Hp).
      exists stop, os. split.
      { eapply walk_descend; eauto. rewrite E. discriminate. }
      split; [eapply subtree_locs; eauto |]. split; [exact Hs |].
      intros [|fuel] Hf; [lia |].
      rewrite (predict_descend _ _ _ _ _ _ _ _ Hl Ha Hv G). apply Hp.
      pose proof (height_subtree (T l o ks) k Hk). lia.
    + exists l, o. split.
      { eapply walk_unseen; eauto. rewrite E. discriminate. }
      split; [simpl; left |]. split; [exact Hl |].
      intros [|fuel] Hf; [lia |]. eapply predict_unseen; eauto.
Qed.

Lemma np_axis_index_wider nc n a :
  nc <= n -> is_ok (np_axis_index nc a) = true -> is_ok (np_axis_index n a) = true.
Proof.
  unfold np_axis_index. intros Hle.
  destruct (Z.leb_spec 0 a), (Z.ltb_spec a (Z.of_nat nc)),
    (Z.ltb_spec a (Z.of_nat n)), (Z.leb_spec (- Z.of_nat nc) a),
    (Z.leb_spec (- Z.of_nat n) a), (Z.ltb_spec a 0);
    simpl; try reflexivity; try discriminate; lia.
Qed.

Lemma tree_all_wider nc n t :
  nc <= n -> tree_all (node_ok nc) t -> tree_all (node_ok n) t.
Proof.
  intros Hle. induction t as [l o ks IH] using tree_ind'. intros Hall.
  inversion Hall as [l' o' ks' (Hne & Hc & Hattr) Halls]; subst.
  constructor.
  - split; [exact Hne |]. split; [exact Hc |].
    intros Hk. destruct (Hattr Hk) as (a & Ha & Hidx).
    exists a. split; [exact Ha |]. eapply np_axis_index_wider; eauto.
  - rewrite Forall_forall in IH, Halls |- *. intros k Hk. auto.
Qed.

(** C5. For every built tree and every example at least as wide as the
    training data, the walk from the root ends at a leaf or at the first internal
    node without a child for the example's value, and [_predict] returns
    the majority class of the node where it ends; no exception is raised. *)
Theorem predict_falls_back_to_majority fuel m r h x :
  DecisionTree_init fuel (IntMat m) = Ok (r, h) ->
  ncols m <= length x ->
  exists stop o,
    walk h x r stop /\ h !! stop = Some o /\
    argmax (nsamples o) = Ok (cls o) /\
    forall n, length h <= n -> _predict n h r x = Ok (cls o).
Proof.
  intros Hb Hx.
  apply init_built in Hb as (m' & t & [= <-] & Hr & (_ & Hat & _ & Hall) & Hsize & Hlocs).
  subst r. apply (tree_all_wider _ _ _ Hx) in Hall.
  destruct (predict_tree h x t Hat Hall) as (stop & o & Hw & Hin & Hs & Hp).
  exists stop, o. split; [exact Hw |]. split; [exact Hs |]. split.
  - clear -Hall Hat Hin Hs.
    induction t as [l o0 ks IH] using tree_ind'.
    inversion Hat as [l' o' ks' Hl Hkids Hks]; subst.
    inversion Hall as [l' o' ks' (_ & Hc & _) Halls]; subst.
    simpl in Hin. apply elem_of_cons in Hin as [->|Hin].
    + congruence.
    + apply elem_of_flat_map in Hin as (k & Hk & Hin).
      rewrite Forall_forall in IH, Hks, Halls. eauto.
  - intros n Hn. apply Hp. pose proof (height_lt_size t). lia.
Qed.

(** The example [5, 7] carries the attribute value 7, unseen in training:
    the answer is the root's majority class. *)
Lemma predict_unseen_example : _predict 1 separable_heap 0 [5; 7]%Z = Ok 0.
Proof. reflexivity. Qed.

(** ** The frame of [prune] *)

Lemma same_but_children_refl o : same_but_children o o.
Proof. unfold same_but_children. auto 6. Qed.

Lemma same_but_children_trans o1 o2 o3 :
  same_but_children o1 o2 -> same_but_children o2 o3 -> same_but_children o1 o3.
Proof.
  intros (Hp & Hn & Hc & Ha & Hk) (Hp' & Hn' & Hc' & Ha' & Hk').
  repeat split; try congruence.
  destruct Hk' as [Hk'|Hk']; [| right; exact Hk'].
  destruct Hk as [Hk|Hk]; [left | right]; congruence.
Qed.

Lemma pruned_from_refl h : pruned_from h h.
Proof. split; [reflexivity |]. intros l o Ho. eauto using same_but_children_refl. Qed.

Lemma pruned_from_trans h1 h2 h3 :
  pruned_from h1 h2 -> pruned_from h2 h3 -> pruned_from h1 h3.
Proof.
  intros [Hl H12] [Hl' H23]. split; [congruence |].
  intros l o Ho. destruct (H12 l o Ho) as (o2 & Ho2 & Hs).
  destruct (H23 l o2 Ho2) as (o3 & Ho3 & Hs').
  eauto using same_but_children_trans.
Qed.

Lemma assign_empty_pruned_from h l : pruned_from h (assign_children l [] h).
Proof.
  unfold assign_children. destruct (h !! l) as [o|] eqn:E; [| apply pruned_from_refl].
  split; [apply length_insert |].
  intros l' o' Ho'. destruct (decide (l = l')) as [<-|Hne].
  - rewrite list_lookup_insert_eq by (eapply lookup_lt_Some; eauto).
    assert (o' = o) by congruence. subst o'.
    eexists. split; [reflexivity |].
    unfold same_but_children. simpl. auto 6.
  - rewrite list_lookup_insert_ne by exact Hne.
    eauto using same_but_children_refl.
Qed.

Lemma prune_step_frame h l h' : prune_step h l = Ok h' -> pruned_from h h'.
Proof.
  unfold prune_step. intros Hs. inv_bind Hs. rename a into o.
  destruct (children o); [injection Hs as <-; apply pruned_from_refl |].
  inv_bind Hs. inv_bind Hs.
  destruct (PrimFloat.ltb _ _); injection Hs as <-;
    [apply assign_empty_pruned_from | apply pruned_from_refl].
Qed.

Lemma prune_loop_frame ns : forall h h',
  prune_loop h ns = Ok h' -> pruned_from h h'.
Proof.
  induction ns as [|l ns IH]; intros h h' Hp; simpl in Hp.
  - injection Hp as <-. apply pruned_from_refl.
  - inv_bind Hp. eapply pruned_from_trans; [eapply prune_step_frame | eapply IH]; eauto.
Qed.

(** On any store, whatever [prune] returns differs from the store it was
    given only by emptied children mappings. *)
Lemma prune_frame fuel h r h' : prune fuel h r = Ok h' -> pruned_from h h'.
Proof.
  unfold prune. intros Hp. inv_bind Hp. eapply prune_loop_frame; eauto.
Qed.

(** ** [prune] returns on a well-formed store *)

Lemma heap_ok_pruned h h' : heap_ok h -> pruned_from h h' -> heap_ok h'.
Proof.
  intros Hok [Hlen Hfr] l o' Ho'.
  assert (Hl : l < length h) by (rewrite <- Hlen; eapply lookup_lt_Some; eauto).
  destruct (lookup_lt_is_Some_2 h l Hl) as (o & Ho).
  destruct (Hfr l o Ho) as (o2 & Ho2 & (_ & Hn & _ & _ & Hk)).
  assert (o2 = o') by congruence. subst o2.
  destruct (Hok l o Ho) as [Hne Hc]. split; [congruence |].
  intros c Hin. rewrite Hlen. apply Hc.
  destruct Hk as [Hk | Hk]; rewrite Hk in Hin; [exact Hin |].
  apply elem_of_nil in Hin as [].
Qed.

Lemma py_min_ok l : l <> [] -> exists m, py_min l = Ok m.
Proof. destruct l; [congruence | eexists; reflexivity]. Qed.

Lemma children_err_sum_ok h o : forall kids acc,
  heap_ok h -> Forall (fun c => c < length h) kids ->
  exists q, children_err_sum h o kids acc = Ok q.
Proof.
  induction kids as [|k kids IH]; intros acc Hok Hk; simpl; [eauto |].
  apply Forall_cons in Hk as [Hk Hks].
  destruct (lookup_lt_is_Some_2 h k Hk) as (child & Hc).
  rewrite (deref_Some _ _ _ Hc), bind_Ok.
  destruct (py_min_ok (nsamples child)) as (m & ->); [apply (Hok k child Hc) |].
  rewrite bind_Ok. apply IH; assumption.
Qed.

Lemma prune_step_ok h l :
  heap_ok h -> l < length h -> exists h', prune_step h l = Ok h'.
Proof.
  intros Hok Hl. unfold prune_step.
  destruct (lookup_lt_is_Some_2 h l Hl) as (o & Ho).
  rewrite (deref_Some _ _ _ Ho), bind_Ok.
  destruct (children o) eqn:E; [eauto |].
  unfold node_err_rate.
  destruct (py_min_ok (nsamples o)) as (m & ->); [apply (Hok l o Ho) |].
  rewrite !bind_Ok. unfold children_err_rate.
  destruct (children_err_sum_ok h o (dict_values (children o)) Float64.zero Hok)
    as (q & ->).
  - apply Forall_forall. intros c Hc. apply (Hok l o Ho), Hc.
  - rewrite bind_Ok. destruct (PrimFloat.ltb _ _); eauto.
Qed.

Lemma prune_loop_ok ns : forall h,
  heap_ok h -> Forall (fun l => l < length h) ns ->
  exists h', prune_loop h ns = Ok h'.
Proof.
  induction ns as [|l ns IH]; intros h Hok Hns; simpl; [eauto |].
  apply Forall_cons in Hns as [Hl Hns].
  destruct (prune_step_ok h l Hok Hl) as (h1 & Hs). rewrite Hs, bind_Ok.
  pose proof (prune_step_frame _ _ _ Hs) as Hfr.
  apply IH; [eapply heap_ok_pruned; eauto |].
  destruct Hfr as [Hlen _]. rewrite Hlen. exact Hns.
Qed.

Lemma tree_all_lookup (P : Node -> Prop) h t l o :
  tree_at h t -> tree_all P t -> l ∈ locs t -> h !! l = Some o -> P o.
Proof.
  induction t as [l0 o0 ks IH] using tree_ind'. intros Hat Hall Hin Ho.
  inversion Hat as [l' o' ks' Hl Hkids Hks]; subst.
  inversion Hall as [l' o' ks' HP Halls]; subst.
  simpl in Hin. apply elem_of_cons in Hin as [->|Hin].
  - congruence.
  - apply elem_of_flat_map in Hin as (k & Hk & Hin).
    rewrite Forall_forall in IH, Hks, Halls. eauto.
Qed.

Lemma init_heap_ok fuel data r h :
  DecisionTree_init fuel data = Ok (r, h) -> heap_ok h.
Proof.
  intros Hb.
  apply init_built in Hb as (m & t & -> & Hr & (_ & Hat & _ & Hall) & Hsize & Hlocs).
  intros l o Ho.
  assert (Hin : l ∈ locs t).
  { rewrite Hlocs. apply elem_of_seq. apply lookup_lt_Some in Ho. lia. }
  split.
  - apply (tree_all_lookup _ _ _ _ _ Hat Hall Hin Ho).
  - intros c Hc. unfold dict_values in Hc.
    apply list_elem_of_fmap in Hc as ([v c'] & -> & Hc). simpl.
    eapply tree_at_locs_lt; [exact Hat |].
    eapply locs_closed; eauto.
Qed.

Lemma prune_built_ok fuel data r h :
  DecisionTree_init fuel data = Ok (r, h) ->
  forall n, length h <= n -> exists h', prune n h r = Ok h'.
Proof.
  intros Hb n Hn. pose proof (init_heap_ok _ _ _ _ Hb) as Hok.
  apply init_built in Hb as (m & t & -> & Hr & (_ & Hat & _ & Hall) & Hsize & Hlocs).
  subst r. unfold prune.
  rewrite (nodes_bfs_order h t n Hat) by lia. rewrite bind_Ok.
  apply prune_loop_ok; [exact Hok |].
  apply Forall_forall. intros l Hl.
  apply list_elem_of_In, in_rev, list_elem_of_In in Hl.
  rewrite bfs_order_perm in Hl.
  eapply tree_at_locs_lt; eauto.
Qed.

(** C7. On every built tree [prune] returns, and the store it returns has
    the same objects with the same parent reference, class counts (hence
    their sum), majority class and split attribute; a children mapping is
    either untouched or replaced by the empty mapping. *)
Theorem prune_only_clears_children fuel data r h :
  DecisionTree_init fuel data = Ok (r, h) ->
  exists h',
    prune (length h) h r = Ok h' /\
    length h' = length h /\
    forall l o, h !! l = Some o ->
      exists o', h' !! l = Some o' /\
        parent o' = parent o /\ nsamples o' = nsamples o /\
        py_sum (nsamples o') = py_sum (nsamples o) /\
        cls o' = cls o /\ attr_idx o' = attr_idx o /\
        (children o' = children o \/ children o' = []).
Proof.
  intros Hb.
  destruct (prune_built_ok _ _ _ _ Hb (length h)) as (h' & Hp); [lia |].
  exists h'. split; [exact Hp |].
  destruct (prune_frame _ _ _ _ Hp) as [Hlen Hfr]. split; [exact Hlen |].
  intros l o Ho. destruct (Hfr l o Ho) as (o' & Ho' & Hp' & Hn & Hc & Ha & Hk).
  exists o'. rewrite Hn. auto 10.
Qed.

(** ** Labels and histograms *)

Lemma hist_length Y : Y <> [] -> length (hist Y) = S (Z.to_nat (amax Y)).
Proof.
  destruct Y as [|y Y]; [congruence |]. intros _.
  unfold hist. rewrite length_map, length_seq. reflexivity.
Qed.

Lemma hist_lookup Y c :
  c < length (hist Y) ->
  hist Y !! c = Some (count_occ Z.eq_dec Y (Z.of_nat c)).
Proof.
  destruct Y as [|y Y]; [simpl; lia |].
  unfold hist. rewrite length_map, length_seq. intros Hc.
  rewrite list_lookup_fmap, lookup_seq_lt by exact Hc. reflexivity.
Qed.

Lemma np_bincount_negative Y : ¬ nonneg Y -> np_bincount (IntVec Y) = Raise ValueError.
Proof.
  intros Hn. destruct Y as [|y Y]; [exfalso; apply Hn; constructor |].
  unfold np_bincount. rewrite (existsb_neg_true _ Hn). reflexivity.
Qed.

Lemma np_bincount_Ok_nonneg Y ns : np_bincount (IntVec Y) = Ok ns -> nonneg Y /\ ns = hist Y.
Proof.
  intros Hb.
  assert (Hn : nonneg Y).
  { destruct (existsb (fun y => (y <? 0)%Z) Y) eqn:E.
    - destruct Y as [|y Y]; [constructor |].
      unfold np_bincount in Hb. rewrite E in Hb. discriminate.
    - apply Forall_forall. intros y Hy.
      destruct (Z.ltb_spec y 0) as [Hlt|]; [| assumption].
      assert (existsb (fun y => (y <? 0)%Z) Y = true); [| congruence].
      apply existsb_exists. exists y. split; [apply list_elem_of_In; exact Hy |].
      apply Z.ltb_lt. exact Hlt. }
  split; [exact Hn |]. rewrite (np_bincount_nonneg _ Hn) in Hb. congruence.
Qed.

Lemma entropy_negative Y : ¬ nonneg Y -> entropy (IntVec Y) = Raise ValueError.
Proof. intros Hn. unfold entropy. rewrite (np_bincount_negative _ Hn). reflexivity. Qed.

Lemma build_tree_negative fuel m par h Y :
  column m 0 = Ok Y -> ¬ nonneg Y ->
  _build_tree (S fuel) (IntMat m) par h = Raise ValueError.
Proof.
  intros Hc Hn. rewrite build_tree_unfold. simpl labels.
  rewrite Hc, !bind_Ok, (np_bincount_negative _ Hn). reflexivity.
Qed.

(** The object a call of [_build_tree] returns carries the histogram of the
    labels it was given and the parent it was given. *)
Lemma build_tree_root fuel m par h r h' :
  _build_tree fuel (IntMat m) par h = Ok (r, h') ->
  exists Y o,
    column m 0 = Ok Y /\ nonneg Y /\ Y <> [] /\
    h' !! r = Some o /\ nsamples o = hist Y /\ parent o = par.
Proof.
  destruct fuel as [|fuel]; [discriminate |]. intros Hb.
  pose proof Hb as Hb'. rewrite build_tree_unfold in Hb'.
  inv_bind Hb'. rename a into Yv. inv_bind Hb'. rename a into ns.
  simpl in Ha. inv_bind Ha. rename a into Y. injection Ha as <-.
  apply np_bincount_Ok_nonneg in Ha0 as [Hn ->].
  apply build_tree_inv in Hb as (t & Hr & (ext & -> & Hlocs) & Hat & Hpar & Hall).
  exists Y.
  assert (Hleaf : forall a, Node_init par (hist Y) a h = Ok (r, h ++ ext) ->
            exists o, column m 0 = Ok Y /\ nonneg Y /\ Y <> [] /\
              (h ++ ext) !! r = Some o /\ nsamples o = hist Y /\ parent o = par).
  { intros a Hi. apply Node_init_inv in Hi as (c & Hc & -> & He).
    apply app_inv_head in He. subst ext.
    eexists. split; [exact Ha1 |]. split; [exact Hn |]. split.
    - intros ->. discriminate Hc.
    - rewrite lookup_app_r, Nat.sub_diag by lia. simpl. auto. }
  destruct (distinct Y <=? 1); [eapply Hleaf; eauto |].
  inv_bind Hb'. destruct a as [gain a].
  destruct (PrimFloat.ltb Float64.zero gain); [| eapply Hleaf; eauto].
  inv_bind Hb'. destruct a0 as [this h1].
  apply Node_init_inv in Ha0 as (c & Hc & -> & ->).
  inv_bind Hb'. rename a0 into Xa. inv_bind Hb'. destruct a0 as [kids h2].
  injection Hb' as <- He.
  eapply build_children_inv in Ha2 as (ts & (ext2 & -> & _) & _);
    [| intros p h0 r1 h3 Hb2; apply build_tree_inv in Hb2; exact Hb2].
  rewrite <- app_assoc in He. simpl in He. rewrite assign_children_app in He.
  rewrite <- He.
  eexists. split; [exact Ha1 |]. split; [exact Hn |]. split.
  - intros ->. discriminate Hc.
  - rewrite lookup_app_r, Nat.sub_diag by lia. simpl. auto.
Qed.

(** C9, amended.  Class labels must be non-negative integers; attribute
    values need only be integers.  A negative label makes [entropy] and
    [_build_tree] raise [ValueError], a float array makes them raise
    [TypeError]; and whenever [_build_tree] returns, the labels are
    non-negative and the class counts of the returned node have one slot per
    integer from 0 to the largest label, slot [c] holding the number of
    rows labelled [c] (zero for absent labels). *)
Theorem labels_index_the_histogram fuel m par h Y :
  column m 0 = Ok Y ->
  (¬ nonneg Y ->
     entropy (IntVec Y) = Raise ValueError /\
     _build_tree (S fuel) (IntMat m) par h = Raise ValueError) /\
  (forall l nc rs,
     entropy (FloatVec l) = Raise TypeError /\
     _build_tree (S fuel) (FloatMat (S nc) rs) par h = Raise TypeError) /\
  (forall r h',
     _build_tree (S fuel) (IntMat m) par h = Ok (r, h') ->
     nonneg Y /\
     exists o, h' !! r = Some o /\
       length (nsamples o) = S (Z.to_nat (amax Y)) /\
       forall c, c <= Z.to_nat (amax Y) ->
         nsamples o !! c = Some (count_occ Z.eq_dec Y (Z.of_nat c))).
Proof.
  intros Hc. split; [| split].
  - intros Hn. split; [apply entropy_negative, Hn |].
    eapply build_tree_negative; eauto.
  - intros l nc rs. split; reflexivity.
  - intros r h' Hb.
    apply build_tree_root in Hb as (Y' & o & Hc' & Hn & Hne & Ho & Hns & _).
    assert (Y' = Y) by congruence. subst Y'.
    split; [exact Hn |]. exists o. split; [exact Ho |].
    rewrite Hns, (hist_length _ Hne). split; [reflexivity |].
    intros c Hle. apply hist_lookup. rewrite (hist_length _ Hne). lia.
Qed.

(** Labels 0 and 3 at a node: four slots, the two in between are zero. *)
Lemma histogram_with_gaps : np_bincount (IntVec [0; 3; 3]%Z) = Ok [1; 0; 0; 2].
Proof. reflexivity. Qed.

(** ** [np.unique] and [partition] *)

Lemma insert_uniq_In v l x : In x (insert_uniq v l) <-> x = v \/ In x l.
Proof.
  induction l as [|y l IH]; simpl; [intuition |].
  destruct (Z.ltb_spec v y); [simpl; intuition |].
  destruct (Z.eqb_spec v y); [subst; simpl; intuition |].
  simpl. rewrite IH. intuition.
Qed.

Lemma insert_uniq_sorted v l :
  StronglySorted Z.lt l -> StronglySorted Z.lt (insert_uniq v l).
Proof.
  induction 1 as [|y l Hs IH Hy]; simpl; [repeat constructor |].
  destruct (Z.ltb_spec v y) as [Hlt|Hge].
  - constructor; [constructor; assumption |].
    constructor; [exact Hlt |].
    rewrite List.Forall_forall in Hy |- *. intros z Hz. specialize (Hy z Hz). lia.
  - destruct (Z.eqb_spec v y) as [->|Hne]; [constructor; assumption |].
    constructor; [exact IH |].
    rewrite List.Forall_forall in Hy |- *. intros z Hz.
    apply insert_uniq_In in Hz as [->|Hz]; [lia | auto].
Qed.

Lemma np_unique_sorted Xa : StronglySorted Z.lt (np_unique Xa).
Proof.
  induction Xa as [|x Xa IH]; simpl; [constructor | apply insert_uniq_sorted, IH].
Qed.

Lemma np_unique_In Xa x : In x (np_unique Xa) <-> In x Xa.
Proof.
  induction Xa as [|y Xa IH]; simpl; [reflexivity |].
  rewrite insert_uniq_In, IH. intuition.
Qed.

Lemma sorted_lt_NoDup l : StronglySorted Z.lt l -> List.NoDup l.
Proof.
  induction 1 as [|y l Hs IH Hy]; constructor; [| exact IH].
  intros Hin. rewrite List.Forall_forall in Hy. specialize (Hy y Hin). lia.
Qed.

Lemma np_unique_NoDup Xa : List.NoDup (np_unique Xa).
Proof. apply sorted_lt_NoDup, np_unique_sorted. Qed.

(** The row indices of a part select the labels of its rows. *)
Lemma take_where_select_from Xa : forall Y P v,
  length Xa = length Y ->
  take (P ++ Y) (where_eq_from (length P) Xa v) = select Xa Y v.
Proof.
  induction Xa as [|x Xa IH]; intros Y P v Hlen; [reflexivity |].
  destruct Y as [|y Y]; [discriminate |].
  simpl in Hlen. injection Hlen as Hlen.
  unfold select. simpl.
  specialize (IH Y (P ++ [y]) v Hlen).
  rewrite <- app_assoc, length_app in IH. simpl in IH.
  rewrite Nat.add_1_r in IH.
  destruct (x =? v)%Z; simpl.
  - rewrite IH. f_equal.
    rewrite app_nth2, Nat.sub_diag by lia. reflexivity.
  - exact IH.
Qed.

Lemma take_where_select Xa Y v :
  length Xa = length Y -> take Y (np_where_eq Xa v) = select Xa Y v.
Proof. intros Hlen. apply (take_where_select_from Xa Y [] v Hlen). Qed.

Lemma length_where_eq_from Xa : forall i v,
  length (where_eq_from i Xa v) = count_occ Z.eq_dec Xa v.
Proof.
  induction Xa as [|x Xa IH]; intros i v; [reflexivity |].
  simpl. destruct (Z.eqb_spec x v) as [->|Hne].
  - destruct (Z.eq_dec v v); [| congruence]. simpl. rewrite IH. reflexivity.
  - destruct (Z.eq_dec x v); [congruence |]. apply IH.
Qed.

Lemma length_select Xa : forall Y v,
  length Xa = length Y -> length (select Xa Y v) = count_occ Z.eq_dec Xa v.
Proof.
  intros Y v Hlen. rewrite <- (take_where_select _ _ _ Hlen).
  unfold take. rewrite length_map. apply length_where_eq_from.
Qed.

Lemma select_In Xa Y v y : In y (select Xa Y v) -> In y Y.
Proof.
  unfold select. intros Hin. apply in_map_iff in Hin as ([x y'] & <- & Hin).
  apply filter_In in Hin as [Hin _]. apply in_combine_r in Hin. exact Hin.
Qed.

(** ** Counting arguments *)

Lemma indicator_sum_one (V : list Z) x :
  List.NoDup V -> In x V ->
  list_sum (map (fun v => if (x =? v)%Z then 1 else 0) V) = 1.
Proof.
  induction 1 as [|v V Hnin Hnd IH]; intros Hin; [contradiction |].
  simpl. destruct (Z.eqb_spec x v) as [->|Hne].
  - assert (Hz : list_sum (map (fun v0 => if (v =? v0)%Z then 1 else 0) V) = 0); [| lia].
    clear -Hnin. induction V as [|w V IH]; [reflexivity |].
    simpl. destruct (Z.eqb_spec v w) as [->|_].
    + exfalso. apply Hnin. left. reflexivity.
    + apply IH. intros Hin. apply Hnin. right. exact Hin.
  - destruct Hin as [->|Hin]; [congruence |]. rewrite IH by exact Hin. reflexivity.
Qed.

Lemma list_sum_map_add {A} (f g : A -> nat) l :
  list_sum (map (fun a => f a + g a) l) = list_sum (map f l) + list_sum (map g l).
Proof. induction l as [|a l IH]; simpl; lia. Qed.

Lemma list_sum_map_zero {A} (l : list A) : list_sum (map (fun _ => 0) l) = 0.
Proof. induction l; simpl; lia. Qed.

Lemma list_sum_map_ext {A} (f g : A -> nat) l :
  (forall a, In a l -> f a = g a) -> list_sum (map f l) = list_sum (map g l).
Proof.
  induction l as [|a l IH]; intros He; [reflexivity |].
  simpl. rewrite (He a) by (left; reflexivity).
  rewrite IH; [reflexivity |]. intros b Hb. apply He. right. exact Hb.
Qed.

(** Summed over the distinct attribute values, the joint counts give the
    label counts. *)
Lemma joint_counts_sum V : forall Xa Y k,
  List.NoDup V -> (forall x, In x Xa -> In x V) -> length Xa = length Y ->
  list_sum (map (fun v => cnt (select Xa Y v) k) V) = cnt Y k.
Proof.
  intros Xa. induction Xa as [|x Xa IH]; intros Y k Hnd Hcov Hlen.
  - destruct Y; [| discriminate]. unfold select. simpl. apply list_sum_map_zero.
  - destruct Y as [|y Y]; [discriminate |]. simpl in Hlen. injection Hlen as Hlen.
    assert (Hcov' : forall z, In z Xa -> In z V) by (intros z Hz; apply Hcov; right; exact Hz).
    specialize (IH Y k Hnd Hcov' Hlen).
    rewrite (list_sum_map_ext _
      (fun v => (if (x =? v)%Z then (if Z.eq_dec y (Z.of_nat k) then 1 else 0) else 0)
                + cnt (select Xa Y v) k)).
    + rewrite list_sum_map_add, IH. unfold cnt at 2. simpl.
      destruct (Z.eq_dec y (Z.of_nat k)).
      * rewrite indicator_sum_one; [reflexivity | exact Hnd | apply Hcov; left; reflexivity].
      * rewrite (list_sum_map_ext _ (fun _ => 0)), list_sum_map_zero; [reflexivity |].
        intros v _. destruct (x =? v)%Z; reflexivity.
    + intros v _. unfold select, cnt. simpl.
      destruct (x =? v)%Z; simpl; [| reflexivity].
      destruct (Z.eq_dec y (Z.of_nat k)); reflexivity.
Qed.

Lemma count_sum_values V : forall Xa,
  List.NoDup V -> (forall x, In x Xa -> In x V) ->
  list_sum (map (count_occ Z.eq_dec Xa) V) = length Xa.
Proof.
  intros Xa Hnd. induction Xa as [|x Xa IH]; intros Hcov.
  - simpl. apply list_sum_map_zero.
  - rewrite (list_sum_map_ext _
      (fun v => (if (x =? v)%Z then 1 else 0) + count_occ Z.eq_dec Xa v)).
    + rewrite list_sum_map_add, IH, indicator_sum_one.
      * reflexivity.
      * exact Hnd.
      * apply Hcov. left. reflexivity.
      * intros z Hz. apply Hcov. right. exact Hz.
    + intros v _. simpl.
      destruct (Z.eqb_spec x v), (Z.eq_dec x v); try congruence; reflexivity.
Qed.

Lemma count_sum_range L B :
  (forall y, In y L -> (0 <= y < Z.of_nat B)%Z) ->
  list_sum (map (cnt L) (seq 0 B)) = length L.
Proof.
  intros Hr.
  rewrite <- (count_sum_values (map Z.of_nat (seq 0 B)) L).
  - rewrite map_map. reflexivity.
  - apply Finite.Injective_map_NoDup; [intros a b; apply Nat2Z.inj | apply seq_NoDup].
  - intros y Hy. specialize (Hr y Hy). apply in_map_iff.
    exists (Z.to_nat y). split; [lia |]. apply in_seq. lia.
Qed.

Lemma cnt_beyond L k : (forall y, In y L -> (y < Z.of_nat k)%Z) -> cnt L k = 0.
Proof.
  intros Hr. unfold cnt. apply count_occ_not_In. intros Hin.
  specialize (Hr _ Hin). lia.
Qed.

Lemma cnt_select_le Xa : forall Y v k,
  cnt (select Xa Y v) k <= cnt Y k.
Proof.
  induction Xa as [|x Xa IH]; intros Y v k; [unfold select, cnt; simpl; lia |].
  destruct Y as [|y Y]; [unfold select, cnt; simpl; lia |].
  specialize (IH Y v k). unfold select, cnt in *. simpl.
  destruct (x =? v)%Z; simpl; destruct (Z.eq_dec y (Z.of_nat k)); lia.
Qed.

(** ** The weighted child entropy, value by value *)

Lemma fold_left_map_acc {A B C} (f : C -> B -> C) (g : A -> B) l : forall acc,
  fold_left f (map g l) acc = fold_left (fun s a => f s (g a)) l acc.
Proof. induction l as [|a l IH]; intros acc; simpl; [reflexivity | apply IH]. Qed.

Lemma fold_left_ext_in {A B} (f g : B -> A -> B) l :
  (forall a, In a l -> forall s, f s a = g s a) ->
  forall acc, fold_left f l acc = fold_left g l acc.
Proof.
  induction l as [|a l IH]; intros He acc; [reflexivity |].
  simpl. rewrite (He a (or_introl eq_refl)).
  apply IH. intros b Hb. apply He. right. exact Hb.
Qed.

(** The sum runs over the distinct values of the column in ascending order;
    the part of a value holds the labels of the rows with that value. *)
Lemma cond_entropy_values Y Xa :
  length Xa = length Y ->
  cond_entropy Y Xa =
  fold_left (fun s v =>
               PrimFloat.add s
                 (PrimFloat.mul (rate (count_occ Z.eq_dec Xa v) (length Y))
                                (entropy_val (select Xa Y v))))
            (np_unique Xa) Float64.zero.
Proof.
  intros Hlen. unfold cond_entropy, partition, dict_values.
  rewrite map_map. simpl.
  rewrite (fold_left_map_acc
             (fun acc p =>
                PrimFloat.add acc
                  (PrimFloat.mul (rate (length p) (length Xa)) (entropy_val (take Y p))))).
  apply fold_left_ext_in. intros v _ s.
  rewrite (take_where_select _ _ _ Hlen), Hlen.
  unfold np_where_eq. rewrite length_where_eq_from. reflexivity.
Qed.

(** ** The selection loop of [_best_attribute] *)

Section Selection.
Variable Y : list Z.

Let gain (c : nat * list Z) : float := gain_of Y (snd c).

(** Either no column beats the initial gain, or the result is a column
    that no column exceeds and that no earlier column reaches. *)
Lemma best_fold_spec cols : forall b0 a0,
  (fold_left (best_step Y) cols (b0, a0) = (b0, a0) /\
   forall c, In c cols -> PrimFloat.ltb b0 (gain c) = false) \/
  (exists pre w post,
     cols = pre ++ w :: post /\
     fold_left (best_step Y) cols (b0, a0) = (gain w, (Z.of_nat (fst w) + 1)%Z) /\
     PrimFloat.ltb b0 (gain w) = true /\
     (forall c, In c pre -> PrimFloat.leb (gain w) (gain c) = false) /\
     (forall c, In c post -> PrimFloat.ltb (gain w) (gain c) = false)).
Proof.
  induction cols as [|c cols IH]; intros b0 a0.
  - left. split; [reflexivity | intros c []].
  - assert (Hs : best_step Y (b0, a0) c =
                 if PrimFloat.ltb b0 (gain c)
                 then (gain c, (Z.of_nat (fst c) + 1)%Z) else (b0, a0))
      by reflexivity.
    cbn [fold_left In]. rewrite Hs. clear Hs.
    destruct (PrimFloat.ltb b0 (gain c)) eqn:Hgt.
    + destruct (IH (gain c) (Z.of_nat (fst c) + 1)%Z)
        as [[Heq Hall] | (pre & w & post & -> & Heq & Hb & Hpre & Hpost)].
      * right. exists [], c, cols.
        split; [reflexivity |]. split; [exact Heq |]. split; [exact Hgt |].
        split; [intros x [] | exact Hall].
      * right. exists (c :: pre), w, post.
        split; [reflexivity |]. split; [exact Heq |].
        split; [exact (Binary64.ltb_trans _ _ _ Hgt Hb) |].
        split; [| exact Hpost].
        intros x [<-|Hx]; [apply Binary64.ltb_not_leb, Hb | auto].
    + destruct (IH b0 a0)
        as [[Heq Hall] | (pre & w & post & -> & Heq & Hb & Hpre & Hpost)].
      * left. split; [exact Heq |]. intros x [<-|Hx]; [exact Hgt | auto].
      * right. exists (c :: pre), w, post.
        split; [reflexivity |]. split; [exact Heq |]. split; [exact Hb |].
        split; [| exact Hpost]. intros x [Hx|Hx]; [subst x | auto].
        destruct (PrimFloat.leb (gain w) (gain c)) eqn:E; [| reflexivity].
        rewrite (Binary64.ltb_leb_trans _ _ _ Hb E) in Hgt. discriminate.
Qed.

End Selection.


Lemma attribute_columns_lookup m j c :
  attribute_columns m !! j = Some c ->
  fst c = j /\ j < ncols m - 1 /\
  snd c = map (fun r => nth (S j) r 0%Z) (rows m) /\
  column m (Z.of_nat j + 1) = Ok (snd c).
Proof.
  unfold attribute_columns. rewrite list_lookup_fmap.
  destruct (seq 0 (ncols m - 1) !! j) as [i|] eqn:E; [| discriminate].
  apply lookup_seq in E as [-> Hlt]. simpl. intros [= <-]. simpl.
  split; [reflexivity |]. split; [exact Hlt |]. split; [reflexivity |].
  unfold column, np_axis_index.
  destruct (Z.leb_spec 0 (Z.of_nat j + 1)); [| lia].
  destruct (Z.ltb_spec (Z.of_nat j + 1) (Z.of_nat (ncols m))); [| lia].
  simpl. replace (Z.to_nat (Z.of_nat j + 1)) with (S j) by lia. reflexivity.
Qed.

Lemma column_length m j Xa : column m j = Ok Xa -> length Xa = length (rows m).
Proof.
  unfold column. intros Hc. inv_bind Hc. injection Hc as <-. apply length_map.
Qed.

(** ** Pruning never adds nodes *)

Lemma Forall_exists_Forall2 {A B} (P : A -> B -> Prop) l :
  Forall (fun a => exists b, P a b) l -> exists l', Forall2 P l l'.
Proof.
  induction 1 as [|a l (b & Hb) _ (l' & Hl')]; [exists []; constructor |].
  exists (b :: l'). constructor; assumption.
Qed.

(** A tree in the store is still a tree after some children mappings have
    been emptied: the tree cut at the emptied nodes. *)
Lemma pruned_tree h h' t :
  tree_at h t -> pruned_from h h' ->
  exists t', tree_at h' t' /\ root t' = root t /\ size t' <= size t.
Proof.
  intros Hat [Hlen Hfr]. induction t as [l o ks IH] using tree_ind'.
  inversion Hat as [l' o' ks' Hl Hkids Hks]; subst.
  destruct (Hfr l o Hl) as (o' & Ho' & _ & _ & _ & _ & Hk).
  destruct Hk as [Hk|Hk].
  - assert (Hall : Forall (fun k => exists k',
              tree_at h' k' /\ root k' = root k /\ size k' <= size k) ks).
    { rewrite Forall_forall in IH, Hks |- *. intros k Hin. apply IH; auto. }
    apply Forall_exists_Forall2 in Hall as (ks' & H2).
    exists (T l o' ks'). split; [| split; [reflexivity |]].
    + constructor; [exact Ho' | |].
      * rewrite Hk, Hkids. clear -H2.
        induction H2 as [|k k' ks ks' (_ & Hr & _) _ IH2]; [reflexivity |].
        simpl. rewrite Hr, IH2. reflexivity.
      * clear -H2. induction H2 as [|k k' ks ks' (Ht & _) _ IH2]; constructor; auto.
    + simpl. apply le_n_S. clear -H2.
      induction H2 as [|k k' ks ks' (_ & _ & Hs) _ IH2]; simpl; lia.
  - exists (T l o' []). split; [| split; [reflexivity | simpl; lia]].
    constructor; [exact Ho' | rewrite Hk; reflexivity | constructor].
Qed.

(** On every built tree, [node_count] after [prune] is at most what it was
    before. *)
Lemma prune_node_count_le fuel data r h n h' :
  DecisionTree_init fuel data = Ok (r, h) ->
  prune n h r = Ok h' ->
  exists before after,
    _node_count (length h) h r = Ok before /\
    _node_count (length h) h' r = Ok after /\
    after <= before.
Proof.
  intros Hb Hp. pose proof (prune_frame _ _ _ _ Hp) as Hfr.
  apply init_built in Hb as (m & t & -> & Hr & (_ & Hat & _ & _) & Hsize & _).
  destruct (pruned_tree h h' t Hat Hfr) as (t' & Hat' & Hr' & Hle).
  exists (size t), (size t'). subst r.
  split; [| split; [| exact Hle]].
  - apply node_count_size; [exact Hat |]. pose proof (height_lt_size t). lia.
  - rewrite <- Hr'. apply node_count_size; [exact Hat' |].
    pose proof (height_lt_size t'). lia.
Qed.

(** ** [argmax]: the majority class *)

Lemma argmax_from_spec l : forall pre bi bv,
  bi < length pre -> nth bi pre 0 = bv ->
  (forall j, j < length pre -> nth j pre 0 <= bv) ->
  (forall j, j < bi -> nth j pre 0 < bv) ->
  let r := argmax_from bi bv (length pre) l in
  r < length (pre ++ l) /\
  (forall j, nth j (pre ++ l) 0 <= nth r (pre ++ l) 0) /\
  (forall j, j < r -> nth j (pre ++ l) 0 < nth r (pre ++ l) 0).
Proof.
  induction l as [|x l IH]; intros pre bi bv Hbi Hbv Hall Hfirst; simpl.
  - rewrite app_nil_r, Hbv. split; [exact Hbi |]. split; [| exact Hfirst].
    intros j. destruct (Nat.lt_ge_cases j (length pre)) as [Hj|Hj]; [auto |].
    rewrite nth_overflow by exact Hj. lia.
  - replace (pre ++ x :: l) with ((pre ++ [x]) ++ l) by (rewrite <- app_assoc; reflexivity).
    replace (S (length pre)) with (length (pre ++ [x])) by (rewrite length_app; simpl; lia).
    assert (Hnth : forall j, j < length pre -> nth j (pre ++ [x]) 0 = nth j pre 0)
      by (intros j Hj; apply app_nth1; exact Hj).
    assert (Hlast : nth (length pre) (pre ++ [x]) 0 = x)
      by (rewrite app_nth2, Nat.sub_diag by lia; reflexivity).
    destruct (Nat.ltb_spec bv x) as [Hlt|Hge].
    + apply IH.
      * rewrite length_app. simpl. lia.
      * exact Hlast.
      * intros j Hj. rewrite length_app in Hj. simpl in Hj.
        destruct (Nat.eq_dec j (length pre)) as [->|Hne]; [rewrite Hlast; lia |].
        rewrite Hnth by lia. specialize (Hall j). lia.
      * intros j Hj. rewrite Hnth by exact Hj. specialize (Hall j Hj). lia.
    + apply IH.
      * rewrite length_app. simpl. lia.
      * rewrite Hnth by exact Hbi. exact Hbv.
      * intros j Hj. rewrite length_app in Hj. simpl in Hj.
        destruct (Nat.eq_dec j (length pre)) as [->|Hne]; [rewrite Hlast; lia |].
        rewrite Hnth by lia. apply Hall. lia.
      * intros j Hj. rewrite Hnth by lia. apply Hfirst, Hj.
Qed.

(** The class of a node is the first slot holding the largest count: ties
    go to the lowest class label. *)
Lemma argmax_spec l c :
  argmax l = Ok c ->
  c < length l /\
  (forall j, nth j l 0 <= nth c l 0) /\
  (forall j, j < c -> nth j l 0 < nth c l 0).
Proof.
  destruct l as [|x l]; [discriminate |]. intros [= <-].
  apply (argmax_from_spec l [x] 0 x); simpl; auto; try lia.
  intros j Hj. assert (j = 0) by lia. subst. lia.
Qed.

(** ** [_build_tree] returns on every accepted training set *)

Lemma nth_nil_Z k : nth k (@nil Z) 0%Z = 0%Z.
Proof. destruct k; reflexivity. Qed.

Lemma column_take_rows m j X p :
  column m j = Ok X -> column (take_rows m p) j = Ok (take X p).
Proof.
  unfold column, take_rows, take. simpl. intros Hc. inv_bind Hc.
  rewrite Ha, bind_Ok. injection Hc as <-. f_equal.
  rewrite map_map. apply map_ext. intros i.
  rewrite <- (nth_nil_Z a) at 2.
  rewrite (map_nth (fun r => nth a r 0%Z)). reflexivity.
Qed.

Lemma partition_In Xa v p :
  In (v, p) (partition Xa) -> In v Xa /\ p = np_where_eq Xa v.
Proof.
  unfold partition. intros Hin. apply in_map_iff in Hin as (v' & [= <- <-] & Hv).
  split; [apply np_unique_In; exact Hv | reflexivity].
Qed.

Lemma count_occ_lt_length Xa v :
  Exists (fun x => x <> v) Xa -> count_occ Z.eq_dec Xa v < length Xa.
Proof.
  induction 1 as [x Xa Hx | x Xa _ IH]; simpl.
  - destruct (Z.eq_dec x v); [contradiction |].
    pose proof (count_occ_bound Z.eq_dec v Xa). lia.
  - destruct (Z.eq_dec x v); lia.
Qed.

Lemma np_unique_constant Xa v :
  Forall (fun x => x = v) Xa -> Xa <> [] -> np_unique Xa = [v].
Proof.
  induction 1 as [|x Xa -> Hall IH]; [congruence |]. intros _.
  simpl. destruct Xa as [|y Ya].
  - reflexivity.
  - rewrite IH by discriminate. simpl.
    rewrite Z.ltb_irrefl, Z.eqb_refl. reflexivity.
Qed.

Lemma select_constant Xa : forall Y v,
  Forall (fun x => x = v) Xa -> length Xa = length Y -> select Xa Y v = Y.
Proof.
  induction Xa as [|x Xa IH]; intros Y v Hall Hlen.
  - destruct Y; [reflexivity | discriminate].
  - destruct Y as [|y Y]; [discriminate |].
    apply Forall_cons in Hall as [-> Hall]. injection Hlen as Hlen.
    unfold select in *. simpl. rewrite Z.eqb_refl. simpl.
    rewrite IH by assumption. reflexivity.
Qed.

(** A constant attribute column has no positive gain, whatever [np.log2]
    returns: its only part is the whole of [Y], with weight [n / n]. *)
Lemma gain_constant_column Y Xa v :
  Forall (fun x => x = v) Xa -> length Xa = length Y ->
  PrimFloat.ltb Float64.zero (gain_of Y Xa) = false.
Proof.
  intros Hall Hlen. unfold gain_of.
  destruct (list_eq_nil_dec Xa) as [-> | Hne].
  - destruct Y; [reflexivity | discriminate].
  - rewrite (cond_entropy_values _ _ Hlen), (np_unique_constant _ _ Hall Hne).
    cbn [fold_left]. rewrite (select_constant _ _ _ Hall Hlen).
    rewrite (count_occ_const Xa v v), Hlen.
    + destruct (Z.eq_dec v v); [| congruence].
      apply (Binary64.sub_whole_not_positive (Float64.of_nat (length Y))).
    + intros y Hy. rewrite Forall_forall in Hall.
      apply Hall, list_elem_of_In, Hy.
Qed.

Lemma build_children_ok build m parts :
  (forall v p h, In (v, p) parts ->
     exists r h', build (take_rows m p) h = Ok (r, h')) ->
  forall h, exists kids h', build_children build m parts h = Ok (kids, h').
Proof.
  induction parts as [|[v p] parts IH]; intros Hb h; simpl; [eauto |].
  destruct (Hb v p h (or_introl eq_refl)) as (r & h1 & ->). rewrite bind_Ok.
  destruct (IH (fun v' p' h' Hin => Hb v' p' h' (or_intror Hin)) h1) as (kids & h2 & ->).
  rewrite bind_Ok. eauto.
Qed.

Lemma hist_nonempty Y : Y <> [] -> exists c, argmax (hist Y) = Ok c.
Proof.
  intros Hne. pose proof (hist_length Y Hne) as Hl.
  destruct (hist Y); [discriminate | eexists; reflexivity].
Qed.

(** Every integer training set with a label column, at least one row and
    labels that [np.bincount] accepts is built, given a recursion budget of
    at least its number of rows. *)
Lemma build_tree_ok fuel : forall m par h Y,
  column m 0 = Ok Y -> nonneg Y -> Y <> [] -> length Y <= fuel ->
  exists r h', _build_tree fuel (IntMat m) par h = Ok (r, h').
Proof.
  induction fuel as [|fuel IH]; intros m par h Y Hc Hn Hne Hlen.
  { destruct Y; [congruence | simpl in Hlen; lia]. }
  destruct (hist_nonempty Y Hne) as (c & Hc0).
  destruct (Nat.le_gt_cases (distinct Y) 1) as [Hd|Hd].
  { rewrite (build_tree_leaf fuel m par h Y c); eauto. }
  pose proof (best_attribute_pure m Y Hc Hn) as Hbest.
  destruct (fold_left (best_step Y) (attribute_columns m) (Float64.minus_one, (-1)%Z))
    as [g a] eqn:Hfold.
  destruct (PrimFloat.ltb Float64.zero g) eqn:Hg;
    [| rewrite (build_tree_no_gain fuel m par h Y c g a); eauto].
  destruct (best_fold_spec Y (attribute_columns m) Float64.minus_one (-1)%Z)
    as [[Heq _] | (pre & w & post & Hcols & Heq & _)].
  { rewrite Hfold in Heq. injection Heq as -> _. discriminate Hg. }
  rewrite Hfold in Heq. injection Heq as -> ->.
  assert (Hw : attribute_columns m !! length pre = Some w).
  { rewrite Hcols, lookup_app_r, Nat.sub_diag by lia. reflexivity. }
  apply attribute_columns_lookup in Hw as (Hfst & _ & _ & Hcol).
  rewrite Hfst in *. set (Xa := snd w) in *.
  assert (HlenX : length Xa = length Y).
  { rewrite (column_length _ _ _ Hcol), (column_length _ _ _ Hc). reflexivity. }
  destruct (build_children_ok
              (fun d h' => _build_tree fuel (IntMat d) (Some (length h)) h')
              m (partition Xa)) with
    (h := h ++ [mkNode par (hist Y) c (Some (Z.of_nat (length pre) + 1)%Z) []])
    as (kids & h2 & Hkids).
  - intros v p h0 Hin. apply partition_In in Hin as [Hv ->].
    apply (IH _ _ _ (take Y (np_where_eq Xa v))).
    + apply column_take_rows, Hc.
    + apply take_nonneg, Hn.
    + intros Hnil. apply (f_equal (@length Z)) in Hnil.
      unfold take in Hnil. rewrite length_map in Hnil.
      unfold np_where_eq in Hnil. rewrite length_where_eq_from in Hnil.
      apply (count_occ_In Z.eq_dec) in Hv. simpl in Hnil. lia.
    + unfold take. rewrite length_map. unfold np_where_eq.
      rewrite length_where_eq_from.
      destruct (decide (Forall (fun x => x = v) Xa)) as [Hconst|Hvar].
      * rewrite (gain_constant_column Y Xa v Hconst HlenX) in Hg. discriminate.
      * apply not_Forall_Exists in Hvar; [| intros x; apply _].
        apply count_occ_lt_length in Hvar. lia.
  - eexists _, _. eapply build_tree_split; eauto.
Qed.

(** The same for [DecisionTree(data)]. *)
Lemma init_ok m Y :
  column m 0 = Ok Y -> nonneg Y -> Y <> [] ->
  exists r h, DecisionTree_init (length Y) (IntMat m) = Ok (r, h).
Proof. intros Hc Hn Hne. eapply build_tree_ok; eauto. Qed.

(** ** The decision of [prune] at one node *)

(** An internal node is cleared exactly when the children rate the code
    computed is greater than the node rate it computed. *)
Lemma prune_step_decision h l o ne ce :
  h !! l = Some o -> children o <> [] ->
  node_err_rate o = Ok ne -> children_err_rate h o = Ok ce ->
  prune_step h l =
  Ok (if PrimFloat.ltb ne ce then assign_children l [] h else h).
Proof.
  intros Ho Hc Hne Hce. unfold prune_step.
  rewrite (deref_Some _ _ _ Ho), bind_Ok.
  destruct (children o); [congruence |].
  rewrite Hne, bind_Ok, Hce, bind_Ok.
  destruct (PrimFloat.ltb ne ce); reflexivity.
Qed.

(** On a histogram of exactly two slots [min] is [total - max], so there the
    node rate of the code is the rate the specification words. *)
Lemma node_err_rate_two_slots o a b :
  nsamples o = [a; b] -> node_err_rate o = Ok (spec_node_error_rate o).
Proof.
  intros Hn. unfold node_err_rate, spec_node_error_rate, py_min, py_max, py_sum.
  rewrite Hn. simpl. do 2 f_equal. lia.
Qed.

(** With three classes it is not: counts [5, 3, 2] give 2/10, not 5/10. *)
Lemma node_err_rate_three_slots :
  node_err_rate (mkNode None [5; 3; 2] 0 None []) = Ok (rate 2 10) /\
  spec_node_error_rate (mkNode None [5; 3; 2] 0 None []) = rate 5 10.
Proof. split; reflexivity. Qed.

(** * Further properties of the code *)

(** ** [partition] *)

Lemma where_eq_from_In Xa : forall i v j,
  In j (where_eq_from i Xa v) <-> i <= j /\ Xa !! (j - i) = Some v.
Proof.
  induction Xa as [|x Xa IH]; intros i v j; simpl.
  - split; [intros [] | intros [_ H]; discriminate].
  - assert (Hrest : In j (where_eq_from (S i) Xa v) <->
                    i < j /\ (x :: Xa) !! (j - i) = Some v).
    { rewrite IH. split.
      - intros [Hle Hl]. split; [lia |].
        replace (j - i) with (S (j - S i)) by lia. exact Hl.
      - intros [Hlt Hl]. split; [lia |].
        replace (j - i) with (S (j - S i)) in Hl by lia. exact Hl. }
    destruct (Z.eqb_spec x v) as [->|Hne].
    + simpl. rewrite Hrest. split.
      * intros [<-|[Hlt Hl]]; [rewrite Nat.sub_diag; auto | split; [lia | exact Hl]].
      * intros [Hle Hl]. destruct (Nat.eq_dec i j) as [->|Hij]; [left; reflexivity |].
        right. split; [lia | exact Hl].
    + rewrite Hrest. split.
      * intros [Hlt Hl]. split; [lia | exact Hl].
      * intros [Hle Hl]. split; [| exact Hl].
        destruct (Nat.eq_dec i j) as [->|Hij]; [| lia].
        rewrite Nat.sub_diag in Hl. simpl in Hl. congruence.
Qed.

Lemma where_eq_from_sorted Xa : forall i v,
  StronglySorted lt (where_eq_from i Xa v).
Proof.
  induction Xa as [|x Xa IH]; intros i v; simpl; [constructor |].
  destruct (x =? v)%Z; [| apply IH].
  constructor; [apply IH |].
  apply List.Forall_forall. intros j Hj.
  apply where_eq_from_In in Hj. lia.
Qed.

Lemma partition_keys Xa : map fst (partition Xa) = np_unique Xa.
Proof. unfold partition. rewrite map_map. simpl. apply map_id. Qed.

(** X1. The mapping [partition] returns has as keys exactly the distinct
    values of the column, in strictly ascending order; the part of a key is
    the non-empty ascending list of exactly the row indices holding that
    value, and the parts together have as many indices as the column has
    rows: every row index is in one part and only one. *)
Theorem partition_is_a_partition Xa :
  StronglySorted Z.lt (map fst (partition Xa)) /\
  (forall v, In v (map fst (partition Xa)) <-> In v Xa) /\
  (forall v p, In (v, p) (partition Xa) ->
     p <> [] /\ StronglySorted lt p /\
     forall i, In i p <-> Xa !! i = Some v) /\
  (forall i x, Xa !! i = Some x ->
     exists p, dict_get (partition Xa) x = Some p /\ In i p) /\
  list_sum (map (fun vp => length (snd vp)) (partition Xa)) = length Xa.
Proof.
  rewrite partition_keys.
  split; [apply np_unique_sorted |]. split; [apply np_unique_In |].
  split; [| split].
  - intros v p Hin. apply partition_In in Hin as [Hv ->].
    unfold np_where_eq. split; [| split].
    + intros Hnil. apply (f_equal (@length nat)) in Hnil.
      rewrite length_where_eq_from in Hnil.
      apply (count_occ_In Z.eq_dec) in Hv. simpl in Hnil. lia.
    + apply where_eq_from_sorted.
    + intros i. rewrite where_eq_from_In, Nat.sub_0_r. split; [tauto | split; [lia | tauto]].
  - intros i x Hx. exists (np_where_eq Xa x). split.
    + assert (Hin : In x (np_unique Xa)).
      { apply np_unique_In, list_elem_of_In. eapply list_elem_of_lookup_2; eauto. }
      unfold partition. clear Hx.
      induction (np_unique Xa) as [|k ks IH]; [contradiction |].
      simpl. destruct (Z.eqb_spec k x) as [->|Hne]; [reflexivity |].
      destruct Hin as [->|Hin]; [congruence | auto].
    + unfold np_where_eq. apply where_eq_from_In. rewrite Nat.sub_0_r. split; [lia | exact Hx].
  - unfold partition. rewrite map_map. simpl.
    rewrite (list_sum_map_ext _ (count_occ Z.eq_dec Xa)).
    + apply count_sum_values; [apply np_unique_NoDup |].
      intros x Hx. apply np_unique_In, Hx.
    + intros v _. apply length_where_eq_from.
Qed.

(** ** The training rows behind a built tree *)

Lemma build_children_fitted build par data parts h kids h' :
  (forall v p h0 r h1, In (v, p) parts ->
     build (take_rows data p) h0 = Ok (r, h1) ->
     exists t, root t = r /\ built (ncols data) par h0 t h1 /\
               fitted (take_rows data p) t) ->
  build_children build data parts h = Ok (kids, h') ->
  exists ts,
    extends h h' (flat_map locs ts) /\
    dict_values kids = map root ts /\
    map fst kids = map fst parts /\
    Forall (tree_at h') ts /\
    Forall (parents_ok par) ts /\
    Forall (tree_all (node_ok (ncols data))) ts /\
    Forall2 (fun vp k => fitted (take_rows data (snd vp)) k) parts ts.
Proof.
  revert h kids h'.
  induction parts as [|[v p] parts IH]; intros h kids h' Hbuild H; simpl in H.
  - injection H as <- <-. exists [].
    split; [exists []; rewrite app_nil_r; split; reflexivity |].
    repeat (split; [constructor |]). constructor.
  - inv_bind H. destruct a as [child h1]. inv_bind H. destruct a as [rest h2].
    injection H as <- <-.
    apply (Hbuild v p) in Ha as (t & Hroot & ((e1 & -> & Hl1) & Hat & Hpar & Hall) & Hfit);
      [| left; reflexivity].
    apply IH in Ha0 as (ts & (e2 & -> & Hl2) & Hvals & Hkeys & Hats & Hpars & Halls & Hfits);
      [| intros v' p' h0 r h3 Hin; apply (Hbuild v'); right; exact Hin].
    exists (t :: ts).
    split; [| split; [| split; [| split; [| split; [| split]]]]].
    + exists (e1 ++ e2). split; [symmetry; apply app_assoc |].
      simpl. rewrite Hl1, Hl2, length_app, length_app, seq_app. reflexivity.
    + unfold dict_values in *. simpl. rewrite Hvals, Hroot. reflexivity.
    + simpl. rewrite Hkeys. reflexivity.
    + constructor; [apply tree_at_app; exact Hat | exact Hats].
    + constructor; assumption.
    + constructor; assumption.
    + constructor; assumption.
Qed.

(** What [_best_attribute] returns, in the two cases of its loop. *)
Lemma best_attribute_cases m Y :
  column m 0 = Ok Y -> nonneg Y ->
  (_best_attribute m = Ok (Float64.minus_one, (-1)%Z) /\
   forall c, In c (attribute_columns m) ->
     PrimFloat.ltb Float64.minus_one (gain_of Y (snd c)) = false) \/
  (exists i Xa,
     i < ncols m - 1 /\
     column m (Z.of_nat i + 1) = Ok Xa /\
     In (i, Xa) (attribute_columns m) /\
     _best_attribute m = Ok (gain_of Y Xa, (Z.of_nat i + 1)%Z) /\
     PrimFloat.ltb Float64.minus_one (gain_of Y Xa) = true /\
     forall c, In c (attribute_columns m) ->
       PrimFloat.ltb (gain_of Y Xa) (gain_of Y (snd c)) = false).
Proof.
  intros Hc Hn. rewrite (best_attribute_pure m Y Hc Hn).
  destruct (best_fold_spec Y (attribute_columns m) Float64.minus_one (-1)%Z)
    as [[Heq Hall] | (pre & w & post & Hcols & Heq & Hb & Hpre & Hpost)].
  - left. split; [rewrite Heq; reflexivity | exact Hall].
  - right.
    assert (Hw : attribute_columns m !! length pre = Some w).
    { rewrite Hcols, lookup_app_r, Nat.sub_diag by lia. reflexivity. }
    pose proof (attribute_columns_lookup _ _ _ Hw) as (Hfst & Hlt & _ & Hcol).
    assert (Hin : In w (attribute_columns m)).
    { rewrite Hcols. apply in_elt. }
    destruct w as [i Xa]. simpl in *. subst i.
    exists (length pre), Xa.
    split; [exact Hlt |]. split; [exact Hcol |]. split; [exact Hin |].
    split; [rewrite Heq; reflexivity |]. split; [exact Hb |].
    intros c Hc'. rewrite Hcols in Hc'. apply in_app_or in Hc' as [Hc'|[<-|Hc']].
    + apply Binary64.leb_false_ltb, Hpre, Hc'.
    + apply Binary64.ltb_irrefl.
    + apply Hpost, Hc'.
Qed.

Lemma hist_nil_inv Y : hist Y = [] -> Y = [].
Proof.
  destruct Y as [|y Y]; [reflexivity |]. intros H.
  pose proof (hist_length (y :: Y)) as Hl. rewrite H in Hl.
  simpl in Hl. specialize (Hl ltac:(discriminate)). discriminate.
Qed.

(** The tree [_build_tree] leaves in the store is fitted to its rows. *)
Lemma build_tree_fitted fuel : forall m par h r h',
  _build_tree fuel (IntMat m) par h = Ok (r, h') ->
  exists t, root t = r /\ built (ncols m) par h t h' /\ fitted m t.
Proof.
  induction fuel as [|fuel IH]; intros m par h r h' H; [discriminate |].
  rewrite build_tree_unfold in H.
  inv_bind H. rename a into Y. inv_bind H. rename a into ns.
  destruct Y as [Yz|]; try discriminate.
  assert (Hcol0 : column m 0 = Ok Yz).
  { simpl in Ha. inv_bind Ha. congruence. }
  apply np_bincount_Ok_nonneg in Ha0 as [Hnn ->].
  assert (Hleaf :
            (distinct Yz <= 1 \/
             forall c, In c (attribute_columns m) ->
               PrimFloat.ltb Float64.zero (gain_of Yz (snd c)) = false) ->
            Node_init par (hist Yz) None h = Ok (r, h') ->
            exists t, root t = r /\ built (ncols m) par h t h' /\ fitted m t).
  { intros Hwhy Hn. apply Node_init_inv in Hn as (c & Hc & -> & ->).
    eexists. split; [| split; [apply built_leaf; exact Hc |]]; [reflexivity |].
    eapply fitted_leaf; eauto.
    intros ->. discriminate. }
  destruct (Nat.leb_spec (distinct Yz) 1) as [Hd|Hd];
    [eapply Hleaf; eauto |].
  inv_bind H. destruct a as [gain a].
  destruct (best_attribute_cases m Yz Hcol0 Hnn)
    as [[Hbest Hno] | (i & Xa & Hi & Hcol & Hin & Hbest & Hg0 & Hmax)];
    rewrite Hbest in Ha0; injection Ha0 as <- <-.
  { change (PrimFloat.ltb Float64.zero Float64.minus_one) with false in H.
    eapply Hleaf; [| exact H]. right. intros c Hc.
    apply Binary64.positive_above_minus_one, Hno, Hc. }
  destruct (PrimFloat.ltb Float64.zero (gain_of Yz Xa)) eqn:Hg.
  2:{ eapply Hleaf; [| exact H]. right. intros c Hc.
      destruct (PrimFloat.ltb Float64.zero (gain_of Yz (snd c))) eqn:Hpos;
        [| reflexivity].
      rewrite (Binary64.positive_below _ _
                 (proj2 (Binary64.ltb_comparable _ _ Hg0)) (Hmax c Hc) Hpos) in Hg.
      discriminate. }
  inv_bind H. destruct a as [this h1].
  match goal with
  | Hn : Node_init _ _ _ _ = Ok (this, h1) |- _ =>
      apply Node_init_inv in Hn as (c & Hc & -> & ->)
  end.
  rewrite Hcol, bind_Ok in H.
  inv_bind H. destruct a as [kids h2].
  injection H as <- <-.
  match goal with
  | Hb : build_children _ _ _ _ = Ok _ |- _ =>
      eapply build_children_fitted in Hb
        as (ts & (ext & -> & Hlocs) & Hvals & Hkeys & Hats & Hpars & Halls & Hfits);
        [| intros v p h0 r1 h3 _ Hb'; apply IH in Hb'; exact Hb']
  end.
  rewrite length_app in Hlocs. simpl in Hlocs.
  replace (length h + 1) with (S (length h)) in Hlocs by lia.
  rewrite <- app_assoc. simpl. rewrite assign_children_app.
  eexists. split; [| split; [eapply built_internal; eauto |]]; [reflexivity | |].
  - unfold column in Hcol.
    destruct (np_axis_index (ncols m) (Z.of_nat i + 1)); [reflexivity | discriminate].
  - eapply (fitted_split m Yz (Z.of_nat i + 1)%Z Xa); eauto.
    + intros ->. discriminate.
    + lia.
    + simpl. rewrite Hkeys. apply partition_keys.
    + unfold partition in Hfits.
      apply (proj1 (Forall2_fmap_l (fun v => (v, np_where_eq Xa v)) _ _ _)) in Hfits.
      exact Hfits.
Qed.

(** ** Subtrees *)

Lemma locs_subtree t : forall l, l ∈ locs t -> exists s, subtree s t /\ root s = l.
Proof.
  induction t as [l0 o ks IH] using tree_ind'. intros l Hl. simpl in Hl.
  apply elem_of_cons in Hl as [-> | Hl].
  - exists (T l0 o ks). split; [constructor | reflexivity].
  - apply elem_of_flat_map in Hl as (k & Hk & Hlk).
    rewrite Forall_forall in IH.
    destruct (IH k Hk l Hlk) as (s & Hs & Hr).
    exists s. split; [| exact Hr]. eapply subtree_child; [| exact Hs]. exact Hk.
Qed.

Lemma subtree_locs_incl s t : subtree s t -> forall l, l ∈ locs s -> l ∈ locs t.
Proof.
  induction 1 as [|t k Hk _ IH]; intros l Hl; [exact Hl |].
  eapply subtree_locs; eauto.
Qed.

Lemma subtree_root_locs s t : subtree s t -> root s ∈ locs t.
Proof.
  intros Hs. apply (subtree_locs_incl _ _ Hs). destruct s. simpl. left.
Qed.

Lemma tree_at_subtree h s t : tree_at h t -> subtree s t -> tree_at h s.
Proof.
  intros Hat Hs. induction Hs as [|t k Hk _ IH]; [exact Hat |].
  apply IH. apply tree_at_subtrees in Hat. rewrite Forall_forall in Hat. auto.
Qed.

Lemma tree_all_subtree P s t : tree_all P t -> subtree s t -> tree_all P s.
Proof.
  intros Hall Hs. induction Hs as [|t k Hk _ IH]; [exact Hall |].
  apply IH. destruct Hall as [l o ks _ Hks]. simpl in Hk.
  rewrite Forall_forall in Hks. auto.
Qed.

Lemma subtree_trans s k t : subtree s k -> subtree k t -> subtree s t.
Proof.
  intros Hsk Hkt. induction Hkt as [|t k' Hk' _ IH]; [exact Hsk |].
  eapply subtree_child; eauto.
Qed.

(** Every node of a tree in the store is the root of a subtree whose object
    is the stored one. *)
Lemma lookup_subtree h t l o :
  tree_at h t -> l ∈ locs t -> h !! l = Some o ->
  exists ks, subtree (T l o ks) t /\ tree_at h (T l o ks).
Proof.
  intros Hat Hl Ho. apply locs_subtree in Hl as (s & Hs & Hr).
  pose proof (tree_at_subtree _ _ _ Hat Hs) as Hats.
  destruct s as [l' o' ks]. simpl in Hr. subst l'.
  inversion Hats; subst. assert (o' = o) as -> by congruence.
  eauto.
Qed.

(** Below the root, the parent reference of a subtree is the node that
    holds it. *)
Lemma parents_ok_subtree par s t :
  parents_ok par t -> subtree s t ->
  (s = t /\ parent (obj s) = par) \/
  (exists p, subtree p t /\ s ∈ subtrees p /\ parent (obj s) = Some (root p)).
Proof.
  intros Hp Hs. revert par Hp.
  induction Hs as [|t k Hk Hs IH]; intros par Hp.
  - left. split; [reflexivity |]. destruct Hp. assumption.
  - right. destruct Hp as [par l o ks Hpar Hks]. simpl in Hk.
    rewrite Forall_forall in Hks.
    destruct (IH _ (Hks k Hk)) as [[-> Hpk] | (p & Hpt & Hsp & Hps)].
    + exists (T l o ks). split; [constructor |]. split; [exact Hk | exact Hpk].
    + exists p. split; [| split; assumption].
      eapply subtree_child; [| exact Hpt]. exact Hk.
Qed.

Lemma fitted_subtree m s t :
  fitted m t -> subtree s t ->
  exists m', ncols m' = ncols m /\ fitted m' s.
Proof.
  intros Hf Hs. revert m Hf.
  induction Hs as [|t k Hk _ IH]; intros m Hf; [eauto |].
  inversion Hf; subst; simpl in Hk.
  - apply elem_of_nil in Hk. contradiction.
  - match goal with
    | HF : Forall2 _ (np_unique _) _ |- _ =>
        apply list_elem_of_lookup_1 in Hk as [i Hi];
        destruct (Forall2_lookup_r _ _ _ _ _ HF Hi) as (v & _ & Hfk)
    end.
    destruct (IH _ Hfk) as (m' & Hnc & Hfs).
    exists m'. split; [rewrite Hnc; reflexivity | exact Hfs].
Qed.

Lemma init_fitted fuel m r h :
  DecisionTree_init fuel (IntMat m) = Ok (r, h) ->
  exists t, root t = r /\ built (ncols m) None [] t h /\ fitted m t /\
            locs t = seq 0 (length h).
Proof.
  intros H. apply build_tree_fitted in H as (t & Hr & Hb & Hf).
  exists t. split; [exact Hr |]. split; [exact Hb |]. split; [exact Hf |].
  destruct Hb as ((ext & -> & Hl) & _). simpl. exact Hl.
Qed.

(** Every object of the store of a built tree is a node of the tree. *)
Lemma init_node fuel m r h l o :
  DecisionTree_init fuel (IntMat m) = Ok (r, h) ->
  h !! l = Some o ->
  exists t ks m',
    root t = r /\ built (ncols m) None [] t h /\ fitted m t /\
    subtree (T l o ks) t /\ tree_at h (T l o ks) /\
    ncols m' = ncols m /\ fitted m' (T l o ks).
Proof.
  intros H Ho. apply init_fitted in H as (t & Hr & Hb & Hf & Hlocs).
  pose proof Hb as (_ & Hat & _).
  assert (Hl : l ∈ locs t).
  { rewrite Hlocs. apply elem_of_seq. apply lookup_lt_Some in Ho. lia. }
  destruct (lookup_subtree _ _ _ _ Hat Hl Ho) as (ks & Hs & Hats).
  destruct (fitted_subtree _ _ _ Hf Hs) as (m' & Hnc & Hfs).
  exists t, ks, m'. auto 10.
Qed.

Lemma root_in_locs t : root t ∈ locs t.
Proof. destruct t. simpl. left. Qed.

Lemma NoDup_flat_map_locs_roots ks :
  NoDup (flat_map locs ks) -> NoDup (map root ks).
Proof.
  induction ks as [|k ks IH]; simpl; intros Hnd; [constructor |].
  apply NoDup_app in Hnd as (Hk & Hdisj & Hks).
  constructor; [| apply IH, Hks].
  intros Hin. apply list_elem_of_fmap in Hin as (k' & Hr & Hk').
  apply (Hdisj (root k)); [apply root_in_locs |].
  apply elem_of_flat_map. exists k'. split; [exact Hk' |].
  rewrite Hr. apply root_in_locs.
Qed.

Lemma NoDup_locs_subtree s t : NoDup (locs t) -> subtree s t -> NoDup (locs s).
Proof.
  intros Hnd Hs. induction Hs as [|t k Hk _ IH]; [exact Hnd |].
  apply IH. destruct t as [l o ks]. simpl in *.
  apply NoDup_cons in Hnd as [_ Hnd].
  clear - Hnd Hk. induction ks as [|k' ks IH]; [apply elem_of_nil in Hk; contradiction |].
  simpl in Hnd. apply NoDup_app in Hnd as (Hk' & _ & Hks).
  apply elem_of_cons in Hk as [-> | Hk]; [exact Hk' | auto].
Qed.

Lemma np_unique_short_constant Xa :
  length (np_unique Xa) <= 1 -> exists v, Forall (fun x => x = v) Xa.
Proof.
  intros Hlen. destruct (np_unique Xa) as [|v [|w rest]] eqn:E; simpl in Hlen; [| | lia].
  - exists 0%Z. apply List.Forall_forall. intros x Hx.
    apply np_unique_In in Hx. rewrite E in Hx. destruct Hx.
  - exists v. apply List.Forall_forall. intros x Hx.
    apply np_unique_In in Hx. rewrite E in Hx. destruct Hx as [<-|[]]. reflexivity.
Qed.

Lemma gain_positive_two_values m Y a Xa :
  column m 0 = Ok Y -> column m a = Ok Xa ->
  PrimFloat.ltb Float64.zero (gain_of Y Xa) = true ->
  2 <= length (np_unique Xa).
Proof.
  intros Hc Ha Hg.
  destruct (Nat.le_gt_cases (length (np_unique Xa)) 1) as [Hle|Hgt]; [| lia].
  destruct (np_unique_short_constant Xa Hle) as (v & Hall).
  rewrite (gain_constant_column Y Xa v Hall) in Hg; [discriminate |].
  rewrite (column_length _ _ _ Ha), (column_length _ _ _ Hc). reflexivity.
Qed.

Lemma parents_ok_sub par s t :
  parents_ok par t -> subtree s t -> exists par', parents_ok par' s.
Proof.
  intros Hp Hs. revert par Hp.
  induction Hs as [|t k Hk _ IH]; intros par Hp; [eauto |].
  destruct Hp as [par l o ks _ Hks]. simpl in Hk.
  rewrite Forall_forall in Hks. eauto.
Qed.

Lemma parents_ok_child par l o ks k :
  parents_ok par (T l o ks) -> k ∈ ks -> parent (obj k) = Some l.
Proof.
  intros Hp Hk. inversion Hp as [? ? ? ? _ Hks]; subst.
  rewrite Forall_forall in Hks. specialize (Hks k Hk).
  destruct Hks. assumption.
Qed.

Lemma init_locs fuel m r h l :
  DecisionTree_init fuel (IntMat m) = Ok (r, h) ->
  forall t, built (ncols m) None [] t h -> (l ∈ locs t <-> l < length h).
Proof.
  intros _ t ((ext & -> & Hl) & _). simpl in Hl. rewrite Hl, elem_of_seq.
  simpl. lia.
Qed.

(** X2. Parent references of a built tree are the inverse of the children
    mappings: only the root has no parent, and the parent of any other node
    is the one node whose children mapping holds it. *)
Theorem built_parent_references fuel m r h l o :
  DecisionTree_init fuel (IntMat m) = Ok (r, h) ->
  h !! l = Some o ->
  (parent o = None <-> l = r) /\
  (forall p, parent o = Some p <->
     exists op v, h !! p = Some op /\ (v, l) ∈ children op).
Proof.
  intros Hinit Ho.
  destruct (init_node _ _ _ _ _ _ Hinit Ho)
    as (t & ks & m' & Hr & Hb & _ & Hs & Hats & _).
  pose proof Hb as (_ & Hat & Hpar & _).
  assert (Hroot : h !! r = Some (obj t)).
  { rewrite <- Hr. destruct Hat; assumption. }
  assert (Hup : forall p op v, h !! p = Some op -> (v, l) ∈ children op ->
                  parent o = Some p).
  { intros p op v Hp Hv.
    assert (Hpl : p ∈ locs t).
    { apply (init_locs _ _ _ _ _ Hinit t Hb). eapply lookup_lt_Some; eauto. }
    destruct (lookup_subtree _ _ _ _ Hat Hpl Hp) as (kp & Hsp & Hatp).
    inversion Hatp as [? ? ? _ Hvals Hkids]; subst.
    assert (Hlk : l ∈ map root kp).
    { rewrite <- Hvals. unfold dict_values.
      apply list_elem_of_fmap. exists (v, l). split; [reflexivity | exact Hv]. }
    apply list_elem_of_fmap in Hlk as (k & Hrk & Hk).
    destruct (parents_ok_sub _ _ _ Hpar Hsp) as (par' & Hpp).
    pose proof (parents_ok_child _ _ _ _ _ Hpp Hk) as Hpk.
    rewrite Forall_forall in Hkids. specialize (Hkids k Hk).
    apply tree_at_deref in Hkids. rewrite <- Hrk in Hkids.
    rewrite (deref_Some _ _ _ Ho) in Hkids. injection Hkids as ->. exact Hpk. }
  destruct (parents_ok_subtree _ _ _ Hpar Hs) as [[Heq Hnone] | (p & Hpt & Hsp & Hps)];
    simpl in *.
  - assert (l = r) as -> by (rewrite <- Hr, <- Heq; reflexivity).
    split; [tauto |]. intros p. rewrite Hnone. split; [discriminate |].
    intros (op & v & Hp & Hv). pose proof (Hup _ _ _ Hp Hv). congruence.
  - split.
    + rewrite Hps. split; [discriminate |]. intros ->.
      rewrite Hroot in Ho. injection Ho as <-.
      assert (parent (obj t) = None) by (destruct Hpar; assumption).
      congruence.
    + intros q. split.
      * intros Hq. rewrite Hps in Hq. injection Hq as <-.
        pose proof (tree_at_subtree _ _ _ Hat Hpt) as Hatp.
        exists (obj p).
        assert (Hin : l ∈ dict_values (children (obj p))).
        { rewrite (tree_at_children _ _ Hatp).
          apply list_elem_of_fmap. exists (T l o ks). split; [reflexivity | exact Hsp]. }
        unfold dict_values in Hin. apply list_elem_of_fmap in Hin as ([v c] & -> & Hin).
        exists v. split; [| exact Hin].
        apply tree_at_deref in Hatp. unfold deref in Hatp.
        destruct (h !! root p); congruence.
      * intros (op & v & Hp & Hv). eapply Hup; eauto.
Qed.

(** X3. Every object of a built tree is either a leaf, with an empty
    children mapping and no split attribute, or an internal node that splits
    on an attribute column (never on the label column 0, never out of
    range) and has at least two children, under strictly ascending keys, all
    of them different objects of the store. *)
Theorem built_internal_nodes fuel m r h l o :
  DecisionTree_init fuel (IntMat m) = Ok (r, h) ->
  h !! l = Some o ->
  (children o = [] /\ attr_idx o = None) \/
  (exists a, attr_idx o = Some a /\ (1 <= a < Z.of_nat (ncols m))%Z /\
     2 <= length (children o) /\
     StronglySorted Z.lt (map fst (children o)) /\
     NoDup (dict_values (children o)) /\
     Forall (fun c => c < length h /\ c <> l) (dict_values (children o))).
Proof.
  intros Hinit Ho.
  destruct (init_node _ _ _ _ _ _ Hinit Ho)
    as (t & ks & m' & Hr & Hb & _ & Hs & Hats & Hnc & Hfit).
  assert (Hnd : NoDup (locs (T l o ks))).
  { apply (NoDup_locs_subtree _ t); [| exact Hs].
    destruct Hb as ((ext & -> & Hl) & _). rewrite Hl. apply NoDup_seq. }
  inversion Hfit; subst.
  - left. split; assumption.
  - right. exists a. split; [assumption |]. split; [lia |].
    inversion Hats as [? ? ? _ Hvals Hkids]; subst.
    simpl in Hnd. apply NoDup_cons in Hnd as [Hl Hnd].
    split; [| split; [| split; [| apply Forall_forall; intros c Hc; split]]].
    + rewrite <- (length_map fst).
      match goal with Hk : map fst (children o) = _ |- _ => rewrite Hk end.
      eapply gain_positive_two_values; eauto.
    + match goal with Hk : map fst (children o) = _ |- _ => rewrite Hk end.
      apply np_unique_sorted.
    + rewrite Hvals. apply NoDup_flat_map_locs_roots, Hnd.
    + apply (tree_at_locs_lt h (T l o ks)); [exact Hats |].
      simpl. right. rewrite Hvals in Hc.
      apply list_elem_of_fmap in Hc as (k & -> & Hk).
      apply elem_of_flat_map. exists k. split; [exact Hk | apply root_in_locs].
    + intros ->. apply Hl. rewrite Hvals in Hc.
      apply list_elem_of_fmap in Hc as (k & -> & Hk).
      apply elem_of_flat_map. exists k. split; [exact Hk | apply root_in_locs].
Qed.

(** ** Class counts along a built tree *)

Lemma nonneg_In Y y : nonneg Y -> In y Y -> (0 <= y)%Z.
Proof. unfold nonneg. rewrite List.Forall_forall. auto. Qed.

Lemma hist_nth Y k : nonneg Y -> nth k (hist Y) 0 = cnt Y k.
Proof.
  intros Hn. destruct (list_eq_nil_dec Y) as [-> | Hne].
  { destruct k; reflexivity. }
  destruct (Nat.lt_ge_cases k (length (hist Y))) as [Hlt|Hge].
  - pose proof (hist_lookup Y k Hlt) as Hl.
    apply nth_lookup_Some with (d := 0) in Hl. exact Hl.
  - rewrite nth_overflow by exact Hge. symmetry. apply cnt_beyond.
    intros y Hy. rewrite (hist_length Y Hne) in Hge.
    pose proof (amax_ge Y y Hy). pose proof (nonneg_In Y y Hn Hy). lia.
Qed.

Lemma hist_total Y : nonneg Y -> py_sum (hist Y) = length Y.
Proof.
  intros Hn. rewrite py_sum_list_sum.
  destruct Y as [|y0 Y0] eqn:E; [reflexivity |]. rewrite <- E in *.
  assert (hist Y = map (cnt Y) (seq 0 (S (Z.to_nat (amax Y))))) as ->
    by (rewrite E; reflexivity).
  apply count_sum_range. intros y Hy.
  pose proof (amax_ge Y y Hy). pose proof (nonneg_In Y y Hn Hy). lia.
Qed.

Lemma fitted_root_hist m t :
  fitted m t ->
  exists Y, column m 0 = Ok Y /\ nonneg Y /\ Y <> [] /\ nsamples (obj t) = hist Y.
Proof. intros Hf. inversion Hf; subst; simpl; eauto. Qed.

Lemma Forall2_map_eq {A B C} (f : B -> C) (g : A -> C) l k :
  Forall2 (fun a b => f b = g a) l k -> map f k = map g l.
Proof. induction 1; simpl; congruence. Qed.

(** The histograms of the children of a split node are those of the label
    lists selected by the values of the split column. *)
Lemma fitted_children_hist m Y Xa ks :
  column m 0 = Ok Y -> length Xa = length Y ->
  Forall2 (fun v k => fitted (take_rows m (np_where_eq Xa v)) k) (np_unique Xa) ks ->
  map (fun k => nsamples (obj k)) ks =
  map (fun v => hist (select Xa Y v)) (np_unique Xa).
Proof.
  intros Hc Hlen HF. apply Forall2_map_eq.
  eapply Forall2_impl; [exact HF |]. intros v k Hf. simpl.
  apply fitted_root_hist in Hf as (Y' & Hc' & _ & _ & ->).
  rewrite (column_take_rows _ _ _ _ Hc) in Hc'. injection Hc' as <-.
  rewrite (take_where_select _ _ _ Hlen). reflexivity.
Qed.

Lemma select_nonneg Xa Y v : nonneg Y -> nonneg (select Xa Y v).
Proof.
  intros Hn. apply List.Forall_forall. intros y Hy.
  apply select_In in Hy. eapply nonneg_In; eauto.
Qed.

Lemma tree_at_count_at h ks (f : Node -> nat) :
  Forall (tree_at h) ks ->
  map (fun c => match h !! c with Some o => f o | None => 0 end) (map root ks) =
  map (fun k => f (obj k)) ks.
Proof.
  induction 1 as [|k ks Hk _ IH]; [reflexivity |]. simpl. rewrite IH. f_equal.
  apply tree_at_deref in Hk. unfold deref in Hk.
  destruct (h !! root k); [injection Hk as ->; reflexivity | discriminate].
Qed.

(** X4. The class histograms of a built tree count the training rows: the
    root's histogram is that of all the labels and sums to the number of
    rows; every node has at least one row; and at an internal node each
    class count, and so the total, is the sum of the counts of its children:
    the children split the rows of the node among themselves. *)
Theorem built_counts_add_up fuel m r h :
  DecisionTree_init fuel (IntMat m) = Ok (r, h) ->
  (exists Y o, column m 0 = Ok Y /\ h !! r = Some o /\ nsamples o = hist Y /\
     (forall k, count_at h r k = count_occ Z.eq_dec Y (Z.of_nat k)) /\
     total_at h r = length (rows m)) /\
  forall l o, h !! l = Some o ->
    0 < total_at h l /\
    (children o <> [] ->
     (forall k, count_at h l k =
                list_sum (map (fun c => count_at h c k) (dict_values (children o)))) /\
     total_at h l = list_sum (map (total_at h) (dict_values (children o)))).
Proof.
  intros Hinit. split.
  - pose proof Hinit as Hi. apply init_fitted in Hi as (t & Hr & Hb & Hf & _).
    destruct Hb as (_ & Hat & _).
    apply fitted_root_hist in Hf as (Y & Hc & Hn & Hne & Hh).
    apply tree_at_deref in Hat. rewrite Hr in Hat. unfold deref in Hat.
    destruct (h !! r) as [o|] eqn:Ho; [| discriminate]. injection Hat as ->.
    exists Y, (obj t). split; [exact Hc |]. split; [reflexivity |].
    split; [exact Hh |]. unfold count_at, total_at. rewrite Ho, Hh. split.
    + intros k. apply hist_nth, Hn.
    + rewrite (hist_total _ Hn). apply (column_length _ _ _ Hc).
  - intros l o Ho.
    destruct (init_node _ _ _ _ _ _ Hinit Ho)
      as (t & ks & m' & Hr & Hb & _ & Hs & Hats & Hnc & Hfit).
    pose proof (fitted_root_hist _ _ Hfit) as (Y & Hc & Hn & Hne & Hh).
    simpl in Hh.
    assert (Htot : total_at h l = length Y).
    { unfold total_at. rewrite Ho, Hh. apply hist_total, Hn. }
    assert (Hcnt : forall k, count_at h l k = cnt Y k).
    { intros k. unfold count_at. rewrite Ho, Hh. apply hist_nth, Hn. }
    rewrite Htot. split.
    { destruct Y; [congruence | simpl; lia]. }
    intros Hkids. inversion Hfit; subst; [congruence |].
    match goal with H1 : column m' 0 = Ok ?Y1 |- _ =>
      assert (Y1 = Y) as -> by congruence end.
    assert (Hlen : length Xa = length Y).
    { match goal with H1 : column m' a = Ok Xa |- _ =>
        rewrite (column_length _ _ _ H1), (column_length _ _ _ Hc) end.
      reflexivity. }
    inversion Hats as [? ? ? _ Hvals Hk]; subst.
    match goal with HF : Forall2 _ (np_unique Xa) ks |- _ =>
      pose proof (fitted_children_hist _ _ _ _ Hc Hlen HF) as Hhist end.
    rewrite Hvals. split.
    + intros k. rewrite Hcnt. unfold count_at.
      rewrite (tree_at_count_at h ks (fun o => nth k (nsamples o) 0) Hk).
      rewrite <- (map_map (fun k0 => nsamples (obj k0)) (fun ns => nth k ns 0)).
      rewrite Hhist, map_map.
      rewrite (list_sum_map_ext _ (fun v => cnt (select Xa Y v) k)).
      * symmetry. apply joint_counts_sum; [apply np_unique_NoDup | | exact Hlen].
        intros x Hx. apply np_unique_In, Hx.
      * intros v _. apply hist_nth, select_nonneg, Hn.
    + unfold total_at.
      rewrite (tree_at_count_at h ks (fun o => py_sum (nsamples o)) Hk).
      rewrite <- (map_map (fun k0 => nsamples (obj k0)) py_sum).
      rewrite Hhist, map_map.
      rewrite (list_sum_map_ext _ (count_occ Z.eq_dec Xa)).
      * rewrite <- Hlen. symmetry. apply count_sum_values; [apply np_unique_NoDup |].
        intros x Hx. apply np_unique_In, Hx.
      * intros v _. rewrite (hist_total _ (select_nonneg _ _ _ Hn)).
        apply length_select, Hlen.
Qed.

(** ** Predicting the training rows *)

Lemma np_axis_index_range n a :
  (0 <= a < Z.of_nat n)%Z -> np_axis_index n a = Ok (Z.to_nat a).
Proof.
  intros Ha. unfold np_axis_index.
  destruct (Z.leb_spec 0 a); [| lia].
  destruct (Z.ltb_spec a (Z.of_nat n)); [| lia]. reflexivity.
Qed.

Lemma column_range m a Xa :
  (0 <= a < Z.of_nat (ncols m))%Z -> column m a = Ok Xa ->
  Xa = map (fun r => nth (Z.to_nat a) r 0%Z) (rows m).
Proof.
  intros Ha Hc. unfold column in Hc. rewrite (np_axis_index_range _ _ Ha) in Hc.
  simpl in Hc. congruence.
Qed.

Lemma column_0_ncols m Y : column m 0 = Ok Y -> 0 < ncols m.
Proof.
  unfold column, np_axis_index. destruct (ncols m); [discriminate | lia].
Qed.

Lemma np_index_range x a :
  (0 <= a < Z.of_nat (length x))%Z -> np_index x a = Ok (nth (Z.to_nat a) x 0%Z).
Proof. intros Ha. unfold np_index. rewrite (np_axis_index_range _ _ Ha). reflexivity. Qed.

Lemma dict_get_lookup {V} (d : list (Z * V)) j k v :
  List.NoDup (map fst d) -> map fst d !! j = Some k -> map snd d !! j = Some v ->
  dict_get d k = Some v.
Proof.
  revert j. induction d as [|[k' v'] d IH]; intros j Hnd Hk Hv; [destruct j; discriminate |].
  simpl in *. apply List.NoDup_cons_iff in Hnd as [Hnotin Hnd].
  destruct j as [|j]; simpl in *.
  - injection Hk as ->. injection Hv as ->. rewrite Z.eqb_refl. reflexivity.
  - destruct (Z.eqb_spec k' k) as [->|Hne].
    + exfalso. apply Hnotin. apply list_elem_of_In. eapply list_elem_of_lookup_2; eauto.
    + eapply IH; eauto.
Qed.

(** Rows as numpy has them: every row has [ncols] entries. *)
Lemma take_rows_lookup m p j i x :
  p !! j = Some i -> rows m !! i = Some x -> rows (take_rows m p) !! j = Some x.
Proof.
  intros Hj Hi. unfold take_rows. simpl. rewrite list_lookup_fmap, Hj. simpl.
  f_equal. apply nth_lookup_Some with (d := []) in Hi. exact Hi.
Qed.

Lemma take_rows_wf m Xa v :
  length Xa = length (rows m) ->
  Forall (fun row => length row = ncols m) (rows m) ->
  Forall (fun row => length row = ncols (take_rows m (np_where_eq Xa v)))
         (rows (take_rows m (np_where_eq Xa v))).
Proof.
  intros Hlen Hwf. unfold take_rows. simpl. apply Forall_forall. intros row Hrow.
  apply list_elem_of_fmap in Hrow as (i & -> & Hi).
  apply list_elem_of_In, where_eq_from_In in Hi as [_ Hi]. rewrite Nat.sub_0_r in Hi.
  apply lookup_lt_Some in Hi. rewrite Hlen in Hi.
  rewrite Forall_forall in Hwf. apply Hwf.
  apply list_elem_of_In, nth_In. exact Hi.
Qed.

Lemma fitted_predict h : forall m t,
  fitted m t -> tree_at h t ->
  Forall (fun row => length row = ncols m) (rows m) ->
  forall i x, rows m !! i = Some x ->
  exists leaf o,
    walk h x (root t) leaf /\ leaf ∈ locs t /\ h !! leaf = Some o /\
    children o = [] /\
    (0 <= nth 0 x 0)%Z /\
    0 < nth (Z.to_nat (nth 0 x 0%Z)) (nsamples o) 0 /\
    forall fuel, height t < fuel -> _predict fuel h (root t) x = Ok (cls o).
Proof.
  intros m t Hf. induction Hf as
    [m Y l o Hc Hn Hne Hh Hkids Hattr Hwhy
    |m Y a Xa l o ks Hc Hn Hne Hh Hd Hattr Ha Hca Hg Hmax Hkeys Hfits IH]
    using fitted_ind'; intros Hat Hwf i x Hx.
  - inversion Hat as [? ? ? Hl _ _]; subst.
    pose proof (column_0_ncols _ _ Hc) as Hnc.
    pose proof (column_range m 0 Y ltac:(lia) Hc) as HY. simpl in HY.
    assert (Hy : In (nth 0 x 0%Z) Y).
    { rewrite HY. apply in_map_iff. exists x. split; [reflexivity |].
      apply list_elem_of_In. eapply list_elem_of_lookup_2; eauto. }
    pose proof (nonneg_In _ _ Hn Hy) as Hy0.
    exists l, o. split; [eapply walk_leaf; eauto |]. split; [simpl; left |].
    split; [exact Hl |]. split; [exact Hkids |]. split; [exact Hy0 |]. split.
    + rewrite Hh, (hist_nth _ _ Hn). unfold cnt. rewrite Z2Nat.id by exact Hy0.
      apply (count_occ_In Z.eq_dec). exact Hy.
    + intros [|fuel] Hfuel; [simpl in Hfuel; lia |].
      simpl root. apply (predict_leaf _ _ _ _ _ Hl Hkids).
  - inversion Hat as [? ? ? Hl Hvals Hatk]; subst.
    pose proof (column_range m a Xa ltac:(lia) Hca) as HXa.
    set (v := nth (Z.to_nat a) x 0%Z).
    assert (HXi : Xa !! i = Some v).
    { rewrite HXa, list_lookup_fmap, Hx. reflexivity. }
    assert (Hv : In v (np_unique Xa)).
    { apply np_unique_In, list_elem_of_In. eapply list_elem_of_lookup_2; eauto. }
    apply list_elem_of_In, list_elem_of_lookup_1 in Hv as [j Hj].
    destruct (Forall2_lookup_l _ _ _ _ _ Hfits Hj) as (k & Hk & Hfk).
    destruct (Forall2_lookup_l _ _ _ _ _ IH Hj) as (k' & Hk' & IHk).
    assert (k' = k) as -> by congruence.
    assert (Hki : k ∈ ks) by (eapply list_elem_of_lookup_2; eauto).
    assert (Hatk' : tree_at h k).
    { rewrite Forall_forall in Hatk. auto. }
    assert (Hlen : length Xa = length (rows m)) by (eapply column_length; eauto).
    assert (Hin : In i (np_where_eq Xa v)).
    { apply where_eq_from_In. rewrite Nat.sub_0_r. split; [lia | exact HXi]. }
    apply list_elem_of_In, list_elem_of_lookup_1 in Hin as [i' Hi'].
    destruct (IHk Hatk' (take_rows_wf _ _ _ Hlen Hwf) i' x
                (take_rows_lookup _ _ _ _ _ Hi' Hx))
      as (leaf & ol & Hwalk & Hleaf & Hol & Hempty & Hy0 & Hpos & Hpred).
    assert (Hxlen : length x = ncols m).
    { rewrite Forall_forall in Hwf. apply Hwf. eapply list_elem_of_lookup_2; eauto. }
    assert (Hidx : np_index x a = Ok v).
    { apply np_index_range. rewrite Hxlen. lia. }
    assert (Hget : dict_get (children o) v = Some (root k)).
    { apply (dict_get_lookup _ j).
      - rewrite Hkeys. apply np_unique_NoDup.
      - rewrite Hkeys. exact Hj.
      - unfold dict_values in Hvals. rewrite Hvals, list_lookup_fmap, Hk. reflexivity. }
    assert (Hne' : children o <> []).
    { intros E. rewrite E in Hget. discriminate. }
    exists leaf, ol. split; [eapply walk_descend; eauto |].
    split; [simpl; right; apply elem_of_flat_map; eauto |].
    split; [exact Hol |]. split; [exact Hempty |]. split; [exact Hy0 |].
    split; [exact Hpos |].
    intros [|fuel] Hfuel; [lia |].
    simpl root. rewrite (predict_descend _ _ _ _ _ _ _ _ Hl Hattr Hidx Hget).
    apply Hpred.
    pose proof (height_subtree (T l o ks) k Hki). lia.
Qed.

(** X5. A training row is never sent to the majority-class fallback of an
    internal node.  For every row [x] of the training data (rows as numpy
    has them: [ncols] entries each), the walk of [_predict] from the root
    finds a child for every attribute value it looks up and stops at a
    leaf; that leaf counts at least one training row of the label of [x],
    and the class returned has at least as many rows there.  When the leaf
    is pure, the class returned is the label of [x]. *)
Theorem predict_training_row fuel m r h i x :
  DecisionTree_init fuel (IntMat m) = Ok (r, h) ->
  Forall (fun row => length row = ncols m) (rows m) ->
  rows m !! i = Some x ->
  exists leaf o y,
    np_index x 0 = Ok y /\ (0 <= y)%Z /\
    walk h x r leaf /\ h !! leaf = Some o /\ children o = [] /\
    0 < nth (Z.to_nat y) (nsamples o) 0 <= nth (cls o) (nsamples o) 0 /\
    (forall n, length h <= n -> _predict n h r x = Ok (cls o)) /\
    ((forall k, k <> Z.to_nat y -> nth k (nsamples o) 0 = 0) ->
     cls o = Z.to_nat y).
Proof.
  intros Hinit Hwf Hx.
  pose proof Hinit as Hi. apply init_fitted in Hi as (t & Hr & Hb & Hf & Hlocs).
  pose proof Hb as (_ & Hat & _ & Hall).
  destruct (fitted_predict h m t Hf Hat Hwf i x Hx)
    as (leaf & o & Hwalk & Hleaf & Ho & Hempty & Hy0 & Hpos & Hpred).
  pose proof (tree_all_lookup _ _ _ _ _ Hat Hall Hleaf Ho) as (_ & Hcls & _).
  apply argmax_spec in Hcls as (_ & Hmax & _).
  apply fitted_root_hist in Hf as (Y & Hc & _).
  assert (Hxlen : length x = ncols m).
  { rewrite Forall_forall in Hwf. apply Hwf. eapply list_elem_of_lookup_2; eauto. }
  pose proof (column_0_ncols _ _ Hc) as Hnc.
  exists leaf, o, (nth 0 x 0%Z).
  split; [apply (np_index_range x 0); lia |]. split; [exact Hy0 |].
  rewrite <- Hr. split; [exact Hwalk |]. split; [exact Ho |].
  split; [exact Hempty |]. split; [split; [exact Hpos | apply Hmax] |]. split.
  - intros n Hn. apply Hpred.
    pose proof (height_lt_size t). rewrite size_length_locs, Hlocs, length_seq in H. lia.
  - intros Hpure.
    destruct (Nat.eq_dec (cls o) (Z.to_nat (nth 0 x 0%Z))) as [E|E]; [exact E |].
    specialize (Hmax (Z.to_nat (nth 0 x 0%Z))). rewrite (Hpure _ E) in Hmax. lia.
Qed.

(** ** The height of a built tree *)

Lemma max_succ (l : list nat) :
  l <> [] -> 1 + fold_right Nat.max 0 l = fold_right Nat.max 0 (map S l).
Proof.
  induction l as [|x l IH]; [congruence |]. intros _.
  destruct l as [|y l]; [simpl; lia |].
  specialize (IH ltac:(discriminate)). simpl in *. lia.
Qed.

Lemma height_value h t : forall fuel,
  tree_at h t -> height t < fuel -> _height fuel h (root t) = Ok (height t).
Proof.
  induction t as [l o ks IH] using tree_ind'. intros fuel Ht Hfuel.
  destruct fuel as [|fuel]; [lia |].
  pose proof (tree_at_deref _ _ Ht) as Hd.
  pose proof (tree_at_children _ _ Ht) as Hc.
  pose proof (tree_at_subtrees _ _ Ht) as Hs.
  simpl in Hd, Hc, Hs |- *. rewrite Hd, bind_Ok.
  destruct ks as [|k ks].
  - destruct (children o); [reflexivity | discriminate].
  - destruct (children o) as [|e d] eqn:E; [discriminate |].
    rewrite Hc.
    assert (Hall : Forall (fun k' => _height fuel h (root k') = Ok (height k')) (k :: ks)).
    { rewrite Forall_forall in IH, Hs. apply Forall_forall. intros k' Hk'.
      apply IH; auto.
      pose proof (height_subtree (T l o (k :: ks)) k' Hk'). lia. }
    clear -Hall.
    assert (Hm : map_result (_height fuel h) (map root (k :: ks)) = Ok (map height (k :: ks))).
    { induction Hall as [|k' ks' Hk' _ IHks']; [reflexivity |].
      simpl. rewrite Hk', bind_Ok, IHks'. reflexivity. }
    rewrite Hm, bind_Ok. f_equal.
    rewrite <- (map_map height S). apply max_succ. discriminate.
Qed.

Lemma height_le_bound t n :
  Forall (fun k => S (height k) <= n) (subtrees t) -> height t <= n.
Proof.
  destruct t as [l o ks]. simpl.
  induction 1 as [|k ks Hk _ IH]; simpl; lia.
Qed.

Lemma constant_spec Xa : constant Xa = true <-> exists v, Forall (fun x => x = v) Xa.
Proof.
  unfold constant. rewrite Nat.leb_le. split.
  - apply np_unique_short_constant.
  - intros (v & Hall). destruct (list_eq_nil_dec Xa) as [-> | Hne]; [simpl; lia |].
    rewrite (np_unique_constant _ _ Hall Hne). simpl. lia.
Qed.

Lemma take_constant Xa p :
  Forall (fun i => i < length Xa) p ->
  constant Xa = true -> constant (take Xa p) = true.
Proof.
  intros Hp Hc. apply constant_spec in Hc as (v & Hall). apply constant_spec.
  exists v. unfold take. apply List.Forall_forall. intros x Hx.
  apply in_map_iff in Hx as (i & <- & Hi).
  rewrite List.Forall_forall in Hall. apply Hall.
  apply nth_In. rewrite Forall_forall in Hp. apply Hp, list_elem_of_In, Hi.
Qed.

Lemma take_where_constant Xa v : constant (take Xa (np_where_eq Xa v)) = true.
Proof.
  apply constant_spec. exists v. unfold take. apply List.Forall_forall.
  intros x Hx. apply in_map_iff in Hx as (i & <- & Hi).
  apply where_eq_from_In in Hi as [_ Hi]. rewrite Nat.sub_0_r in Hi.
  apply nth_lookup_Some with (d := 0%Z) in Hi. exact Hi.
Qed.

Lemma where_eq_in_range Xa v : Forall (fun i => i < length Xa) (np_where_eq Xa v).
Proof.
  apply Forall_forall. intros i Hi.
  apply list_elem_of_In, where_eq_from_In in Hi as [_ Hi]. rewrite Nat.sub_0_r in Hi.
  eapply lookup_lt_Some; eauto.
Qed.

Lemma attribute_columns_take_rows m p :
  attribute_columns (take_rows m p) =
  map (fun c => (fst c, take (snd c) p)) (attribute_columns m).
Proof.
  unfold attribute_columns, take_rows, take. simpl. rewrite map_map. simpl.
  apply map_ext. intros i. f_equal. rewrite map_map. apply map_ext. intros j.
  rewrite <- (nth_nil_Z (S i)) at 2.
  rewrite (map_nth (fun r => nth (S i) r 0%Z)). reflexivity.
Qed.

Lemma filter_map_le {A} (f : A -> bool) (g : A -> A) l :
  (forall c, In c l -> f (g c) = true -> f c = true) ->
  length (List.filter f (map g l)) <= length (List.filter f l).
Proof.
  induction l as [|c l IH]; intros Himp; simpl; [lia |].
  specialize (IH (fun c' Hc' => Himp c' (or_intror Hc'))).
  pose proof (Himp c (or_introl eq_refl)) as Hc.
  destruct (f (g c)); [rewrite Hc by reflexivity; simpl; lia |].
  destruct (f c); simpl; lia.
Qed.

Lemma filter_map_lt {A} (f : A -> bool) (g : A -> A) l w :
  (forall c, In c l -> f (g c) = true -> f c = true) ->
  In w l -> f w = true -> f (g w) = false ->
  length (List.filter f (map g l)) < length (List.filter f l).
Proof.
  induction l as [|c l IH]; intros Himp Hin Hw Hgw; [destruct Hin |]. simpl.
  pose proof (filter_map_le f g l (fun c' Hc' => Himp c' (or_intror Hc'))) as Hle.
  destruct Hin as [-> | Hin].
  - rewrite Hw, Hgw. simpl. lia.
  - specialize (IH (fun c' Hc' => Himp c' (or_intror Hc')) Hin Hw Hgw).
    pose proof (Himp c (or_introl eq_refl)) as Hc.
    destruct (f (g c)); [rewrite Hc by reflexivity; simpl; lia |].
    destruct (f c); simpl; lia.
Qed.

Lemma attribute_columns_length m Xa c :
  In c (attribute_columns m) -> column m 0 = Ok Xa -> length (snd c) = length Xa.
Proof.
  intros Hin Hc. apply list_elem_of_In, list_elem_of_lookup_1 in Hin as [j Hj].
  apply attribute_columns_lookup in Hj as (_ & _ & _ & Hcol).
  rewrite (column_length _ _ _ Hcol), (column_length _ _ _ Hc). reflexivity.
Qed.

Lemma attribute_columns_In m a Xa :
  (1 <= a < Z.of_nat (ncols m))%Z -> column m a = Ok Xa ->
  In (Z.to_nat a - 1, Xa) (attribute_columns m).
Proof.
  intros Ha Hc. pose proof (column_range m a Xa ltac:(lia) Hc) as ->.
  unfold attribute_columns. apply in_map_iff. exists (Z.to_nat a - 1). split.
  - replace (S (Z.to_nat a - 1)) with (Z.to_nat a) by lia. reflexivity.
  - apply in_seq. lia.
Qed.

(** Splitting on a column leaves one varying column fewer in every part. *)
Lemma varying_split m Y a Xa v :
  column m 0 = Ok Y ->
  (1 <= a < Z.of_nat (ncols m))%Z -> column m a = Ok Xa ->
  PrimFloat.ltb Float64.zero (gain_of Y Xa) = true ->
  varying (take_rows m (np_where_eq Xa v)) < varying m.
Proof.
  intros Hc Ha Hca Hg. unfold varying. rewrite attribute_columns_take_rows.
  assert (Hlen : length Xa = length Y).
  { rewrite (column_length _ _ _ Hca), (column_length _ _ _ Hc). reflexivity. }
  apply (filter_map_lt (fun c => negb (constant (snd c))) _ _ (Z.to_nat a - 1, Xa)).
  - intros c Hin. simpl. destruct (constant (snd c)) eqn:E; [| reflexivity].
    rewrite take_constant; [discriminate | | exact E].
    rewrite (attribute_columns_length _ _ _ Hin Hc), <- Hlen.
    apply where_eq_in_range.
  - apply attribute_columns_In; assumption.
  - simpl. destruct (constant Xa) eqn:E; [| reflexivity].
    apply constant_spec in E as (w & Hall).
    rewrite (gain_constant_column Y Xa w Hall Hlen) in Hg. discriminate.
  - simpl. rewrite take_where_constant. reflexivity.
Qed.

Lemma varying_le_ncols m : varying m <= ncols m - 1.
Proof.
  unfold varying. etransitivity; [apply List.filter_length_le |].
  unfold attribute_columns. rewrite length_map, length_seq. lia.
Qed.

Lemma fitted_height_varying m t : fitted m t -> height t <= varying m.
Proof.
  intros Hf. induction Hf as
    [m Y l o Hc Hn Hne Hh Hkids Hattr Hwhy
    |m Y a Xa l o ks Hc Hn Hne Hh Hd Hattr Ha Hca Hg Hmax Hkeys Hfits IH]
    using fitted_ind'; [simpl; lia |].
  apply height_le_bound. simpl. apply Forall_forall. intros k Hk.
  apply list_elem_of_lookup_1 in Hk as [j Hj].
  destruct (Forall2_lookup_r _ _ _ _ _ IH Hj) as (v & _ & Hkv).
  pose proof (varying_split m Y a Xa v Hc Ha Hca Hg). lia.
Qed.

Lemma fitted_height_rows m t : fitted m t -> S (height t) <= length (rows m).
Proof.
  intros Hf. induction Hf as
    [m Y l o Hc Hn Hne Hh Hkids Hattr Hwhy
    |m Y a Xa l o ks Hc Hn Hne Hh Hd Hattr Ha Hca Hg Hmax Hkeys Hfits IH]
    using fitted_ind'.
  - simpl. rewrite <- (column_length _ _ _ Hc). destruct Y; [congruence | simpl; lia].
  - enough (height (T l o ks) <= length (rows m) - 1 /\ 0 < length (rows m)) by lia.
    split; [| rewrite <- (column_length _ _ _ Hc); destruct Y; [congruence | simpl; lia]].
    apply height_le_bound. simpl. apply Forall_forall. intros k Hk.
    apply list_elem_of_lookup_1 in Hk as [j Hj].
    destruct (Forall2_lookup_r _ _ _ _ _ IH Hj) as (v & Hv & Hkv).
    unfold take_rows in Hkv. simpl in Hkv. rewrite length_map in Hkv.
    unfold np_where_eq in Hkv. rewrite length_where_eq_from in Hkv.
    rewrite <- (column_length _ _ _ Hca).
    enough (count_occ Z.eq_dec Xa v < length Xa) by lia.
    apply count_occ_lt_length.
    destruct (decide (Forall (fun x => x = v) Xa)) as [Hconst|Hvar].
    + rewrite (gain_constant_column Y Xa v Hconst) in Hg; [discriminate |].
      rewrite (column_length _ _ _ Hca), (column_length _ _ _ Hc). reflexivity.
    + apply not_Forall_Exists in Hvar; [exact Hvar | intros x; apply _].
Qed.

Lemma Forall2_size_sum (g : Z -> nat) vs ks :
  Forall2 (fun v k => S (size k) <= 2 * g v) vs ks ->
  list_sum (map size ks) + length vs <= 2 * list_sum (map g vs).
Proof. induction 1 as [|v k vs ks Hvk _ IH]; simpl; lia. Qed.

Lemma fitted_size_rows m t : fitted m t -> S (size t) <= 2 * length (rows m).
Proof.
  intros Hf. induction Hf as
    [m Y l o Hc Hn Hne Hh Hkids Hattr Hwhy
    |m Y a Xa l o ks Hc Hn Hne Hh Hd Hattr Ha Hca Hg Hmax Hkeys Hfits IH]
    using fitted_ind'.
  - simpl. rewrite <- (column_length _ _ _ Hc). destruct Y; [congruence | simpl; lia].
  - assert (HF : Forall2 (fun v k => S (size k) <= 2 * count_occ Z.eq_dec Xa v)
                   (np_unique Xa) ks).
    { eapply Forall2_impl; [exact IH |]. intros v k Hk. simpl in Hk.
      unfold take_rows in Hk. simpl in Hk. rewrite length_map in Hk.
      unfold np_where_eq in Hk. rewrite length_where_eq_from in Hk. exact Hk. }
    apply Forall2_size_sum in HF.
    rewrite count_sum_values in HF;
      [| apply np_unique_NoDup | intros x Hx; apply np_unique_In, Hx].
    pose proof (gain_positive_two_values m Y a Xa Hc Hca Hg).
    rewrite (column_length _ _ _ Hca) in HF. simpl. lia.
Qed.

(** X6. Bounds on a built tree.  [height()] is at most the number of
    attribute columns, because no attribute is tested twice on a path, and
    less than the number of rows; [node_count()] is the number of objects
    allocated and less than twice the number of rows; the height is less
    than the node count, and the tree is a single leaf exactly when its
    height is 0. *)
Theorem built_height_and_count fuel m r h :
  DecisionTree_init fuel (IntMat m) = Ok (r, h) ->
  exists H N,
    (forall n, length h <= n -> _height n h r = Ok H) /\
    (forall n, length h <= n -> _node_count n h r = Ok N) /\
    H <= ncols m - 1 /\ H < length (rows m) /\
    N = length h /\ N < 2 * length (rows m) /\
    H < N /\ (H = 0 <-> N = 1).
Proof.
  intros Hinit. apply init_fitted in Hinit as (t & Hr & Hb & Hf & Hlocs).
  destruct Hb as (_ & Hat & _).
  assert (Hsize : size t = length h).
  { rewrite size_length_locs, Hlocs. apply length_seq. }
  pose proof (height_lt_size t) as Hlt.
  exists (height t), (size t). rewrite <- Hr.
  split; [intros n Hn; apply height_value; [exact Hat | lia] |].
  split; [intros n Hn; apply node_count_size; [exact Hat | lia] |].
  split; [pose proof (fitted_height_varying _ _ Hf);
          pose proof (varying_le_ncols m); lia |].
  split; [pose proof (fitted_height_rows _ _ Hf); lia |].
  split; [exact Hsize |].
  split; [pose proof (fitted_size_rows _ _ Hf); lia |].
  split; [exact Hlt |].
  destruct t as [l o [|k ks]]; simpl; [tauto |].
  split; [lia |]. pose proof (height_lt_size k). lia.
Qed.

(** ** The recursion depth of [_build_tree] *)

Lemma build_tree_ok_varying fuel : forall m par h Y,
  column m 0 = Ok Y -> nonneg Y -> Y <> [] -> varying m < fuel ->
  exists r h', _build_tree fuel (IntMat m) par h = Ok (r, h').
Proof.
  induction fuel as [|fuel IH]; intros m par h Y Hc Hn Hne Hlen; [lia |].
  destruct (hist_nonempty Y Hne) as (c & Hc0).
  destruct (Nat.le_gt_cases (distinct Y) 1) as [Hd|Hd].
  { rewrite (build_tree_leaf fuel m par h Y c); eauto. }
  destruct (best_attribute_cases m Y Hc Hn)
    as [[Hbest _] | (i & Xa & Hi & Hcol & Hin & Hbest & Hg0 & Hmax)].
  { rewrite (build_tree_no_gain fuel m par h Y c _ _ Hc Hn Hd Hbest); eauto. }
  destruct (PrimFloat.ltb Float64.zero (gain_of Y Xa)) eqn:Hg;
    [| rewrite (build_tree_no_gain fuel m par h Y c _ _ Hc Hn Hd Hbest); eauto].
  assert (HlenX : length Xa = length Y).
  { rewrite (column_length _ _ _ Hcol), (column_length _ _ _ Hc). reflexivity. }
  destruct (build_children_ok
              (fun d h' => _build_tree fuel (IntMat d) (Some (length h)) h')
              m (partition Xa)) with
    (h := h ++ [mkNode par (hist Y) c (Some (Z.of_nat i + 1)%Z) []])
    as (kids & h2 & Hkids).
  - intros v p h0 Hinp. apply partition_In in Hinp as [Hv ->].
    apply (IH _ _ _ (take Y (np_where_eq Xa v))).
    + apply column_take_rows, Hc.
    + apply take_nonneg, Hn.
    + intros Hnil. apply (f_equal (@length Z)) in Hnil.
      unfold take in Hnil. rewrite length_map in Hnil.
      unfold np_where_eq in Hnil. rewrite length_where_eq_from in Hnil.
      apply (count_occ_In Z.eq_dec) in Hv. simpl in Hnil. lia.
    + pose proof (varying_split m Y (Z.of_nat i + 1)%Z Xa v Hc ltac:(lia) Hcol Hg).
      lia.
  - eexists _, _. eapply build_tree_split; eauto.
Qed.

(** X7. [_build_tree] returns exactly on the integer training sets that
    have a label column with at least one row and no negative label, as
    soon as the recursion budget reaches the number of columns or the
    number of rows: the recursion is never deeper than either. *)
Theorem build_tree_returns_iff fuel m par h :
  Nat.min (ncols m) (length (rows m)) <= fuel ->
  (is_ok (_build_tree fuel (IntMat m) par h) = true <->
   exists Y, column m 0 = Ok Y /\ nonneg Y /\ Y <> []).
Proof.
  intros Hfuel. split.
  - destruct (_build_tree fuel (IntMat m) par h) as [[r h']|e] eqn:E; [| discriminate].
    intros _. apply build_tree_root in E as (Y & o & Hc & Hn & Hne & _). eauto.
  - intros (Y & Hc & Hn & Hne).
    assert (Hok : exists r h', _build_tree fuel (IntMat m) par h = Ok (r, h')).
    { destruct (Nat.le_gt_cases (ncols m) fuel) as [Hle|Hgt].
      - apply (build_tree_ok_varying fuel m par h Y Hc Hn Hne).
        pose proof (varying_le_ncols m). pose proof (column_0_ncols _ _ Hc). lia.
      - apply (build_tree_ok fuel m par h Y Hc Hn Hne).
        rewrite (column_length _ _ _ Hc). lia. }
    destruct Hok as (r & h' & ->). reflexivity.
Qed.

(** ** [prune], node by node *)

Lemma prune_step_pruned_object h l o :
  h !! l = Some o ->
  prune_step h l = (o' ← pruned_object h o; Ok (<[l := o']> h)).
Proof.
  intros Ho. unfold prune_step, pruned_object.
  rewrite (deref_Some _ _ _ Ho), bind_Ok.
  destruct (children o) eqn:E.
  - rewrite bind_Ok, list_insert_id by exact Ho. reflexivity.
  - destruct (node_err_rate o) as [ne|e]; [| reflexivity]. rewrite !bind_Ok.
    destruct (children_err_rate h o) as [ce|e]; [| reflexivity]. rewrite !bind_Ok.
    destruct (PrimFloat.ltb ne ce).
    + unfold assign_children. rewrite Ho. reflexivity.
    + rewrite list_insert_id by exact Ho. reflexivity.
Qed.

Lemma pruned_from_lookup_None h h' l : pruned_from h h' -> h !! l = None -> h' !! l = None.
Proof.
  intros [Hlen _] Hn. apply lookup_ge_None in Hn. apply lookup_ge_None. lia.
Qed.

Lemma children_err_sum_pruned h h' o : forall kids acc,
  pruned_from h h' ->
  children_err_sum h' o kids acc = children_err_sum h o kids acc.
Proof.
  induction kids as [|k kids IH]; intros acc Hfr; [reflexivity |]. simpl.
  unfold deref. destruct (h !! k) as [c|] eqn:Hk.
  - destruct Hfr as [Hlen Hobj]. destruct (Hobj k c Hk) as (c' & -> & _ & Hn & _).
    rewrite !bind_Ok, Hn. destruct (py_min (nsamples c)); [| reflexivity].
    rewrite !bind_Ok. apply IH. split; assumption.
  - rewrite (pruned_from_lookup_None _ _ _ Hfr Hk). reflexivity.
Qed.

Lemma pruned_object_pruned h h' o :
  pruned_from h h' -> pruned_object h' o = pruned_object h o.
Proof.
  intros Hfr. unfold pruned_object, children_err_rate.
  destruct (children o); [reflexivity |].
  rewrite (children_err_sum_pruned _ _ _ _ _ Hfr). reflexivity.
Qed.

Lemma pruned_object_idem h o o' :
  pruned_object h o = Ok o' -> pruned_object h o' = Ok o'.
Proof.
  unfold pruned_object. destruct (children o) eqn:E.
  - intros [= <-]. rewrite E. reflexivity.
  - intros Hp. inv_bind Hp. inv_bind Hp. injection Hp as <-.
    destruct (PrimFloat.ltb a a0) eqn:Hlt; [reflexivity |].
    rewrite E. rewrite Ha, bind_Ok. rewrite Ha0, bind_Ok. rewrite Hlt. reflexivity.
Qed.

Lemma pruned_object_same h o o' : pruned_object h o = Ok o' -> same_but_children o o'.
Proof.
  unfold pruned_object. destruct (children o) eqn:E.
  - intros [= <-]. apply same_but_children_refl.
  - intros Hp. inv_bind Hp. inv_bind Hp. injection Hp as <-.
    destruct (PrimFloat.ltb a a0); [| apply same_but_children_refl].
    unfold same_but_children. simpl. auto 6.
Qed.

(** Running the loop body over a list of distinct nodes applies to each of
    them the decision taken on the store the loop started from. *)
Lemma prune_loop_spec h0 : forall ns h h',
  NoDup ns -> pruned_from h0 h ->
  (forall l, l ∈ ns -> h !! l = h0 !! l) ->
  prune_loop h ns = Ok h' ->
  (forall l o, l ∈ ns -> h0 !! l = Some o ->
     exists o', pruned_object h0 o = Ok o' /\ h' !! l = Some o') /\
  (forall l, l ∉ ns -> h' !! l = h !! l).
Proof.
  induction ns as [|n ns IH]; intros h h' Hnd Hfr Hsame Hp; simpl in Hp.
  - injection Hp as <-. split; [| reflexivity].
    intros l o Hl. apply elem_of_nil in Hl. contradiction.
  - apply NoDup_cons in Hnd as [Hn Hnd]. inv_bind Hp. rename a into h1.
    pose proof (Hsame n ltac:(left)) as Hn0.
    destruct (h0 !! n) as [o|] eqn:Ho0.
    2:{ unfold prune_step, deref in Ha. rewrite Hn0 in Ha. discriminate. }
    rewrite (prune_step_pruned_object _ _ _ Hn0) in Ha.
    rewrite (pruned_object_pruned _ _ _ Hfr) in Ha.
    inv_bind Ha. rename a into o'. injection Ha as <-.
    assert (Hfr1 : pruned_from h0 (<[n := o']> h)).
    { destruct Hfr as [Hlen Hobj]. split; [rewrite length_insert; exact Hlen |].
      intros l ol Hl. destruct (decide (n = l)) as [<-|Hne].
      - rewrite list_lookup_insert_eq by (eapply lookup_lt_Some; eauto).
        exists o'. split; [reflexivity |].
        assert (ol = o) as -> by congruence.
        eapply pruned_object_same; eauto.
      - rewrite list_lookup_insert_ne by exact Hne. auto. }
    assert (Hsame1 : forall l, l ∈ ns -> <[n := o']> h !! l = h0 !! l).
    { intros l Hl. rewrite list_lookup_insert_ne by (intros ->; contradiction).
      apply Hsame. right. exact Hl. }
    destruct (IH _ _ Hnd Hfr1 Hsame1 Hp) as [Hin Hout].
    split.
    + intros l ol Hl Hol. apply elem_of_cons in Hl as [-> | Hl]; [| eauto].
      assert (ol = o) as -> by congruence.
      exists o'. split; [assumption |]. rewrite (Hout _ Hn).
      apply list_lookup_insert_eq. eapply lookup_lt_Some; eauto.
    + intros l Hl. rewrite not_elem_of_cons in Hl. destruct Hl as [Hne Hl].
      rewrite (Hout _ Hl). apply list_lookup_insert_ne. congruence.
Qed.

Lemma prune_loop_perm h ns ns' h1 h2 :
  NoDup ns -> ns ≡ₚ ns' ->
  prune_loop h ns = Ok h1 -> prune_loop h ns' = Ok h2 -> h1 = h2.
Proof.
  intros Hnd Hperm H1 H2.
  assert (Hnd' : NoDup ns') by (rewrite <- Hperm; exact Hnd).
  destruct (prune_loop_spec h ns h h1 Hnd (pruned_from_refl h) (fun _ _ => eq_refl) H1)
    as [Hin1 Hout1].
  destruct (prune_loop_spec h ns' h h2 Hnd' (pruned_from_refl h) (fun _ _ => eq_refl) H2)
    as [Hin2 Hout2].
  apply list_eq. intros l.
  destruct (decide (l ∈ ns)) as [Hl|Hl].
  - destruct (h !! l) as [o|] eqn:Ho.
    + destruct (Hin1 l o Hl Ho) as (o1 & Hp1 & ->).
      destruct (Hin2 l o ltac:(rewrite <- Hperm; exact Hl) Ho) as (o2 & Hp2 & ->).
      congruence.
    + rewrite (pruned_from_lookup_None _ _ _ (prune_loop_frame _ _ _ H1) Ho).
      rewrite (pruned_from_lookup_None _ _ _ (prune_loop_frame _ _ _ H2) Ho).
      reflexivity.
  - rewrite (Hout1 _ Hl), (Hout2 l); [reflexivity |]. rewrite <- Hperm. exact Hl.
Qed.

Lemma prune_loop_id h ns :
  (forall l, l ∈ ns -> prune_step h l = Ok h) -> prune_loop h ns = Ok h.
Proof.
  induction ns as [|n ns IH]; intros Hid; [reflexivity |]. simpl.
  rewrite (Hid n ltac:(left)), bind_Ok. apply IH. intros l Hl. apply Hid. right. exact Hl.
Qed.

(** The tree cut at the emptied nodes, with what it keeps of the tree it
    was cut from. *)
Lemma pruned_tree_ok nc h h' t :
  tree_at h t -> pruned_from h h' -> tree_all (node_ok nc) t ->
  exists t',
    tree_at h' t' /\ root t' = root t /\ size t' <= size t /\
    height t' <= height t /\ tree_all (node_ok nc) t' /\
    (forall l, l ∈ locs t' -> l ∈ locs t).
Proof.
  intros Hat [Hlen Hfr]. induction t as [l o ks IH] using tree_ind'. intros Hall.
  inversion Hat as [l' o' ks' Hl Hkids Hks]; subst.
  inversion Hall as [l' o' ks' Hok Halls]; subst.
  destruct (Hfr l o Hl) as (o' & Ho' & Hpar & Hns & Hcls & Hattr & Hk).
  assert (Hok' : node_ok nc o').
  { destruct Hok as (H1 & H2 & H3). unfold node_ok. rewrite Hns, Hcls, Hattr.
    split; [exact H1 |]. split; [exact H2 |].
    intros Hne. apply H3. destruct Hk as [Hk|Hk]; congruence. }
  destruct Hk as [Hk|Hk].
  - assert (HallE : Forall (fun k => exists k',
              tree_at h' k' /\ root k' = root k /\ size k' <= size k /\
              height k' <= height k /\ tree_all (node_ok nc) k' /\
              (forall l, l ∈ locs k' -> l ∈ locs k)) ks).
    { rewrite Forall_forall in IH, Hks, Halls |- *. intros k Hin. apply IH; auto. }
    apply Forall_exists_Forall2 in HallE as (ks' & H2).
    exists (T l o' ks').
    split; [| split; [reflexivity | split; [| split; [| split]]]].
    + constructor; [exact Ho' | |].
      * rewrite Hk, Hkids. clear -H2.
        induction H2 as [|k k' ks ks' (_ & Hr & _) _ IH2]; [reflexivity |].
        simpl. rewrite Hr, IH2. reflexivity.
      * clear -H2. induction H2 as [|k k' ks ks' (Ht & _) _ IH2]; constructor; auto.
    + simpl. apply le_n_S. clear -H2.
      induction H2 as [|k k' ks ks' (_ & _ & Hs & _) _ IH2]; simpl; lia.
    + simpl. clear -H2.
      induction H2 as [|k k' ks ks' (_ & _ & _ & Hh & _) _ IH2]; simpl; lia.
    + constructor; [exact Hok' |]. clear -H2.
      induction H2 as [|k k' ks ks' (_ & _ & _ & _ & Ha & _) _ IH2]; constructor; auto.
    + intros l0 Hl0. simpl in Hl0 |- *. apply elem_of_cons in Hl0 as [-> | Hl0]; [left |].
      right. clear -H2 Hl0.
      induction H2 as [|k k' ks ks' (_ & _ & _ & _ & _ & Hi) _ IH2]; [exact Hl0 |].
      simpl in *. apply elem_of_app in Hl0 as [Hl0|Hl0]; apply elem_of_app; auto.
  - exists (T l o' []).
    split; [| split; [reflexivity | split; [simpl; lia | split; [simpl; lia | split]]]].
    + constructor; [exact Ho' | rewrite Hk; reflexivity | constructor].
    + constructor; [exact Hok' | constructor].
    + intros l0 Hl0. simpl in Hl0. apply list_elem_of_singleton in Hl0 as ->. simpl. left.
Qed.

Lemma rev_perm {A} (l : list A) : rev l ≡ₚ l.
Proof. symmetry. apply Permutation_rev. Qed.

Lemma init_nodes fuel data r h :
  DecisionTree_init fuel data = Ok (r, h) ->
  exists m t, data = IntMat m /\ root t = r /\ built (ncols m) None [] t h /\
    (forall n, length h <= n -> nodes n h r = Ok (bfs_order t)) /\
    bfs_order t ≡ₚ seq 0 (length h).
Proof.
  intros Hb.
  apply init_built in Hb as (m & t & -> & Hr & Hbuilt & Hsize & Hlocs).
  exists m, t. split; [reflexivity |]. split; [exact Hr |]. split; [exact Hbuilt |].
  destruct Hbuilt as (_ & Hat & _). split.
  - intros n Hn. rewrite <- Hr. apply nodes_bfs_order; [exact Hat | lia].
  - rewrite bfs_order_perm, Hlocs. reflexivity.
Qed.

(** X8. On a built tree, what [prune] does to a node is decided on the
    tree as it was before pruning: the store it returns holds, at every
    node, the object that the loop body makes of the original object with
    the rates read off the original store.  Emptying the children mapping
    of a node changes the decision at no other node. *)
Theorem prune_decides_on_original fuel data r h :
  DecisionTree_init fuel data = Ok (r, h) ->
  exists h',
    prune (length h) h r = Ok h' /\ length h' = length h /\
    forall l o, h !! l = Some o ->
      exists o', pruned_object h o = Ok o' /\ h' !! l = Some o'.
Proof.
  intros Hb.
  destruct (prune_built_ok _ _ _ _ Hb (length h)) as (h' & Hp); [lia |].
  exists h'. split; [exact Hp |].
  split; [apply (prune_frame _ _ _ _ Hp) |].
  apply init_nodes in Hb as (m & t & _ & _ & _ & Hnodes & Hperm).
  unfold prune in Hp. rewrite Hnodes, bind_Ok in Hp by lia.
  assert (Hnd : NoDup (rev (bfs_order t))).
  { rewrite rev_perm, Hperm. apply NoDup_seq. }
  destruct (prune_loop_spec h _ h h' Hnd (pruned_from_refl h) (fun _ _ => eq_refl) Hp)
    as [Hin _].
  intros l o Ho. apply Hin; [| exact Ho].
  rewrite rev_perm, Hperm. apply elem_of_seq.
  apply lookup_lt_Some in Ho. lia.
Qed.

(** X9. The order in which [prune] visits the nodes does not matter: the
    loop body run over any enumeration of the nodes of a built tree returns
    the store that [prune] returns with its reversed breadth-first order. *)
Theorem prune_order_irrelevant fuel data r h order :
  DecisionTree_init fuel data = Ok (r, h) ->
  order ≡ₚ seq 0 (length h) ->
  prune_loop h order = prune (length h) h r.
Proof.
  intros Hb Horder.
  destruct (prune_built_ok _ _ _ _ Hb (length h)) as (h' & Hp); [lia |].
  rewrite Hp.
  pose proof (init_heap_ok _ _ _ _ Hb) as Hok.
  destruct (prune_loop_ok order h Hok) as (h2 & H2).
  { apply Forall_forall. intros l Hl. rewrite Horder in Hl.
    apply elem_of_seq in Hl. lia. }
  rewrite H2. f_equal.
  apply init_nodes in Hb as (m & t & _ & _ & _ & Hnodes & Hperm).
  unfold prune in Hp. rewrite Hnodes, bind_Ok in Hp by lia.
  apply (prune_loop_perm h order (rev (bfs_order t))); [| | exact H2 | exact Hp].
  - rewrite Horder. apply NoDup_seq.
  - rewrite rev_perm, Hperm. exact Horder.
Qed.

(** X10. [prune] is idempotent on built trees: pruning the pruned tree
    again changes nothing. *)
Theorem prune_idempotent fuel data r h n h' :
  DecisionTree_init fuel data = Ok (r, h) ->
  length h <= n ->
  prune n h r = Ok h' ->
  prune n h' r = Ok h'.
Proof.
  intros Hb Hn Hp.
  pose proof (prune_frame _ _ _ _ Hp) as Hfr.
  assert (Hall : forall l o, h !! l = Some o ->
            exists o', pruned_object h o = Ok o' /\ h' !! l = Some o').
  { apply init_nodes in Hb as (m & t & _ & _ & _ & Hnodes & Hperm).
    unfold prune in Hp. rewrite Hnodes, bind_Ok in Hp by lia.
    assert (Hnd : NoDup (rev (bfs_order t))).
    { rewrite rev_perm, Hperm. apply NoDup_seq. }
    destruct (prune_loop_spec h _ h h' Hnd (pruned_from_refl h) (fun _ _ => eq_refl) Hp)
      as [Hin _].
    intros l o Ho. apply Hin; [| exact Ho].
    rewrite rev_perm, Hperm. apply elem_of_seq.
    apply lookup_lt_Some in Ho. lia. }
  apply init_built in Hb as (m & t & -> & Hr & (_ & Hat & _ & Hok) & Hsize & Hlocs).
  destruct (pruned_tree_ok _ h h' t Hat Hfr Hok)
    as (t' & Hat' & Hr' & Hsz & _ & _ & Hincl).
  unfold prune. rewrite <- Hr, <- Hr'.
  rewrite (nodes_bfs_order h' t' n Hat') by lia. rewrite bind_Ok.
  apply prune_loop_id. intros l Hl.
  rewrite rev_perm, bfs_order_perm in Hl.
  pose proof (tree_at_locs_lt _ _ _ Hat (Hincl _ Hl)) as Hlt.
  destruct (lookup_lt_is_Some_2 h l Hlt) as (o & Ho).
  destruct (Hall l o Ho) as (o' & Hpo & Ho').
  rewrite (prune_step_pruned_object _ _ _ Ho').
  rewrite (pruned_object_pruned _ _ _ Hfr).
  rewrite (pruned_object_idem _ _ _ Hpo), bind_Ok.
  rewrite list_insert_id by exact Ho'. reflexivity.
Qed.

(** ** The objects of a pruned store *)

Lemma pruned_from_inv h h' l o' :
  pruned_from h h' -> h' !! l = Some o' ->
  exists o, h !! l = Some o /\ same_but_children o o'.
Proof.
  intros [Hlen Hobj] Ho'.
  assert (Hl : l < length h) by (rewrite <- Hlen; eapply lookup_lt_Some; eauto).
  destruct (lookup_lt_is_Some_2 h l Hl) as (o & Ho).
  destruct (Hobj l o Ho) as (o2 & Ho2 & Hs).
  exists o. split; [exact Ho |]. congruence.
Qed.

(** ** [score] *)

Lemma count_correct_le actual predicted :
  count_correct actual predicted <= length actual.
Proof.
  unfold count_correct. rewrite py_sum_list_sum. revert predicted.
  induction actual as [|a actual IH]; intros [|p predicted]; simpl; try lia.
  specialize (IH predicted). destruct (a =? Z.of_nat p)%Z; lia.
Qed.

Lemma accuracy_outcome actual predicted :
  accuracy actual predicted =
  if negb (length actual =? length predicted) then Raise AssertionError
  else if length actual =? 0 then Raise ZeroDivisionError
  else Ok (rate (count_correct actual predicted) (length actual)).
Proof. reflexivity. Qed.

Lemma predict_all_ok n h r xs :
  (forall x, x ∈ xs -> exists p, _predict n h r x = Ok p) ->
  exists ps, predict_all n h r xs = Ok ps /\ length ps = length xs /\
    forall i x, xs !! i = Some x -> exists p, ps !! i = Some p /\ _predict n h r x = Ok p.
Proof.
  induction xs as [|x xs IH]; intros Hall; simpl.
  - exists []. split; [reflexivity |]. split; [reflexivity |]. intros i x Hi. discriminate.
  - destruct (Hall x ltac:(left)) as (p & Hp).
    destruct IH as (ps & Hps & Hlen & Hi); [intros y Hy; apply Hall; right; exact Hy |].
    exists (p :: ps). rewrite Hp, bind_Ok, Hps, bind_Ok.
    split; [reflexivity |]. split; [simpl; congruence |].
    intros [|i] y Hy; simpl in *; [injection Hy as <-; eauto | eauto].
Qed.

(** X12. [score] on a built tree and a data set with at least the columns
    of the training data never fails an assertion and never fails in
    [_predict]: without rows it raises [ZeroDivisionError]; with rows it
    returns the quotient of the number of rows whose prediction equals the
    label in column 0 by the number of rows. *)
Theorem score_outcome fuel m r h n data :
  DecisionTree_init fuel (IntMat m) = Ok (r, h) ->
  length h <= n ->
  ncols m <= ncols data ->
  Forall (fun row => length row = ncols data) (rows data) ->
  exists Y ps,
    column data 0 = Ok Y /\
    predict_all n h r (rows data) = Ok ps /\
    length ps = length (rows data) /\
    (forall i x, rows data !! i = Some x ->
       exists p, ps !! i = Some p /\ _predict n h r x = Ok p) /\
    count_correct Y ps <= length (rows data) /\
    score n h r data =
      if length (rows data) =? 0 then Raise ZeroDivisionError
      else Ok (rate (count_correct Y ps) (length (rows data))).
Proof.
  intros Hb Hn Hnc Hwf.
  pose proof Hb as Hi.
  apply init_built in Hi as (m0 & t & [= <-] & Hr & (_ & Hat & _ & Hok) & Hsize & Hlocs).
  assert (Hm : 0 < ncols m).
  { apply build_tree_root in Hb as (Y & _ & Hc & _). eapply column_0_ncols; eauto. }
  destruct (predict_all_ok n h r (rows data)) as (ps & Hps & Hlen & Hall).
  { intros x Hx. rewrite Forall_forall in Hwf. specialize (Hwf x Hx).
    destruct (predict_tree h x t Hat) as (stop & o & _ & _ & _ & Hpred).
    - apply (tree_all_wider (ncols m)); [lia | exact Hok].
    - exists (cls o). rewrite <- Hr. apply Hpred. pose proof (height_lt_size t). lia. }
  assert (Hcol : column data 0 =
                 Ok (map (fun row => nth 0 row 0%Z) (rows data))).
  { unfold column. rewrite (np_axis_index_range (ncols data) 0) by lia. reflexivity. }
  eexists _, ps. split; [exact Hcol |]. split; [exact Hps |]. split; [exact Hlen |].
  split; [exact Hall |].
  split; [etransitivity; [apply count_correct_le | rewrite length_map; lia] |].
  unfold score. rewrite Hps, bind_Ok, Hcol, bind_Ok, accuracy_outcome.
  rewrite length_map, Hlen, Nat.eqb_refl. reflexivity.
Qed.

(** ** Leaves *)

Lemma distinct_constant Y y : Forall (fun l => l = y) Y -> distinct Y <= 1.
Proof.
  unfold distinct. induction 1 as [|x Y -> Hall IH]; simpl; [lia |].
  destruct (in_dec Z.eq_dec y Y) as [Hin|Hnin]; [exact IH |].
  destruct Y as [|z Y]; [simpl; lia |].
  exfalso. apply Hnin. apply Forall_cons in Hall as [-> _]. left. reflexivity.
Qed.

Lemma amax_constant Y y :
  Forall (fun l => l = y) Y -> Y <> [] -> (0 <= y)%Z -> amax Y = y.
Proof.
  intros Hall Hne Hy. induction Hall as [|x Y -> Hall IH]; [congruence |].
  unfold amax in *. simpl. destruct Y as [|z Y]; [simpl; lia |].
  rewrite IH by discriminate. lia.
Qed.

Lemma map_zero_repeat (f : nat -> nat) : forall n start,
  (forall k, start <= k < start + n -> f k = 0) ->
  map f (seq start n) = repeat 0 n.
Proof.
  induction n as [|n IH]; intros start Hz; [reflexivity |]. simpl.
  rewrite Hz by lia. rewrite IH; [reflexivity |]. intros k Hk. apply Hz. lia.
Qed.

Lemma hist_constant Y y :
  Forall (fun l => l = y) Y -> Y <> [] -> (0 <= y)%Z ->
  hist Y = repeat 0 (Z.to_nat y) ++ [length Y].
Proof.
  intros Hall Hne Hy.
  assert (Hin : forall z, In z Y -> z = y).
  { rewrite List.Forall_forall in Hall. exact Hall. }
  assert (hist Y = map (cnt Y) (seq 0 (S (Z.to_nat (amax Y))))) as ->
    by (destruct Y; [congruence | reflexivity]).
  rewrite (amax_constant Y y Hall Hne Hy), seq_S, map_app. simpl. f_equal.
  - apply map_zero_repeat. intros k Hk. unfold cnt.
    rewrite (count_occ_const Y y _ Hin).
    destruct (Z.eq_dec y (Z.of_nat k)); [lia | reflexivity].
  - unfold cnt. rewrite (count_occ_const Y y _ Hin).
    destruct (Z.eq_dec y (Z.of_nat (Z.to_nat y))); [reflexivity | lia].
Qed.

Lemma argmax_single_slot n k c :
  0 < n -> argmax (repeat 0 k ++ [n]) = Ok c -> c = k.
Proof.
  intros Hn Hc. apply argmax_spec in Hc as (Hlt & Hmax & _).
  specialize (Hmax k).
  rewrite length_app, repeat_length in Hlt. simpl in Hlt.
  rewrite (app_nth2 _ _ _ (n := k)) in Hmax by (rewrite repeat_length; lia).
  rewrite repeat_length, Nat.sub_diag in Hmax. simpl in Hmax.
  destruct (Nat.eq_dec c k) as [E|E]; [exact E | exfalso].
  rewrite app_nth1 in Hmax by (rewrite repeat_length; lia).
  rewrite nth_repeat in Hmax. lia.
Qed.

(** X15. Pure labels give a single leaf.  When every training row has the
    same label [y], [DecisionTree(data)] is one leaf whose histogram has all
    the rows in slot [y], and [_predict] returns [y] for every example,
    whatever its width. *)
Theorem build_pure_labels fuel m Y y :
  column m 0 = Ok Y -> Y <> [] -> (0 <= y)%Z -> Forall (fun l => l = y) Y ->
  DecisionTree_init (S fuel) (IntMat m) = Ok (0, [pure_leaf (length Y) y]) /\
  forall n x, _predict (S n) [pure_leaf (length Y) y] 0 x = Ok (Z.to_nat y).
Proof.
  intros Hc Hne Hy Hall.
  assert (Hn : nonneg Y).
  { eapply Forall_impl; [exact Hall |]. intros z ->. exact Hy. }
  destruct (hist_nonempty Y Hne) as (c & Hc0).
  pose proof (hist_constant Y y Hall Hne Hy) as Hh.
  assert (c = Z.to_nat y) as ->.
  { rewrite Hh in Hc0. apply argmax_single_slot in Hc0; [exact Hc0 |].
    destruct Y; [congruence | simpl; lia]. }
  split.
  - unfold DecisionTree_init.
    rewrite (build_tree_leaf fuel m None [] Y (Z.to_nat y) Hc Hn
               (distinct_constant Y y Hall) Hc0).
    rewrite Hh. reflexivity.
  - intros n x. reflexivity.
Qed.

(** ** [_remove_node] on a built tree *)

Lemma dict_remove_value_absent d c :
  c ∉ dict_values d -> dict_remove_value d c = d.
Proof.
  induction d as [|[v n] d IH]; intros Hc; [reflexivity |]. simpl in *.
  unfold dict_values in Hc. simpl in Hc. apply not_elem_of_cons in Hc as [Hne Hc].
  destruct (Nat.eqb_spec n c) as [->|_]; [congruence |].
  rewrite IH by exact Hc. reflexivity.
Qed.

Lemma remove_child_absent c o : c ∉ dict_values (children o) -> remove_child c o = o.
Proof.
  intros Hc. unfold remove_child. rewrite dict_remove_value_absent by exact Hc.
  destruct o. reflexivity.
Qed.

Lemma dict_remove_value_values d c :
  NoDup (dict_values d) ->
  dict_values (dict_remove_value d c) =
  List.filter (fun n => negb (n =? c)) (dict_values d).
Proof.
  unfold dict_values. induction d as [|[v n] d IH]; intros Hnd; [reflexivity |].
  simpl in *. apply NoDup_cons in Hnd as [Hn Hnd].
  destruct (Nat.eqb_spec n c) as [->|Hne]; simpl.
  - symmetry. clear IH Hnd. induction (map snd d) as [|x xs IHx]; [reflexivity |].
    apply not_elem_of_cons in Hn as [Hx Hxs]. simpl.
    destruct (Nat.eqb_spec x c) as [->|_]; [congruence |]. simpl.
    f_equal. apply IHx, Hxs.
  - rewrite IH by exact Hnd. reflexivity.
Qed.

Lemma filter_map_root c ks :
  List.filter (fun n => negb (n =? c)) (map root ks) =
  map root (List.filter (fun k => negb (root k =? c)) ks).
Proof.
  induction ks as [|k ks IH]; [reflexivity |]. simpl.
  destruct (negb (root k =? c)); simpl; rewrite IH; reflexivity.
Qed.

Lemma cut_unfold c l o ks :
  cut c (T l o ks) =
  T l (remove_child c o)
    (map (cut c) (List.filter (fun k => negb (root k =? c)) ks)).
Proof.
  simpl. f_equal. induction ks as [|k ks IH]; [reflexivity |]. simpl.
  destruct (root k =? c); simpl; rewrite IH; reflexivity.
Qed.

Lemma root_cut c t : root (cut c t) = root t.
Proof. destruct t. reflexivity. Qed.

Lemma NoDup_locs_kids l o ks k :
  NoDup (locs (T l o ks)) -> k ∈ ks -> NoDup (locs k).
Proof.
  intros Hnd Hk. apply (NoDup_locs_subtree k (T l o ks) Hnd).
  eapply subtree_child; [exact Hk | constructor].
Qed.

(** The store in which every object has dropped its entry for [c] holds the
    cut tree. *)
Lemma tree_at_cut c h t :
  tree_at h t -> NoDup (locs t) -> tree_at (map (remove_child c) h) (cut c t).
Proof.
  induction t as [l o ks IH] using tree_ind'. intros Hat Hnd.
  inversion Hat as [? ? ? Hl Hvals Hks]; subst. rewrite cut_unfold. constructor.
  - change (map (remove_child c) h) with (remove_child c <$> h).
    rewrite list_lookup_fmap, Hl. reflexivity.
  - simpl. rewrite dict_remove_value_values.
    + rewrite Hvals, filter_map_root, map_map.
      apply map_ext. intros k. symmetry. apply root_cut.
    + rewrite Hvals. apply NoDup_flat_map_locs_roots.
      simpl in Hnd. apply NoDup_cons in Hnd as [_ Hnd]. exact Hnd.
  - apply Forall_forall. intros k' Hk'.
    apply list_elem_of_fmap in Hk' as (k & -> & Hk).
    apply list_elem_of_In, filter_In in Hk as [Hk _]. apply list_elem_of_In in Hk.
    rewrite Forall_forall in IH, Hks.
    apply IH; [exact Hk | apply Hks, Hk | eapply NoDup_locs_kids; eauto].
Qed.

Lemma size_cut c t : root t <> c -> size (cut c t) + size_at c t = size t.
Proof.
  induction t as [l o ks IH] using tree_ind'. intros Hr. simpl in Hr.
  rewrite cut_unfold. cbn [size_at size].
  destruct (Nat.eqb_spec l c) as [->|_]; [congruence |].
  enough (list_sum (map size (map (cut c)
            (List.filter (fun k => negb (root k =? c)) ks)))
          + list_sum (map (size_at c) ks) = list_sum (map size ks)) by lia.
  induction ks as [|k ks IHks]; [reflexivity |].
  apply Forall_cons in IH as [IHk IH]. specialize (IHks IH).
  cbn [List.filter map].
  destruct (Nat.eqb_spec (root k) c) as [Hkc|Hkc]; cbn [negb map];
    unfold list_sum in *; cbn [fold_right].
  - assert (size_at c k = size k) as ->.
    { destruct k as [lk ok kk]. simpl in Hkc. subst lk. cbn [size_at].
      rewrite Nat.eqb_refl. reflexivity. }
    lia.
  - specialize (IHk Hkc). lia.
Qed.

Lemma size_at_absent c t : c ∉ locs t -> size_at c t = 0.
Proof.
  induction t as [l o ks IH] using tree_ind'. intros Hc. simpl in Hc.
  apply not_elem_of_cons in Hc as [Hne Hc]. cbn [size_at].
  destruct (Nat.eqb_spec l c) as [->|_]; [congruence |].
  induction ks as [|k ks IHks]; [reflexivity |].
  apply Forall_cons in IH as [IHk IH]. simpl in Hc.
  apply not_elem_of_app in Hc as [Hck Hcks].
  simpl. rewrite IHk by exact Hck. rewrite IHks by assumption. reflexivity.
Qed.

Lemma size_at_subtree s t :
  NoDup (locs t) -> subtree s t -> size_at (root s) t = size s.
Proof.
  intros Hnd Hs. induction Hs as [|t k Hk Hs IH].
  - destruct s as [l o ks]. cbn [size_at root]. rewrite Nat.eqb_refl. reflexivity.
  - destruct t as [l o ks]. simpl in Hk.
    pose proof (subtree_root_locs _ _ Hs) as Hin.
    specialize (IH (NoDup_locs_kids _ _ _ _ Hnd Hk)).
    simpl in Hnd. apply NoDup_cons in Hnd as [Hl Hnd].
    cbn [size_at]. destruct (Nat.eqb_spec l (root s)) as [E|_].
    { exfalso. apply Hl. rewrite E. apply elem_of_flat_map. eauto. }
    clear Hl. induction ks as [|k' ks IHks]; [apply elem_of_nil in Hk; contradiction |].
    simpl in Hnd. apply NoDup_app in Hnd as (Hk' & Hdisj & Hks).
    apply elem_of_cons in Hk as [<- | Hk]; simpl.
    + rewrite IH.
      assert (list_sum (map (size_at (root s)) ks) = 0) as ->; [| lia].
      clear IHks Hks. induction ks as [|k2 ks IH2]; [reflexivity |]. simpl.
      rewrite size_at_absent.
      * rewrite IH2; [reflexivity |]. intros x Hx Hx2. apply (Hdisj x Hx).
        simpl. apply elem_of_app. right. exact Hx2.
      * intros Hx. apply (Hdisj _ Hin). simpl. apply elem_of_app. left. exact Hx.
    + rewrite size_at_absent.
      * rewrite IHks by assumption. reflexivity.
      * intros Hx. apply (Hdisj _ Hx). apply elem_of_flat_map. eauto.
Qed.

Lemma locs_cut_incl c t : forall x, x ∈ locs (cut c t) -> x ∈ locs t.
Proof.
  induction t as [l o ks IH] using tree_ind'. intros x Hx.
  rewrite cut_unfold in Hx. simpl in Hx |- *.
  apply elem_of_cons in Hx as [-> | Hx]; [left |]. right.
  apply elem_of_flat_map in Hx as (k' & Hk' & Hx).
  apply list_elem_of_fmap in Hk' as (k & -> & Hk).
  apply list_elem_of_In, filter_In in Hk as [Hk _]. apply list_elem_of_In in Hk.
  rewrite Forall_forall in IH. apply elem_of_flat_map. exists k. split; [exact Hk |].
  apply IH; assumption.
Qed.

Lemma locs_cut_gone c t : root t <> c -> c ∉ locs (cut c t).
Proof.
  induction t as [l o ks IH] using tree_ind'. intros Hr Hc.
  rewrite cut_unfold in Hc. simpl in Hr, Hc.
  apply elem_of_cons in Hc as [-> | Hc]; [congruence |].
  apply elem_of_flat_map in Hc as (k' & Hk' & Hc).
  apply list_elem_of_fmap in Hk' as (k & -> & Hk).
  apply list_elem_of_In, filter_In in Hk as [Hk Hkc]. apply list_elem_of_In in Hk.
  rewrite Forall_forall in IH. apply (IH k Hk); [| exact Hc].
  destruct (Nat.eqb_spec (root k) c); [discriminate | assumption].
Qed.

(** In a built tree a node listed in a children mapping has the holder of
    the mapping as parent. *)
Lemma child_parent nc h t p op c oc :
  built nc None [] t h ->
  h !! p = Some op -> c ∈ dict_values (children op) -> h !! c = Some oc ->
  parent oc = Some p.
Proof.
  intros Hb Hp Hc Hoc. pose proof Hb as ((ext & Hh & Hl) & Hat & Hpar & _).
  simpl in Hh, Hl. subst h.
  assert (Hpl : p ∈ locs t).
  { rewrite Hl. apply elem_of_seq. apply lookup_lt_Some in Hp. lia. }
  destruct (lookup_subtree _ _ _ _ Hat Hpl Hp) as (kp & Hsp & Hatp).
  inversion Hatp as [? ? ? _ Hvals Hkids]; subst.
  rewrite Hvals in Hc. apply list_elem_of_fmap in Hc as (k & Hrk & Hk).
  destruct (parents_ok_sub _ _ _ Hpar Hsp) as (par' & Hpp).
  pose proof (parents_ok_child _ _ _ _ _ Hpp Hk) as Hpk.
  rewrite Forall_forall in Hkids. specialize (Hkids k Hk).
  apply tree_at_deref in Hkids. rewrite <- Hrk in Hkids.
  rewrite (deref_Some _ _ _ Hoc) in Hkids. injection Hkids as ->. exact Hpk.
Qed.

(** X17. [_remove_node] on a built tree.  On the root it does nothing and
    returns [None].  On any other node it returns the node's parent, after
    deleting from the parent's children mapping the entry that holds the
    node, and touches no other object: the node is no longer reachable from
    the root, nothing new becomes reachable, and [node_count()] drops by the
    node count of the detached subtree. *)
Theorem remove_node_detaches fuel m r h l :
  DecisionTree_init fuel (IntMat m) = Ok (r, h) ->
  l < length h ->
  (l = r -> _remove_node h l = Ok (None, h)) /\
  (l <> r ->
   exists p h' N Nl,
     _remove_node h l = Ok (Some p, h') /\
     (exists o, h !! l = Some o /\ parent o = Some p) /\
     (forall x, x <> p -> h' !! x = h !! x) /\
     _node_count (length h) h r = Ok N /\
     _node_count (length h) h l = Ok Nl /\
     _node_count (length h) h' r = Ok (N - Nl) /\
     0 < Nl < N /\
     ¬ reachable h' r l /\
     (forall x, reachable h' r x -> reachable h r x)).
Proof.
  intros Hinit Hl.
  apply init_fitted in Hinit as (t & Hr & Hb & _ & Hlocs).
  pose proof Hb as (_ & Hat & Hpar & _).
  assert (Hnd : NoDup (locs t)) by (rewrite Hlocs; apply NoDup_seq).
  assert (Hsize : size t = length h).
  { rewrite size_length_locs, Hlocs. apply length_seq. }
  destruct (lookup_lt_is_Some_2 h l Hl) as (o & Ho).
  assert (Hlt : l ∈ locs t) by (rewrite Hlocs; apply elem_of_seq; lia).
  destruct (lookup_subtree _ _ _ _ Hat Hlt Ho) as (ks & Hs & Hats).
  destruct (parents_ok_subtree _ _ _ Hpar Hs) as [[Heq Hnone] | (pt & Hpt & Hsp & Hps)];
    simpl in *.
  - assert (l = r) as -> by (rewrite <- Hr, <- Heq; reflexivity).
    split; [| congruence]. intros _.
    unfold _remove_node. rewrite (deref_Some _ _ _ Ho), bind_Ok, Hnone. reflexivity.
  - assert (Hlr : l <> r).
    { intros ->. assert (parent (obj t) = None) by (destruct Hpar; assumption).
      apply tree_at_deref in Hat. rewrite Hr, (deref_Some _ _ _ Ho) in Hat.
      injection Hat as ->. congruence. }
    split; [congruence |]. intros _.
    pose proof (tree_at_subtree _ _ _ Hat Hpt) as Hatp.
    pose proof (tree_at_deref _ _ Hatp) as Hp. unfold deref in Hp.
    destruct (h !! root pt) as [op|] eqn:Hop; [| discriminate].
    injection Hp as Hobj.
    set (p := root pt) in *.
    set (h' := assign_children p (dict_remove_value (children op) l) h).
    assert (Hh' : h' = map (remove_child l) h).
    { unfold h', assign_children. rewrite Hop.
      apply list_eq. intros x.
      change (map (remove_child l) h) with (remove_child l <$> h).
      rewrite list_lookup_fmap.
      destruct (decide (p = x)) as [<-|Hne].
      - rewrite list_lookup_insert_eq by (eapply lookup_lt_Some; eauto).
        rewrite Hop. reflexivity.
      - rewrite list_lookup_insert_ne by exact Hne.
        destruct (h !! x) as [ox|] eqn:Hx; [| reflexivity]. simpl. f_equal.
        symmetry. apply remove_child_absent. intros Hin.
        pose proof (child_parent _ _ _ _ _ _ _ Hb Hx Hin Ho). congruence. }
    assert (Hat' : tree_at h' (cut l t)).
    { rewrite Hh'. apply tree_at_cut; assumption. }
    assert (Hrt : root t <> l) by congruence.
    pose proof (size_cut l t Hrt) as Hsz.
    pose proof (size_at_subtree (T l o ks) t Hnd Hs) as Hsub.
    simpl root in Hsub. rewrite Hsub in Hsz.
    pose proof (height_lt_size t). pose proof (height_lt_size (T l o ks)).
    pose proof (height_lt_size (cut l t)).
    assert (0 < size (T l o ks)) by (simpl; lia).
    assert (0 < size (cut l t)) by (destruct t; rewrite cut_unfold; simpl; lia).
    exists p, h', (size t), (size (T l o ks)).
    split; [| split; [| split; [| split; [| split; [| split; [| split; [| split]]]]]]].
    + unfold _remove_node. rewrite (deref_Some _ _ _ Ho), bind_Ok, Hps.
      rewrite (deref_Some _ _ _ Hop), bind_Ok. reflexivity.
    + eauto.
    + intros x Hx. unfold h', assign_children. rewrite Hop.
      apply list_lookup_insert_ne. congruence.
    + rewrite <- Hr. apply node_count_size; [exact Hat | lia].
    + apply (node_count_size h (T l o ks)); [exact Hats | lia].
    + rewrite <- Hr, <- (root_cut l t).
      replace (size t - size (T l o ks)) with (size (cut l t)) by lia.
      apply node_count_size; [exact Hat' | lia].
    + lia.
    + intros Hreach. rewrite <- Hr, <- (root_cut l t) in Hreach.
      apply (reachable_locs _ _ _ Hat') in Hreach.
      exact (locs_cut_gone l t Hrt Hreach).
    + intros x Hreach. rewrite <- Hr, <- (root_cut l t) in Hreach.
      apply (reachable_locs _ _ _ Hat') in Hreach.
      rewrite <- Hr. apply (locs_reachable _ _ _ Hat).
      apply locs_cut_incl in Hreach. exact Hreach.
Qed.

(** ** make_confusion *)

Lemma existsb_eqb_In p l : existsb (Z.eqb p) l = true <-> In p l.
Proof.
  rewrite existsb_exists. split.
  - intros (x & Hx & E). apply Z.eqb_eq in E. subst. exact Hx.
  - intros Hp. exists p. split; [exact Hp | apply Z.eqb_refl].
Qed.

Lemma dict_get_map {V} (g : Z -> V) l a :
  dict_get (map (fun c => (c, g c)) l) a =
  if existsb (Z.eqb a) l then Some (g a) else None.
Proof.
  induction l as [|c l IH]; [reflexivity |]. simpl.
  rewrite (Z.eqb_sym a c). destruct (Z.eqb_spec c a) as [->|_]; [reflexivity | exact IH].
Qed.

Lemma dict_set_map {V} (g : Z -> V) l a v :
  List.NoDup l ->
  dict_set (map (fun c => (c, g c)) l) a v =
  map (fun c => (c, if (c =? a)%Z then v else g c)) l.
Proof.
  induction 1 as [|c l Hc Hnd IH]; [reflexivity |]. simpl.
  destruct (Z.eqb_spec c a) as [->|Hne].
  - f_equal. apply map_ext_in. intros c' Hc'.
    destruct (Z.eqb_spec c' a) as [->|_]; [contradiction | reflexivity].
  - rewrite IH. reflexivity.
Qed.

Lemma pair_count_snoc pairs a p c cc :
  pair_count (pairs ++ [(a, p)]) c cc =
  pair_count pairs c cc + (if ((a =? c)%Z && (p =? cc)%Z)%bool then 1 else 0).
Proof.
  unfold pair_count. rewrite List.filter_app, length_app. simpl.
  destruct ((a =? c)%Z && (p =? cc)%Z)%bool; reflexivity.
Qed.

Lemma cm_count_known classes pairs a p :
  List.NoDup classes -> In a classes -> In p classes ->
  cm_count (cm_of classes pairs) (a, p) = inl (cm_of classes (pairs ++ [(a, p)])).
Proof.
  intros Hnd Ha Hp. unfold cm_count, cm_of, dict_lookup.
  rewrite dict_get_map. rewrite (proj2 (existsb_eqb_In a classes) Ha). simpl.
  rewrite dict_get_map. rewrite (proj2 (existsb_eqb_In p classes) Hp). simpl.
  f_equal. rewrite (dict_set_map _ _ _ _ Hnd). apply map_ext. intros c. f_equal.
  destruct (Z.eqb_spec c a) as [->|Hne].
  - rewrite (dict_set_map _ _ _ _ Hnd). apply map_ext. intros cc. f_equal.
    rewrite pair_count_snoc, Z.eqb_refl. simpl. rewrite (Z.eqb_sym p cc).
    destruct (Z.eqb_spec cc p) as [->|_]; lia.
  - apply map_ext. intros cc. f_equal. rewrite pair_count_snoc.
    rewrite (Z.eqb_sym a c). destruct (Z.eqb_spec c a); [contradiction | simpl; lia].
Qed.

Lemma cm_count_unknown classes pairs a p :
  In a classes -> ¬ In p classes ->
  cm_count (cm_of classes pairs) (a, p) = inr (CmKeyError p).
Proof.
  intros Ha Hp. unfold cm_count, cm_of, dict_lookup.
  rewrite dict_get_map. rewrite (proj2 (existsb_eqb_In a classes) Ha). simpl.
  rewrite dict_get_map.
  destruct (existsb (Z.eqb p) classes) eqn:E; [| reflexivity].
  apply existsb_eqb_In in E. contradiction.
Qed.

Lemma cm_loop_spec classes : forall rest done,
  List.NoDup classes ->
  (forall ap, In ap rest -> In (fst ap) classes) ->
  cm_loop (cm_of classes done) rest =
  match first_unknown classes (map snd rest) with
  | Some p => inr (CmKeyError p)
  | None => inl (cm_of classes (done ++ rest))
  end.
Proof.
  induction rest as [|[a p] rest IH]; intros done Hnd Hin.
  - simpl. rewrite app_nil_r. reflexivity.
  - assert (Ha : In a classes) by (apply (Hin (a, p)); left; reflexivity).
    cbn [cm_loop map snd first_unknown find].
    destruct (existsb (Z.eqb p) classes) eqn:E; cbn [negb].
    + apply existsb_eqb_In in E.
      rewrite (cm_count_known _ _ _ _ Hnd Ha E). cbn [cm_bind].
      rewrite IH by (try assumption; intros ap Hap; apply Hin; right; exact Hap).
      unfold first_unknown. rewrite <- app_assoc. reflexivity.
    + rewrite cm_count_unknown; [reflexivity | exact Ha |].
      intros Hp. apply existsb_eqb_In in Hp. congruence.
Qed.

Lemma cm_map_inl {A B} (f : A -> cm_result B) (g : A -> B) l :
  (forall a, In a l -> f a = inl (g a)) -> cm_map f l = inl (map g l).
Proof.
  induction l as [|a l IH]; intros Hf; [reflexivity |]. simpl.
  rewrite (Hf a (or_introl eq_refl)). simpl.
  rewrite IH by (intros b Hb; apply Hf; right; exact Hb). reflexivity.
Qed.

Lemma insert_sorted_In v l x : In x (insert_sorted v l) <-> x = v \/ In x l.
Proof.
  induction l as [|y l IH]; simpl; [intuition |].
  destruct (v <=? y)%Z; simpl; [intuition |]. rewrite IH. intuition.
Qed.

Lemma py_sorted_In l x : In x (py_sorted l) <-> In x l.
Proof.
  induction l as [|y l IH]; simpl; [reflexivity |].
  rewrite insert_sorted_In, IH. intuition.
Qed.

Lemma insert_sorted_strict v l :
  ¬ In v l -> StronglySorted Z.lt l -> StronglySorted Z.lt (insert_sorted v l).
Proof.
  intros Hv Hs. induction Hs as [|y l Hs IH Hall]; simpl.
  - constructor; constructor.
  - destruct (Z.leb_spec v y) as [Hle|Hgt].
    + assert (v < y)%Z by (assert (v <> y) by (intros ->; apply Hv; left; reflexivity); lia).
      constructor; [constructor; assumption |].
      constructor; [assumption |].
      eapply List.Forall_impl; [| exact Hall]. intros z Hz. simpl in Hz. lia.
    + constructor; [apply IH; intros Hin; apply Hv; right; exact Hin |].
      apply List.Forall_forall. intros z Hz. apply insert_sorted_In in Hz as [->|Hz]; [lia |].
      rewrite List.Forall_forall in Hall. apply Hall, Hz.
Qed.

Lemma py_sorted_strict l : List.NoDup l -> StronglySorted Z.lt (py_sorted l).
Proof.
  induction 1 as [|v l Hv Hnd IH]; simpl; [constructor |].
  apply insert_sorted_strict; [| exact IH]. rewrite py_sorted_In. exact Hv.
Qed.

Lemma sorted_lt_unique l1 : forall l2,
  StronglySorted Z.lt l1 -> StronglySorted Z.lt l2 ->
  (forall x, In x l1 <-> In x l2) -> l1 = l2.
Proof.
  induction l1 as [|x l1 IH]; intros l2 H1 H2 Heq.
  - destruct l2 as [|y l2]; [reflexivity |].
    exfalso. apply (Heq y). left. reflexivity.
  - destruct l2 as [|y l2]; [exfalso; apply (Heq x); left; reflexivity |].
    apply StronglySorted_inv in H1 as [H1 Hx]. apply StronglySorted_inv in H2 as [H2 Hy].
    rewrite List.Forall_forall in Hx, Hy.
    assert (x = y) as ->.
    { destruct (proj1 (Heq x) (or_introl eq_refl)) as [E|Hin]; [congruence |].
      destruct (proj2 (Heq y) (or_introl eq_refl)) as [E|Hin']; [congruence |].
      specialize (Hx _ Hin'). specialize (Hy _ Hin). lia. }
    f_equal. apply IH; [assumption | assumption |]. intros z. split; intros Hz.
    + destruct (proj1 (Heq z) (or_intror Hz)) as [E|Hin]; [| exact Hin].
      subst z. specialize (Hx _ Hz). lia.
    + destruct (proj2 (Heq z) (or_intror Hz)) as [E|Hin]; [| exact Hin].
      subst z. specialize (Hy _ Hz). lia.
Qed.

Lemma py_sorted_classes classes actual :
  List.NoDup classes -> (forall x, In x classes <-> In x actual) ->
  py_sorted classes = np_unique actual.
Proof.
  intros Hnd Heq. apply sorted_lt_unique.
  - apply py_sorted_strict, Hnd.
  - apply np_unique_sorted.
  - intros x. rewrite py_sorted_In, np_unique_In. apply Heq.
Qed.

Lemma first_unknown_classes classes actual predicted :
  (forall x, In x classes <-> In x actual) ->
  first_unknown classes predicted = first_unknown actual predicted.
Proof.
  intros Heq. unfold first_unknown. induction predicted as [|p ps IH]; [reflexivity |].
  simpl. rewrite IH.
  assert (existsb (Z.eqb p) classes = existsb (Z.eqb p) actual) as ->; [| reflexivity].
  apply eq_true_iff_eq. rewrite !existsb_eqb_In. apply Heq.
Qed.

Lemma map_fst_cm_of classes pairs : map fst (cm_of classes pairs) = classes.
Proof. unfold cm_of. rewrite map_map. apply map_id. Qed.

Lemma combine_fst_In {A B} (l1 : list A) (l2 : list B) ap :
  In ap (combine l1 l2) -> In (fst ap) l1.
Proof. destruct ap. apply in_combine_l. Qed.

Lemma map_snd_combine {A B} (l1 : list A) (l2 : list B) :
  length l1 = length l2 -> map snd (combine l1 l2) = l2.
Proof.
  revert l2. induction l1 as [|a l1 IH]; intros [|b l2] Hlen; try discriminate;
    [reflexivity |]. simpl. rewrite IH by (simpl in Hlen; lia). reflexivity.
Qed.

Lemma cm_loop_combine classes actual predicted :
  List.NoDup classes -> (forall x, In x classes <-> In x actual) ->
  length actual = length predicted ->
  cm_loop (cm_init classes) (combine actual predicted) =
  match first_unknown actual predicted with
  | Some p => inr (CmKeyError p)
  | None => inl (cm_of classes (combine actual predicted))
  end.
Proof.
  intros Hnd Heq Hlen. change (cm_init classes) with (cm_of classes []).
  rewrite cm_loop_spec; [| exact Hnd |].
  - rewrite (map_snd_combine _ _ Hlen), (first_unknown_classes _ _ _ Heq).
    reflexivity.
  - intros ap Hap. apply Heq. eapply combine_fst_In; eauto.
Qed.

Lemma cm_readout classes actual pairs :
  List.NoDup classes -> (forall x, In x classes <-> In x actual) ->
  cm_map (cm_row (cm_of classes pairs)) (py_sorted (map fst (cm_of classes pairs))) =
  inl (map (fun a => map (pair_count pairs a) (np_unique actual)) (np_unique actual)).
Proof.
  intros Hnd Heq. rewrite map_fst_cm_of, (py_sorted_classes _ _ Hnd Heq).
  apply cm_map_inl. intros a Ha. apply np_unique_In, Heq in Ha.
  unfold cm_row, cm_of at 1, dict_lookup. rewrite dict_get_map.
  rewrite (proj2 (existsb_eqb_In a classes) Ha). cbn [cm_bind].
  rewrite map_map. cbn [fst]. rewrite map_id, (py_sorted_classes _ _ Hnd Heq).
  apply cm_map_inl. intros p Hp. apply np_unique_In, Heq in Hp.
  rewrite dict_get_map, (proj2 (existsb_eqb_In p classes) Hp). reflexivity.
Qed.

(** X18. The outcome of [make_confusion], whatever the order in which the
    set of classes is iterated.  Lists of different lengths fail the
    assertion; otherwise the first predicted label that is not among the
    actual labels raises [KeyError]; otherwise the result is the square
    matrix whose rows and columns follow the distinct actual labels in
    ascending order, the entry of row [a] and column [p] being the number
    of positions at which the actual label is [a] and the predicted one
    [p]. *)
Theorem make_confusion_outcome classes actual predicted :
  List.NoDup classes -> (forall x, In x classes <-> In x actual) ->
  make_confusion_with classes actual predicted =
  if negb (length actual =? length predicted) then inr CmAssertionError
  else match first_unknown actual predicted with
       | Some p => inr (CmKeyError p)
       | None =>
           inl (map (fun a => map (pair_count (combine actual predicted) a)
                                  (np_unique actual))
                    (np_unique actual))
       end.
Proof.
  intros Hnd Heq. unfold make_confusion_with.
  destruct (Nat.eqb_spec (length actual) (length predicted)) as [Hlen|Hlen];
    [| reflexivity]. cbn [negb].
  rewrite (cm_loop_combine _ _ _ Hnd Heq Hlen).
  destruct (first_unknown actual predicted); [reflexivity |].
  cbn [cm_bind]. apply cm_readout; assumption.
Qed.

Lemma make_confusion_outcome_witness :
  List.NoDup [1; 0]%Z /\ (forall x, In x [1; 0]%Z <-> In x [1; 0; 1]%Z) /\
  make_confusion_with [1; 0]%Z [1; 0; 1]%Z [1; 1; 0]%Z = inl [[0; 1]; [1; 1]].
Proof.
  assert (Hnd : List.NoDup [1; 0]%Z).
  { constructor; [simpl; intros [E|[]]; discriminate |].
    constructor; [simpl; tauto | constructor]. }
  assert (Heq : forall x, In x [1; 0]%Z <-> In x [1; 0; 1]%Z) by (simpl; tauto).
  split; [exact Hnd |]. split; [exact Heq |].
  exact (make_confusion_outcome [1; 0]%Z [1; 0; 1]%Z [1; 1; 0]%Z Hnd Heq).
Defined.

Lemma first_unknown_None classes predicted :
  first_unknown classes predicted = None ->
  forall p, In p predicted -> In p classes.
Proof.
  unfold first_unknown. intros Hnone p Hp.
  pose proof (find_none _ _ Hnone p Hp) as Hf. simpl in Hf.
  apply negb_false_iff, existsb_eqb_In in Hf. exact Hf.
Qed.

Lemma pair_count_cons ap pairs a p :
  pair_count (ap :: pairs) a p =
  (if ((fst ap =? a)%Z && (snd ap =? p)%Z)%bool then 1 else 0) + pair_count pairs a p.
Proof.
  unfold pair_count. simpl.
  destruct ((fst ap =? a)%Z && (snd ap =? p)%Z)%bool; reflexivity.
Qed.

Lemma indicator_sum_and (V : list Z) (b : bool) x :
  List.NoDup V -> In x V ->
  list_sum (map (fun v => if (b && (x =? v)%Z)%bool then 1 else 0) V) =
  if b then 1 else 0.
Proof.
  intros Hnd Hx. destruct b; simpl.
  - apply indicator_sum_one; assumption.
  - apply list_sum_map_zero.
Qed.

(** The entries of a row add up to the positions that hold its label. *)
Lemma pair_count_row_sum S a : forall pairs,
  List.NoDup S -> (forall ap, In ap pairs -> In (snd ap) S) ->
  list_sum (map (pair_count pairs a) S) =
  length (List.filter (fun ap => (fst ap =? a)%Z) pairs).
Proof.
  induction pairs as [|ap pairs IH]; intros Hnd Hin.
  - simpl. apply list_sum_map_zero.
  - rewrite (list_sum_map_ext _ (fun p =>
      (if ((fst ap =? a)%Z && (snd ap =? p)%Z)%bool then 1 else 0)
      + pair_count pairs a p)) by (intros p _; apply pair_count_cons).
    rewrite list_sum_map_add, IH by (try assumption; intros x Hx; apply Hin; right; exact Hx).
    rewrite (indicator_sum_and S _ (snd ap) Hnd (Hin ap (or_introl eq_refl))).
    simpl. destruct (fst ap =? a)%Z; reflexivity.
Qed.

(** The diagonal entries add up to the positions at which the two labels
    agree. *)
Lemma pair_count_diag_sum S : forall pairs,
  List.NoDup S -> (forall ap, In ap pairs -> In (fst ap) S) ->
  list_sum (map (fun a => pair_count pairs a a) S) =
  length (List.filter (fun ap => (fst ap =? snd ap)%Z) pairs).
Proof.
  induction pairs as [|ap pairs IH]; intros Hnd Hin.
  - simpl. apply list_sum_map_zero.
  - rewrite (list_sum_map_ext _ (fun a =>
      (if ((snd ap =? a)%Z && (fst ap =? a)%Z)%bool then 1 else 0)
      + pair_count pairs a a)).
    2:{ intros a _. rewrite pair_count_cons, andb_comm. reflexivity. }
    rewrite list_sum_map_add, IH by (try assumption; intros x Hx; apply Hin; right; exact Hx).
    rewrite (list_sum_map_ext _ (fun a =>
      if ((fst ap =? snd ap)%Z && (fst ap =? a)%Z)%bool then 1 else 0)).
    2:{ intros a _. destruct (Z.eqb_spec (fst ap) a) as [->|_];
          [rewrite (Z.eqb_sym (snd ap) a) | rewrite !andb_false_r]; reflexivity. }
    rewrite (indicator_sum_and S _ (fst ap) Hnd (Hin ap (or_introl eq_refl))).
    simpl. destruct (fst ap =? snd ap)%Z; reflexivity.
Qed.

Lemma filter_fst_combine a : forall actual predicted,
  length actual = length predicted ->
  length (List.filter (fun ap : Z * Z => (fst ap =? a)%Z) (combine actual predicted)) =
  count_occ Z.eq_dec actual a.
Proof.
  induction actual as [|x actual IH]; intros [|p predicted] Hlen; try discriminate;
    [reflexivity |]. simpl in *.
  destruct (Z.eq_dec x a) as [E|E].
  - rewrite (proj2 (Z.eqb_eq x a) E). simpl. rewrite IH by lia. reflexivity.
  - rewrite (proj2 (Z.eqb_neq x a) E). apply IH. lia.
Qed.

Lemma count_correct_agreements actual preds :
  count_correct actual preds =
  length (List.filter (fun ap : Z * Z => (fst ap =? snd ap)%Z)
                      (combine actual (map Z.of_nat preds))).
Proof.
  unfold count_correct. rewrite py_sum_list_sum. revert preds.
  induction actual as [|a actual IH]; intros [|p preds]; try reflexivity.
  simpl. rewrite IH. destruct (a =? Z.of_nat p)%Z; reflexivity.
Qed.

Lemma map_nth_seq {A B} (g : A -> B) (d : A) l :
  map (fun i => g (nth i l d)) (seq 0 (length l)) = map g l.
Proof.
  rewrite <- (map_map (fun i => nth i l d) g). f_equal.
  induction l as [|x l IH]; [reflexivity |].
  simpl. f_equal. rewrite <- seq_shift, map_map. exact IH.
Qed.

Lemma trace_table (f : Z -> Z -> nat) S :
  trace (map (fun a => map (f a) S) S) = list_sum (map (fun a => f a a) S).
Proof.
  unfold trace. rewrite length_map. rewrite <- (map_nth_seq (fun a => f a a) 0%Z S).
  f_equal. apply map_ext_in. intros i Hi. apply in_seq in Hi.
  rewrite (nth_indep _ [] (map (f 0%Z) S)) by (rewrite length_map; lia).
  rewrite (map_nth (fun a => map (f a) S)).
  rewrite (nth_indep _ 0 (f (nth i S 0%Z) 0%Z)) by (rewrite length_map; lia).
  rewrite (map_nth (f (nth i S 0%Z))). reflexivity.
Qed.

Lemma np_unique_length_distinct Y : length (np_unique Y) = distinct Y.
Proof.
  unfold distinct. apply Permutation_length, Permutation.NoDup_Permutation.
  - apply np_unique_NoDup.
  - apply List.NoDup_nodup.
  - intros x. rewrite np_unique_In, nodup_In. reflexivity.
Qed.

(** X19. What a confusion matrix adds up to.  When [make_confusion]
    returns, the matrix is square with one row per distinct actual label;
    the entries of the row of a label add up to the number of occurrences of
    that label, all entries together to the number of examples, and the
    diagonal to the number of correct predictions: [accuracy] of the same
    lists is the trace of the matrix divided by its total. *)
Theorem make_confusion_totals actual preds M :
  make_confusion actual (map Z.of_nat preds) = inl M ->
  length M = distinct actual /\
  Forall (fun row => length row = distinct actual) M /\
  (forall i a, np_unique actual !! i = Some a ->
     list_sum (nth i M []) = count_occ Z.eq_dec actual a) /\
  list_sum (map list_sum M) = length actual /\
  trace M = count_correct actual preds /\
  accuracy actual preds =
    if length actual =? 0 then Raise ZeroDivisionError
    else Ok (rate (trace M) (list_sum (map list_sum M))).
Proof.
  intros HM. unfold make_confusion, make_confusion_with in HM.
  assert (Hnd : List.NoDup (nodup Z.eq_dec actual)) by apply List.NoDup_nodup.
  assert (Heq : forall x, In x (nodup Z.eq_dec actual) <-> In x actual)
    by (intros x; apply nodup_In).
  destruct (Nat.eqb_spec (length actual) (length (map Z.of_nat preds))) as [Hlen|Hlen];
    [| discriminate]. cbn [negb] in HM.
  rewrite (cm_loop_combine _ _ _ Hnd Heq Hlen) in HM.
  destruct (first_unknown actual (map Z.of_nat preds)) eqn:Hfirst; [discriminate |].
  cbn [cm_bind] in HM. rewrite (cm_readout _ actual _ Hnd Heq) in HM.
  injection HM as <-.
  set (pairs := combine actual (map Z.of_nat preds)).
  set (S := np_unique actual).
  assert (HS : List.NoDup S) by apply np_unique_NoDup.
  assert (Hfst : forall ap, In ap pairs -> In (fst ap) S).
  { intros ap Hap. apply np_unique_In. eapply combine_fst_In; eauto. }
  assert (Hsnd : forall ap, In ap pairs -> In (snd ap) S).
  { intros [a p] Hap. apply np_unique_In. apply in_combine_r in Hap.
    eapply first_unknown_None; eauto. }
  assert (Hrow : forall a, list_sum (map (pair_count pairs a) S) =
                           count_occ Z.eq_dec actual a).
  { intros a. rewrite (pair_count_row_sum S a pairs HS Hsnd).
    apply filter_fst_combine, Hlen. }
  assert (Htrace : trace (map (fun a => map (pair_count pairs a) S) S) =
                   count_correct actual preds).
  { rewrite trace_table, (pair_count_diag_sum S pairs HS Hfst).
    symmetry. apply count_correct_agreements. }
  assert (Htotal : list_sum (map list_sum (map (fun a => map (pair_count pairs a) S) S)) =
                   length actual).
  { rewrite map_map. rewrite (list_sum_map_ext _ (count_occ Z.eq_dec actual))
      by (intros a _; apply Hrow).
    apply count_sum_values; [exact HS |]. intros x Hx. apply np_unique_In, Hx. }
  split; [rewrite length_map; apply np_unique_length_distinct |].
  split.
  { apply Forall_forall. intros row Hrow'.
    apply list_elem_of_fmap in Hrow' as (a & -> & _).
    rewrite length_map. apply np_unique_length_distinct. }
  split.
  { intros i a Hi. change (np_unique actual) with S in Hi.
    rewrite (nth_indep _ [] (map (pair_count pairs 0%Z) S))
      by (rewrite length_map; eapply lookup_lt_Some; eauto).
    rewrite (map_nth (fun a => map (pair_count pairs a) S)).
    apply nth_lookup_Some with (d := 0%Z) in Hi. rewrite Hi. apply Hrow. }
  split; [exact Htotal |]. split; [exact Htrace |].
  rewrite accuracy_outcome, Htrace, Htotal.
  rewrite length_map in Hlen. rewrite Hlen, Nat.eqb_refl. reflexivity.
Qed.

Lemma make_confusion_totals_witness :
  make_confusion [1; 0; 1]%Z (map Z.of_nat [1; 1; 0]) = inl [[0; 1]; [1; 1]] /\
  length [[0; 1]; [1; 1]] = distinct [1; 0; 1]%Z /\
  Forall (fun row => length row = distinct [1; 0; 1]%Z) [[0; 1]; [1; 1]] /\
  (forall i a, np_unique [1; 0; 1]%Z !! i = Some a ->
     list_sum (nth i [[0; 1]; [1; 1]] []) = count_occ Z.eq_dec [1; 0; 1]%Z a) /\
  list_sum (map list_sum [[0; 1]; [1; 1]]) = length [1; 0; 1]%Z /\
  trace [[0; 1]; [1; 1]] = count_correct [1; 0; 1]%Z [1; 1; 0] /\
  accuracy [1; 0; 1]%Z [1; 1; 0] =
    if length [1; 0; 1]%Z =? 0 then Raise ZeroDivisionError
    else Ok (rate (trace [[0; 1]; [1; 1]]) (list_sum (map list_sum [[0; 1]; [1; 1]]))).
Proof.
  split; [reflexivity |].
  apply (make_confusion_totals [1; 0; 1]%Z [1; 1; 0] [[0; 1]; [1; 1]] eq_refl).
Defined.

(** ** Class counts are the training rows routed through a node *)

Lemma predict_path h x : forall fuel n c,
  _predict fuel h n x = Ok c ->
  exists stop o, last (path fuel h n x) = Some stop /\ h !! stop = Some o /\ c = cls o.
Proof.
  induction fuel as [|fuel IH]; intros n c Hp; [discriminate |].
  rewrite predict_unfold in Hp. unfold deref in Hp. cbn [path].
  destruct (h !! n) as [o|] eqn:Ho; [| discriminate]. rewrite bind_Ok in Hp.
  destruct (children o) as [|e d] eqn:Hk.
  { injection Hp as <-. exists n, o. auto. }
  destruct (attr_idx o) as [a|]; [| discriminate].
  destruct (np_index x a) as [v|err]; [| discriminate]. rewrite bind_Ok in Hp.
  destruct (dict_get (e :: d) v) as [child|] eqn:Hget.
  - destruct (IH _ _ Hp) as (stop & os & Hlast & Hos & ->).
    exists stop, os. split; [| auto].
    destruct (path fuel h child x) as [|y ys] eqn:E; [discriminate |].
    rewrite last_cons, Hlast. reflexivity.
  - injection Hp as <-. exists n, o. auto.
Qed.

Lemma path_in_locs h x t : forall fuel l,
  tree_at h t -> l ∈ path fuel h (root t) x -> l ∈ locs t.
Proof.
  induction t as [l0 o ks IH] using tree_ind'. intros fuel l Hat Hl.
  destruct fuel as [|fuel]; [apply elem_of_nil in Hl; contradiction |].
  inversion Hat as [? ? ? Ho Hvals Hks]; subst. cbn [path root] in Hl. rewrite Ho in Hl.
  apply elem_of_cons in Hl as [-> | Hl]; [simpl; left |].
  destruct (children o) as [|e d] eqn:Hk; [apply elem_of_nil in Hl; contradiction |].
  destruct (attr_idx o) as [a|]; [| apply elem_of_nil in Hl; contradiction].
  destruct (np_index x a) as [v|err]; [| apply elem_of_nil in Hl; contradiction].
  destruct (dict_get (e :: d) v) as [child|] eqn:Hget;
    [| apply elem_of_nil in Hl; contradiction].
  apply dict_get_Some_values in Hget. rewrite Hvals in Hget.
  apply list_elem_of_fmap in Hget as (k & -> & Hkk).
  simpl. right. apply elem_of_flat_map. exists k. split; [exact Hkk |].
  rewrite Forall_forall in IH, Hks. eapply IH; eauto.
Qed.

Lemma passes_false_outside h x t fuel l :
  tree_at h t -> l ∉ locs t -> passes fuel h (root t) l x = false.
Proof.
  intros Hat Hl. unfold passes. apply not_true_is_false. intros He.
  apply existsb_exists in He as (y & Hy & E). apply Nat.eqb_eq in E. subst y.
  apply Hl. eapply path_in_locs; [exact Hat |]. apply list_elem_of_In. exact Hy.
Qed.

Lemma take_rows_filter (f : list Z -> Z) v : forall rs pre,
  map (fun i => nth i (pre ++ rs) []) (where_eq_from (length pre) (map f rs) v) =
  List.filter (fun x => (f x =? v)%Z) rs.
Proof.
  induction rs as [|x rs IH]; intros pre; [reflexivity |]. simpl.
  specialize (IH (pre ++ [x])). rewrite <- app_assoc, length_app in IH. simpl in IH.
  replace (length pre + 1) with (S (length pre)) in IH by lia.
  destruct (f x =? v)%Z; simpl; rewrite IH; [| reflexivity].
  rewrite app_nth2, Nat.sub_diag by lia. reflexivity.
Qed.

Lemma rows_take_rows m a Xa v :
  (0 <= a < Z.of_nat (ncols m))%Z -> column m a = Ok Xa ->
  rows (take_rows m (np_where_eq Xa v)) =
  List.filter (fun x => (nth (Z.to_nat a) x 0 =? v)%Z) (rows m).
Proof.
  intros Ha Hc. rewrite (column_range m a Xa Ha Hc). unfold take_rows, np_where_eq.
  simpl. apply (take_rows_filter (fun x => nth (Z.to_nat a) x 0%Z) v (rows m) []).
Qed.

Lemma hist_labels m Y : column m 0 = Ok Y -> Y = map label (rows m).
Proof.
  intros Hc. pose proof (column_0_ncols _ _ Hc).
  apply (column_range m 0 Y); [lia | exact Hc].
Qed.

Lemma filter_filter {A} (f g : A -> bool) l :
  List.filter f (List.filter g l) = List.filter (fun x => g x && f x) l.
Proof.
  induction l as [|x l IH]; [reflexivity |]. simpl.
  destruct (g x); simpl; [destruct (f x) |]; rewrite IH; reflexivity.
Qed.

(** The rows a subtree was built from are the rows of the data that pass
    through its nodes. *)
Lemma fitted_routed h : forall m t,
  fitted m t -> tree_at h t -> NoDup (locs t) ->
  Forall (fun row => length row = ncols m) (rows m) ->
  forall fuel l o, height t < fuel -> l ∈ locs t -> h !! l = Some o ->
  nsamples o = hist (map label (List.filter (passes fuel h (root t) l) (rows m))).
Proof.
  intros m t Hf. induction Hf as
    [m Y l0 o0 Hc Hn Hne Hh Hkids Hattr Hwhy
    |m Y a Xa l0 o0 ks Hc Hn Hne Hh Hd Hattr Ha Hca Hg Hmax Hkeys Hfits IH]
    using fitted_ind'; intros Hat Hnd Hwf fuel l o Hfuel Hl Ho.
  - inversion Hat as [? ? ? Ho0 _ _]; subst.
    simpl in Hl. apply list_elem_of_singleton in Hl as ->.
    assert (o = o0) as -> by congruence.
    destruct fuel as [|fuel]; [lia |].
    rewrite (filter_ext_in _ (fun _ => true)), filter_true.
    + rewrite <- (hist_labels _ _ Hc). exact Hh.
    + intros x _. unfold passes. cbn [path root]. rewrite Ho0, Hkids. simpl.
      rewrite Nat.eqb_refl. reflexivity.
  - inversion Hat as [? ? ? Ho0 Hvals Hatk]; subst.
    destruct fuel as [|fuel]; [lia |].
    assert (Hstart : forall x, passes (S fuel) h l0 l0 x = true).
    { intros x. unfold passes. cbn [path]. rewrite Ho0. simpl.
      rewrite Nat.eqb_refl. reflexivity. }
    simpl in Hl. apply elem_of_cons in Hl as [-> | Hl].
    { assert (o = o0) as -> by congruence.
      rewrite (filter_ext_in _ (fun _ => true)), filter_true
        by (intros x _; apply Hstart).
      rewrite <- (hist_labels _ _ Hc). exact Hh. }
    simpl in Hnd. apply NoDup_cons in Hnd as [Hl0 Hnd].
    assert (Hll0 : l <> l0).
    { intros ->. contradiction. }
    apply elem_of_flat_map in Hl as (k & Hk & Hlk).
    apply list_elem_of_lookup_1 in Hk as [j Hj].
    destruct (Forall2_lookup_r _ _ _ _ _ Hfits Hj) as (v & Hv & Hfk).
    destruct (Forall2_lookup_r _ _ _ _ _ IH Hj) as (v' & Hv' & IHk).
    assert (v' = v) as -> by congruence.
    assert (Hki : k ∈ ks) by (eapply list_elem_of_lookup_2; eauto).
    assert (Hatk' : tree_at h k) by (rewrite Forall_forall in Hatk; auto).
    assert (Hlen : length Xa = length (rows m)) by (eapply column_length; eauto).
    assert (Hndk : NoDup (locs k)).
    { clear - Hnd Hki. induction ks as [|k' ks IHks];
        [apply elem_of_nil in Hki; contradiction |].
      simpl in Hnd. apply NoDup_app in Hnd as (Hk' & _ & Hks).
      apply elem_of_cons in Hki as [-> | Hki]; auto. }
    assert (Hhk : height k < fuel).
    { pose proof (height_subtree (T l0 o0 ks) k Hki). lia. }
    rewrite (IHk Hatk' Hndk (take_rows_wf _ _ _ Hlen Hwf) fuel l o Hhk Hlk Ho).
    f_equal. f_equal.
    rewrite (rows_take_rows m a Xa v ltac:(lia) Hca), filter_filter.
    apply filter_ext_in. intros x Hx.
    assert (Hxlen : length x = ncols m).
    { rewrite List.Forall_forall in Hwf. apply Hwf, Hx. }
    set (w := nth (Z.to_nat a) x 0%Z).
    assert (Hw : In w (np_unique Xa)).
    { apply np_unique_In. rewrite (column_range m a Xa ltac:(lia) Hca).
      apply in_map_iff. exists x. split; [reflexivity | exact Hx]. }
    apply list_elem_of_In, list_elem_of_lookup_1 in Hw as [jw Hjw].
    destruct (Forall2_lookup_l _ _ _ _ _ Hfits Hjw) as (kw & Hkw & _).
    assert (Hget : dict_get (children o0) w = Some (root kw)).
    { apply (dict_get_lookup _ jw).
      - rewrite Hkeys. apply np_unique_NoDup.
      - rewrite Hkeys. exact Hjw.
      - unfold dict_values in Hvals. rewrite Hvals, list_lookup_fmap, Hkw. reflexivity. }
    assert (Hpass : passes (S fuel) h l0 l x = passes fuel h (root kw) l x).
    { unfold passes. cbn [path]. rewrite Ho0, Hattr.
      destruct (children o0) as [|e d] eqn:Hch; [discriminate |].
      rewrite (np_index_range x a) by (rewrite Hxlen; lia). fold w. rewrite Hget.
      cbn [existsb]. destruct (Nat.eqb_spec l l0); [contradiction | reflexivity]. }
    cbn [root]. rewrite Hpass.
    destruct (Z.eqb_spec w v) as [E|E].
    + assert (jw = j).
      { eapply NoDup_lookup; [| exact Hjw | rewrite E; exact Hv].
        apply NoDup_ListNoDup, np_unique_NoDup. }
      subst jw. assert (kw = k) as -> by congruence. reflexivity.
    + cbn [andb]. symmetry. apply passes_false_outside.
      * rewrite Forall_forall in Hatk. apply Hatk. eapply list_elem_of_lookup_2; eauto.
      * assert (Hjj : jw <> j) by (intros ->; congruence).
        intros Hin. clear - Hnd Hj Hkw Hjj Hin Hlk.
        revert jw j Hj Hkw Hjj.
        induction ks as [|k0 ks IHks]; intros jw j Hj Hkw Hjj; [destruct j; discriminate |].
        simpl in Hnd. apply NoDup_app in Hnd as (_ & Hdisj & Hks).
        destruct j as [|j]; destruct jw as [|jw]; simpl in *; try congruence.
        -- injection Hj as ->. apply (Hdisj l Hlk).
           apply elem_of_flat_map. exists kw. split; [| exact Hin].
           eapply list_elem_of_lookup_2; eauto.
        -- injection Hkw as ->. apply (Hdisj l Hin).
           apply elem_of_flat_map. exists k. split; [| exact Hlk].
           eapply list_elem_of_lookup_2; eauto.
        -- eapply (IHks Hks jw j); eauto.
Qed.

(** X20. What the class counts count.  In a built tree the histogram of a
    node is the histogram of the labels of exactly those training rows
    whose [_predict] walk from the root passes through the node: slot [k]
    holds the number of such rows with label [k], and there is at least one
    such row.  The walk is the list [path], whose last node is the one
    whose class [_predict] returns. *)
Theorem nsamples_count_routed_rows fuel m r h n l o :
  DecisionTree_init fuel (IntMat m) = Ok (r, h) ->
  Forall (fun row => length row = ncols m) (rows m) ->
  length h <= n ->
  h !! l = Some o ->
  nsamples o = hist (map label (rows_through n h r m l)) /\
  (forall k, nth k (nsamples o) 0 =
             count_occ Z.eq_dec (map label (rows_through n h r m l)) (Z.of_nat k)) /\
  rows_through n h r m l <> [] /\
  (forall x, In x (rows m) ->
     exists stop ol,
       last (path n h r x) = Some stop /\ h !! stop = Some ol /\
       _predict n h r x = Ok (cls ol)).
Proof.
  intros Hinit Hwf Hn Ho.
  pose proof Hinit as Hi. apply init_fitted in Hi as (t & Hr & Hb & Hf & Hlocs).
  pose proof Hb as (_ & Hat & _ & Hok).
  assert (Hnd : NoDup (locs t)) by (rewrite Hlocs; apply NoDup_seq).
  assert (Hl : l ∈ locs t).
  { rewrite Hlocs. apply elem_of_seq. apply lookup_lt_Some in Ho. lia. }
  assert (Hh : height t < n).
  { pose proof (height_lt_size t) as Hlt.
    rewrite size_length_locs, Hlocs, length_seq in Hlt. lia. }
  pose proof (fitted_routed h m t Hf Hat Hnd Hwf n l o Hh Hl Ho) as Hrouted.
  rewrite Hr in Hrouted. fold (rows_through n h r m l) in Hrouted.
  assert (Hnn : nonneg (map label (rows_through n h r m l))).
  { apply fitted_root_hist in Hf as (Y & Hc & HnY & _).
    apply List.Forall_forall. intros y Hy.
    apply in_map_iff in Hy as (x & <- & Hx).
    unfold rows_through in Hx. apply filter_In in Hx as [Hx _].
    apply (nonneg_In Y); [exact HnY |].
    rewrite (hist_labels _ _ Hc). apply in_map. exact Hx. }
  split; [exact Hrouted |]. split; [| split].
  - intros k. rewrite Hrouted. apply hist_nth, Hnn.
  - intros Hnil.
    pose proof (tree_all_lookup _ _ _ _ _ Hat Hok Hl Ho) as (Hne & _).
    rewrite Hrouted, Hnil in Hne. apply Hne. reflexivity.
  - intros x Hx.
    assert (Hxlen : ncols m <= length x).
    { rewrite List.Forall_forall in Hwf. rewrite (Hwf x Hx). lia. }
    destruct (predict_tree h x t Hat (tree_all_wider _ _ _ Hxlen Hok))
      as (stop & os & _ & _ & _ & Hpred).
    specialize (Hpred n Hh). rewrite Hr in Hpred.
    destruct (predict_path h x n r _ Hpred) as (stop' & ol & Hlast & Hol & Hcls).
    exists stop', ol. split; [exact Hlast |]. split; [exact Hol |].
    rewrite Hpred, Hcls. reflexivity.
Qed.

(** ** When the tree fits its training set *)

Lemma passes_leaf_last h x l ol : forall fuel n,
  h !! l = Some ol -> children ol = [] ->
  passes fuel h n l x = true -> last (path fuel h n x) = Some l.
Proof.
  induction fuel as [|fuel IH]; intros n Hl Hk Hp; [discriminate |].
  unfold passes in *. cbn [path] in *.
  destruct (h !! n) as [o|] eqn:Ho; [| discriminate].
  cbn [existsb] in Hp. apply orb_true_iff in Hp as [Hp|Hp].
  - apply Nat.eqb_eq in Hp. subst n. assert (o = ol) as -> by congruence.
    rewrite Hk. reflexivity.
  - destruct (children o) as [|e d]; [discriminate |].
    destruct (attr_idx o) as [a|]; [| discriminate].
    destruct (np_index x a) as [v|err]; [| discriminate].
    destruct (dict_get (e :: d) v) as [child|]; [| discriminate].
    specialize (IH child Hl Hk Hp).
    destruct (path fuel h child x) as [|y ys]; [discriminate |].
    rewrite last_cons, IH. reflexivity.
Qed.

Lemma count_correct_all : forall actual ps,
  length actual = length ps ->
  (count_correct actual ps = length actual <->
   forall i a p, actual !! i = Some a -> ps !! i = Some p -> a = Z.of_nat p).
Proof.
  induction actual as [|a actual IH]; intros [|p ps] Hlen; try discriminate.
  - split; [intros _ i a p Hi; discriminate | reflexivity].
  - simpl in Hlen. injection Hlen as Hlen. specialize (IH ps Hlen).
    pose proof (count_correct_le actual ps) as Hle.
    unfold count_correct in *. rewrite py_sum_list_sum in *. simpl.
    destruct (Z.eqb_spec a (Z.of_nat p)) as [E|E].
    + split.
      * intros Hc i a' p' Hi Hp. destruct i as [|i]; simpl in *; [congruence |].
        apply (proj1 IH ltac:(lia) i); assumption.
      * intros Hall. f_equal. apply IH. intros i a' p' Hi Hp.
        apply (Hall (S i)); assumption.
    + split; [intros Hc; lia |].
      intros Hall. exfalso. apply E. apply (Hall 0); reflexivity.
Qed.

(** The walk of a training row, as a path: it ends at a leaf. *)
Lemma fitted_path_leaf h : forall m t,
  fitted m t -> tree_at h t ->
  Forall (fun row => length row = ncols m) (rows m) ->
  forall x fuel, In x (rows m) -> height t < fuel ->
  exists leaf o,
    last (path fuel h (root t) x) = Some leaf /\ h !! leaf = Some o /\
    children o = [] /\ _predict fuel h (root t) x = Ok (cls o).
Proof.
  intros m t Hf. induction Hf as
    [m Y l o Hc Hn Hne Hh Hkids Hattr Hwhy
    |m Y a Xa l o ks Hc Hn Hne Hh Hd Hattr Ha Hca Hg Hmax Hkeys Hfits IH]
    using fitted_ind'; intros Hat Hwf x fuel Hx Hfuel.
  - inversion Hat as [? ? ? Hl _ _]; subst.
    destruct fuel as [|fuel]; [lia |].
    exists l, o.
    split; [cbn [path root]; rewrite Hl, Hkids; reflexivity |].
    split; [exact Hl |]. split; [exact Hkids |].
    apply (predict_leaf _ _ _ _ _ Hl Hkids).
  - inversion Hat as [? ? ? Hl Hvals Hatk]; subst.
    destruct fuel as [|fuel]; [lia |].
    set (v := nth (Z.to_nat a) x 0%Z).
    assert (Hv : In v (np_unique Xa)).
    { apply np_unique_In. rewrite (column_range m a Xa ltac:(lia) Hca).
      apply in_map_iff. exists x. split; [reflexivity | exact Hx]. }
    apply list_elem_of_In, list_elem_of_lookup_1 in Hv as [j Hj].
    destruct (Forall2_lookup_l _ _ _ _ _ IH Hj) as (k & Hk & IHk).
    assert (Hki : k ∈ ks) by (eapply list_elem_of_lookup_2; eauto).
    assert (Hatk' : tree_at h k) by (rewrite Forall_forall in Hatk; auto).
    assert (Hlen : length Xa = length (rows m)) by (eapply column_length; eauto).
    assert (Hxk : In x (rows (take_rows m (np_where_eq Xa v)))).
    { rewrite (rows_take_rows m a Xa v ltac:(lia) Hca). apply filter_In.
      split; [exact Hx | apply Z.eqb_refl]. }
    assert (Hhk : height k < fuel).
    { pose proof (height_subtree (T l o ks) k Hki). lia. }
    destruct (IHk Hatk' (take_rows_wf _ _ _ Hlen Hwf) x fuel Hxk Hhk)
      as (leaf & ol & Hlast & Hol & Hempty & Hpred).
    assert (Hxlen : length x = ncols m).
    { rewrite List.Forall_forall in Hwf. apply Hwf, Hx. }
    assert (Hidx : np_index x a = Ok v).
    { apply np_index_range. rewrite Hxlen. lia. }
    assert (Hget : dict_get (children o) v = Some (root k)).
    { apply (dict_get_lookup _ j).
      - rewrite Hkeys. apply np_unique_NoDup.
      - rewrite Hkeys. exact Hj.
      - unfold dict_values in Hvals. rewrite Hvals, list_lookup_fmap, Hk. reflexivity. }
    exists leaf, ol. split; [| split; [exact Hol | split; [exact Hempty |]]].
    + cbn [path root]. rewrite Hl, Hattr.
      destruct (children o) as [|e d] eqn:Hch; [discriminate |].
      rewrite Hidx, Hget.
      destruct (path fuel h (root k) x) as [|y ys]; [discriminate |].
      rewrite last_cons, Hlast. reflexivity.
    + cbn [root]. rewrite (predict_descend _ _ _ _ _ _ _ _ Hl Hattr Hidx Hget).
      exact Hpred.
Qed.

Lemma last_In {A} (l : list A) x : last l = Some x -> In x l.
Proof.
  induction l as [|y l IH]; [discriminate |].
  destruct l as [|z l]; [intros [= ->]; left; reflexivity |].
  rewrite last_cons. destruct (last (z :: l)) as [w|] eqn:E; intros [= <-];
    [right; apply IH; reflexivity | left; reflexivity].
Qed.

(** X21. The unpruned tree reproduces all its training labels exactly when
    every leaf is pure: the number of training rows that [_predict]
    classifies as labelled equals the number of rows if and only if the
    histogram of every leaf is zero outside the slot of its class. *)
Theorem training_fit_iff_pure_leaves fuel m r h n :
  DecisionTree_init fuel (IntMat m) = Ok (r, h) ->
  Forall (fun row => length row = ncols m) (rows m) ->
  length h <= n ->
  exists Y ps,
    column m 0 = Ok Y /\ predict_all n h r (rows m) = Ok ps /\
    (count_correct Y ps = length (rows m) <->
     forall l o, h !! l = Some o -> children o = [] ->
       forall k, k <> cls o -> nth k (nsamples o) 0 = 0).
Proof.
  intros Hinit Hwf Hn.
  pose proof Hinit as Hi. apply init_fitted in Hi as (t & Hr & Hb & Hf & Hlocs).
  pose proof Hb as (_ & Hat & _ & Hok).
  assert (Hnd : NoDup (locs t)) by (rewrite Hlocs; apply NoDup_seq).
  assert (Hh : height t < n).
  { pose proof (height_lt_size t) as Hlt.
    rewrite size_length_locs, Hlocs, length_seq in Hlt. lia. }
  pose proof (fitted_root_hist _ _ Hf) as (Y & Hc & HnY & _).
  pose proof (hist_labels _ _ Hc) as HY.
  assert (Hrouted : forall l o, h !! l = Some o ->
            nsamples o = hist (map label (rows_through n h r m l)) /\
            nonneg (map label (rows_through n h r m l))).
  { intros l o Ho.
    assert (Hl : l ∈ locs t).
    { rewrite Hlocs. apply elem_of_seq. apply lookup_lt_Some in Ho. lia. }
    pose proof (fitted_routed h m t Hf Hat Hnd Hwf n l o Hh Hl Ho) as Hro.
    rewrite Hr in Hro. split; [exact Hro |].
    apply List.Forall_forall. intros y Hy.
    apply in_map_iff in Hy as (x & <- & Hx).
    unfold rows_through in Hx. apply filter_In in Hx as [Hx _].
    apply (nonneg_In Y); [exact HnY |]. rewrite HY. apply in_map. exact Hx. }
  assert (Hleaf : forall x, In x (rows m) ->
            exists leaf o, last (path n h r x) = Some leaf /\ h !! leaf = Some o /\
              children o = [] /\ _predict n h r x = Ok (cls o)).
  { intros x Hx. rewrite <- Hr. apply (fitted_path_leaf h m t Hf Hat Hwf x n Hx Hh). }
  destruct (predict_all_ok n h r (rows m)) as (ps & Hps & Hlen & Hall).
  { intros x Hx. apply list_elem_of_In in Hx.
    destruct (Hleaf x Hx) as (leaf & o & _ & _ & _ & Hp). eauto. }
  exists Y, ps. split; [exact Hc |]. split; [exact Hps |].
  rewrite <- (column_length _ _ _ Hc).
  rewrite count_correct_all by (rewrite (column_length _ _ _ Hc); lia).
  split.
  - intros Hcorrect l o Ho Hempty k Hk.
    destruct (Hrouted l o Ho) as [Hns Hnn].
    rewrite Hns, (hist_nth _ _ Hnn). unfold cnt.
    destruct (count_occ Z.eq_dec (map label (rows_through n h r m l)) (Z.of_nat k))
      eqn:E; [reflexivity | exfalso].
    assert (Hin : In (Z.of_nat k) (map label (rows_through n h r m l))).
    { apply (count_occ_In Z.eq_dec). lia. }
    apply in_map_iff in Hin as (x & Hlab & Hx).
    unfold rows_through in Hx. apply filter_In in Hx as [Hx Hpass].
    pose proof (passes_leaf_last h x l o n r Ho Hempty Hpass) as Hlast.
    destruct (Hleaf x Hx) as (leaf & ol & Hlast' & Hol & _ & Hp).
    assert (leaf = l) by congruence. subst leaf.
    assert (ol = o) by congruence. subst ol.
    apply list_elem_of_In, list_elem_of_lookup_1 in Hx as [i Hi].
    destruct (Hall i x Hi) as (p & Hpi & Hp').
    assert (p = cls o) by congruence. subst p.
    assert (HYi : Y !! i = Some (label x)).
    { rewrite HY, list_lookup_fmap, Hi. reflexivity. }
    specialize (Hcorrect i _ _ HYi Hpi). lia.
  - intros Hpure i a p Ha Hp.
    rewrite HY, list_lookup_fmap in Ha.
    destruct (rows m !! i) as [x|] eqn:Hi; [| discriminate]. injection Ha as <-.
    destruct (Hall i x Hi) as (p' & Hpi & Hp'). assert (p' = p) as -> by congruence.
    assert (Hx : In x (rows m)).
    { apply list_elem_of_In. eapply list_elem_of_lookup_2; eauto. }
    destruct (Hleaf x Hx) as (leaf & o & Hlast & Ho & Hempty & Hpo).
    assert (p = cls o) as -> by congruence.
    destruct (Hrouted leaf o Ho) as [Hns Hnn].
    assert (Hthrough : In x (rows_through n h r m leaf)).
    { unfold rows_through. apply filter_In. split; [exact Hx |].
      unfold passes. apply existsb_exists. exists leaf.
      split; [apply last_In; exact Hlast | apply Nat.eqb_refl]. }
    assert (Hy0 : (0 <= label x)%Z).
    { apply (nonneg_In _ _ Hnn). apply in_map. exact Hthrough. }
    destruct (Nat.eq_dec (Z.to_nat (label x)) (cls o)) as [E|E]; [lia | exfalso].
    specialize (Hpure leaf o Ho Hempty _ E).
    rewrite Hns, (hist_nth _ _ Hnn) in Hpure. unfold cnt in Hpure.
    rewrite Z2Nat.id in Hpure by exact Hy0.
    assert (Hin : In (label x) (map label (rows_through n h r m leaf)))
      by (apply in_map; exact Hthrough).
    apply (count_occ_In Z.eq_dec) in Hin. lia.
Qed.

(** ** [accuracy] *)

(** X22. [accuracy] does not distinguish its two arguments: on class
    labels, exchanging the actual and the predicted list gives the same
    outcome, value or exception (q1_nb.py passes the predictions first). *)
Theorem accuracy_symmetric (a p : list nat) :
  accuracy (map Z.of_nat a) p = accuracy (map Z.of_nat p) a.
Proof.
  rewrite !accuracy_outcome, !length_map.
  rewrite (Nat.eqb_sym (length a) (length p)).
  destruct (Nat.eqb_spec (length p) (length a)) as [Hlen|Hlen]; [| reflexivity].
  cbn [negb]. rewrite Hlen.
  assert (Hc : count_correct (map Z.of_nat a) p = count_correct (map Z.of_nat p) a).
  { unfold count_correct. rewrite !py_sum_list_sum. clear Hlen. revert p.
    induction a as [|x a IH]; intros [|y p]; try reflexivity. simpl.
    rewrite IH, (Z.eqb_sym (Z.of_nat x) (Z.of_nat y)). reflexivity. }
  rewrite Hc. reflexivity.
Qed.

(** ** [chunks] *)

Lemma chunks_concat {A} (s : nat) : forall k (l : list A),
  length l <= k * s ->
  concat (map (fun i => py_slice l i (i + s)) (map (fun j => j * s) (seq 0 k))) = l.
Proof.
  induction k as [|k IH]; intros l Hlen.
  - destruct l; [reflexivity | simpl in Hlen; lia].
  - rewrite <- cons_seq, <- seq_shift, !map_cons, !map_map. cbn [concat].
    unfold py_slice at 1. simpl skipn.
    replace (0 * s + s - 0 * s) with s by lia.
    transitivity (firstn s l ++ skipn s l); [| apply firstn_skipn].
    apply (f_equal2 (@app A)); [reflexivity |].
    etransitivity; [| apply (IH (skipn s l)); rewrite length_skipn; lia].
    rewrite map_map. apply (f_equal (@concat A)). apply map_ext. intros j.
    unfold py_slice. rewrite skipn_skipn.
    replace (S j * s + s - S j * s) with (j * s + s - j * s) by lia.
    replace (S j * s) with (j * s + s) by lia. reflexivity.
Qed.

Lemma div_ceil_bounds len s :
  0 < s ->
  len <= (len + s - 1) / s * s /\
  (0 < len -> ((len + s - 1) / s - 1) * s < len /\ 0 < (len + s - 1) / s).
Proof.
  intros Hs. pose proof (Nat.div_mod_eq (len + s - 1) s) as Hdm.
  pose proof (Nat.mod_upper_bound (len + s - 1) s ltac:(lia)) as Hr.
  set (k := (len + s - 1) / s) in *. set (r := (len + s - 1) mod s) in *.
  split; [nia |]. intros Hlen.
  assert (0 < k) by (destruct k; [nia | lia]).
  split; [nia | assumption].
Qed.

(** X23. [chunks(l, n)] for a positive [n] cuts [l] into consecutive
    slices: their concatenation is [l]; there are [ceil(len(l) / n)] of
    them; none is empty or longer than [n]; all but the last have exactly
    [n] elements.  A zero [n] raises [ValueError] and a negative [n]
    yields nothing at all. *)
Theorem chunks_partition {A} (l : list A) (n : Z) :
  ((n = 0)%Z -> chunks l n = Raise ValueError) /\
  ((n < 0)%Z -> chunks l n = Ok []) /\
  ((0 < n)%Z ->
   exists cs,
     chunks l n = Ok cs /\ concat cs = l /\
     length cs = (length l + Z.to_nat n - 1) / Z.to_nat n /\
     Forall (fun c => 0 < length c <= Z.to_nat n) cs /\
     forall i c, cs !! i = Some c -> S i < length cs -> length c = Z.to_nat n).
Proof.
  unfold chunks, py_range_from0. split; [intros ->; reflexivity |].
  split.
  { intros Hn. destruct (Z.eqb_spec n 0); [lia |].
    destruct (Z.ltb_spec n 0); [reflexivity | lia]. }
  intros Hn. destruct (Z.eqb_spec n 0); [lia |].
  destruct (Z.ltb_spec n 0); [lia |]. rewrite bind_Ok.
  set (s := Z.to_nat n). assert (Hs : 0 < s) by (unfold s; lia).
  set (k := (length l + s - 1) / s).
  destruct (div_ceil_bounds (length l) s Hs) as [Hup Hlow]. fold k in Hup, Hlow.
  eexists. split; [reflexivity |].
  split; [apply chunks_concat; exact Hup |].
  split; [rewrite !length_map, length_seq; reflexivity |].
  assert (Hc : forall i c,
            map (fun i => py_slice l i (i + s)) (map (fun j => j * s) (seq 0 k)) !! i
              = Some c ->
            i < k /\ length c = Nat.min s (length l - i * s)).
  { intros i c Hi. rewrite !list_lookup_fmap in Hi.
    destruct (seq 0 k !! i) as [j|] eqn:Hj; [| discriminate].
    apply lookup_seq in Hj as [-> Hik]. simpl in Hi. injection Hi as <-.
    split; [exact Hik |]. unfold py_slice.
    rewrite length_firstn, length_skipn. f_equal. lia. }
  assert (Hpos : forall i, i < k -> (k - 1) * s < length l).
  { intros i Hik. apply Hlow.
    destruct (Nat.eq_dec (length l) 0) as [E|E]; [exfalso | lia].
    unfold k in Hik. rewrite E, Nat.div_small in Hik; lia. }
  split.
  - apply Forall_forall. intros c Hin. apply list_elem_of_lookup_1 in Hin as [i Hi].
    destruct (Hc i c Hi) as [Hik ->]. specialize (Hpos i Hik).
    assert (i * s <= (k - 1) * s) by nia. lia.
  - intros i c Hi Hnext. destruct (Hc i c Hi) as [Hik ->].
    rewrite !length_map, length_seq in Hnext. specialize (Hpos i Hik).
    assert (S i * s <= (k - 1) * s) by nia. lia.
Qed.

Lemma chunks_partition_witness :
  (0 < 2)%Z /\
  exists cs,
    chunks [1; 2; 3; 4; 5] 2 = Ok cs /\ concat cs = [1; 2; 3; 4; 5] /\
    length cs = (length [1; 2; 3; 4; 5] + Z.to_nat 2 - 1) / Z.to_nat 2 /\
    Forall (fun c => 0 < length c <= Z.to_nat 2) cs /\
    forall i c, cs !! i = Some c -> S i < length cs -> length c = Z.to_nat 2.
Proof.
  assert (Hn : (0 < 2)%Z) by lia.
  split; [exact Hn |].
  exact (proj2 (proj2 (chunks_partition [1; 2; 3; 4; 5] 2)) Hn).
Defined.

(** ** [one_hot_encode] *)

Lemma insert_repeat {A} (z v : A) : forall n i,
  i < n -> <[i := v]> (repeat z n) = repeat z i ++ v :: repeat z (n - i - 1).
Proof.
  induction n as [|n IH]; intros i Hi; [lia |].
  destruct i as [|i]; simpl.
  - rewrite Nat.sub_0_r. reflexivity.
  - rewrite IH by lia. reflexivity.
Qed.

Lemma lookup_repeat {A} (z : A) : forall n i, i < n -> repeat z n !! i = Some z.
Proof.
  induction n as [|n IH]; intros i Hi; [lia |].
  destruct i as [|i]; [reflexivity |]. simpl. apply IH. lia.
Qed.

Lemma argmaxf_from_zeros_after_one bi : forall k i,
  argmaxf_from bi float_one i (repeat Float64.zero k) = bi.
Proof.
  induction k as [|k IH]; intros i; [reflexivity |].
  cbn [repeat argmaxf_from].
  assert (PrimFloat.leb Float64.zero float_one = true) as -> by reflexivity.
  apply IH.
Qed.

Lemma argmaxf_from_zeros_then_one : forall k i rest,
  argmaxf_from 0 Float64.zero i
    (repeat Float64.zero k ++ float_one :: repeat Float64.zero rest) = i + k.
Proof.
  induction k as [|k IH]; intros i rest; cbn [repeat app argmaxf_from].
  - assert (PrimFloat.leb float_one Float64.zero = false) as -> by reflexivity.
    assert (is_nan float_one = false) as -> by reflexivity.
    cbn [negb]. rewrite argmaxf_from_zeros_after_one. lia.
  - assert (PrimFloat.leb Float64.zero Float64.zero = true) as -> by reflexivity.
    cbn [negb]. rewrite IH. lia.
Qed.

(** X24. [one_hot_encode(cls, num_classes)] for a class in range returns a
    vector of [num_classes] entries, 1.0 at index [cls] and 0.0 elsewhere,
    and [argmax] of that vector is [cls] again; a negative [cls] down to
    [-num_classes] counts from the end, any other [cls] raises
    [IndexError], and a negative [num_classes] raises [ValueError]. *)
Theorem one_hot_encode_argmax (cls num_classes : Z) :
  ((num_classes < 0)%Z -> one_hot_encode cls num_classes = Raise ValueError) /\
  ((0 <= num_classes)%Z -> (cls < - num_classes \/ num_classes <= cls)%Z ->
   one_hot_encode cls num_classes = Raise IndexError) /\
  ((- num_classes <= cls < num_classes)%Z ->
   exists y,
     one_hot_encode cls num_classes = Ok y /\
     length y = Z.to_nat num_classes /\
     y !! wrap_index num_classes cls = Some float_one /\
     (forall j, j <> wrap_index num_classes cls -> j < length y ->
        y !! j = Some Float64.zero) /\
     argmaxf y = Ok (wrap_index num_classes cls)).
Proof.
  unfold one_hot_encode, np_zeros. split; [| split].
  - intros Hn. destruct (Z.ltb_spec num_classes 0); [reflexivity | lia].
  - intros Hn Hc. destruct (Z.ltb_spec num_classes 0); [lia |].
    rewrite bind_Ok, repeat_length. unfold np_axis_index.
    rewrite Z2Nat.id by lia.
    destruct (Z.leb_spec 0 cls); destruct (Z.ltb_spec cls num_classes);
      destruct (Z.leb_spec (- num_classes) cls); destruct (Z.ltb_spec cls 0);
      simpl; try reflexivity; lia.
  - intros Hc. set (i := wrap_index num_classes cls).
    destruct (Z.ltb_spec num_classes 0); [lia |].
    rewrite bind_Ok, repeat_length.
    assert (Hidx : np_axis_index (Z.to_nat num_classes) cls = Ok i).
    { unfold np_axis_index, i, wrap_index. rewrite Z2Nat.id by lia.
      destruct (Z.leb_spec 0 cls); destruct (Z.ltb_spec cls num_classes);
        destruct (Z.leb_spec (- num_classes) cls); destruct (Z.ltb_spec cls 0);
        simpl; try reflexivity; lia. }
    assert (Hi : i < Z.to_nat num_classes).
    { unfold i, wrap_index. destruct (Z.ltb_spec cls 0); lia. }
    rewrite Hidx, bind_Ok. eexists. split; [reflexivity |].
    split; [rewrite length_insert; apply repeat_length |].
    split; [apply list_lookup_insert_eq; rewrite repeat_length; exact Hi |].
    split.
    + intros j Hj Hlt. rewrite length_insert, repeat_length in Hlt.
      rewrite list_lookup_insert_ne by congruence.
      apply lookup_repeat. exact Hlt.
    + rewrite (insert_repeat _ _ _ _ Hi).
      destruct i as [|i']; cbn [repeat app argmaxf].
      * assert (is_nan float_one = false) as -> by reflexivity.
        rewrite argmaxf_from_zeros_after_one. reflexivity.
      * assert (is_nan Float64.zero = false) as -> by reflexivity.
        rewrite argmaxf_from_zeros_then_one. f_equal.
Qed.

Lemma one_hot_encode_argmax_witness :
  (- 2 <= 1 < 2)%Z /\
  exists y,
    one_hot_encode 1 2 = Ok y /\
    length y = Z.to_nat 2 /\
    y !! 1 = Some float_one /\
    (forall j, j <> 1 -> j < length y -> y !! j = Some Float64.zero) /\
    argmaxf y = Ok 1.
Proof.
  assert (Hc : (- 2 <= 1 < 2)%Z) by lia.
  split; [exact Hc |].
  exact (proj2 (proj2 (one_hot_encode_argmax 1 2)) Hc).
Defined.

(** ** The order of the training rows *)

Lemma amax_perm Y Y' : Y ≡ₚ Y' -> amax Y = amax Y'.
Proof.
  unfold amax. induction 1 as [|x l l' _ IH|x y l|l1 l2 l3 _ IH1 _ IH2]; simpl;
    [reflexivity | rewrite IH; reflexivity | lia | congruence].
Qed.

Lemma hist_perm Y Y' : Y ≡ₚ Y' -> hist Y = hist Y'.
Proof.
  intros Hp. destruct Y as [|y Y0] eqn:EY.
  { apply Permutation_nil in Hp. subst. reflexivity. }
  destruct Y' as [|y' Y0'] eqn:EY'.
  { symmetry in Hp. apply Permutation_nil in Hp. discriminate. }
  rewrite <- EY, <- EY' in *.
  assert (hist Y = map (cnt Y) (seq 0 (S (Z.to_nat (amax Y))))) as ->
    by (rewrite EY; reflexivity).
  assert (hist Y' = map (cnt Y') (seq 0 (S (Z.to_nat (amax Y'))))) as ->
    by (rewrite EY'; reflexivity).
  rewrite (amax_perm _ _ Hp). apply map_ext. intros k. unfold cnt.
  apply Permutation_count_occ. exact Hp.
Qed.

Lemma nonneg_perm Y Y' : Y ≡ₚ Y' -> nonneg Y -> nonneg Y'.
Proof. intros Hp Hn. unfold nonneg in *. rewrite <- Hp. exact Hn. Qed.

Lemma distinct_perm Y Y' : Y ≡ₚ Y' -> distinct Y = distinct Y'.
Proof.
  intros Hp. unfold distinct. apply Permutation_length, Permutation.NoDup_Permutation.
  - apply List.NoDup_nodup.
  - apply List.NoDup_nodup.
  - intros x. rewrite !nodup_In. split; apply Permutation_in; [| symmetry]; exact Hp.
Qed.

Lemma entropy_val_perm Y Y' : Y ≡ₚ Y' -> entropy_val Y = entropy_val Y'.
Proof.
  intros Hp. unfold entropy_val.
  rewrite (hist_perm _ _ Hp), (Permutation_length Hp). reflexivity.
Qed.

Lemma np_unique_perm X X' : X ≡ₚ X' -> np_unique X = np_unique X'.
Proof.
  intros Hp. apply sorted_lt_unique; [apply np_unique_sorted | apply np_unique_sorted |].
  intros x. rewrite !np_unique_In. split; apply Permutation_in; [| symmetry]; exact Hp.
Qed.

Lemma select_map {A} (fa f0 : A -> Z) v (rs : list A) :
  select (map fa rs) (map f0 rs) v =
  map f0 (List.filter (fun r => (fa r =? v)%Z) rs).
Proof.
  unfold select. induction rs as [|r rs IH]; [reflexivity |]. simpl.
  destruct (fa r =? v)%Z; simpl; rewrite IH; reflexivity.
Qed.

Lemma filter_perm {A} (f : A -> bool) l l' :
  l ≡ₚ l' -> List.filter f l ≡ₚ List.filter f l'.
Proof.
  induction 1 as [|x l l' _ IH|x y l|l1 l2 l3 _ IH1 _ IH2]; simpl.
  - reflexivity.
  - destruct (f x); [constructor |]; exact IH.
  - destruct (f x), (f y); try reflexivity. constructor.
  - etransitivity; eauto.
Qed.

Lemma gain_of_perm {A} (fa f0 : A -> Z) rs rs' :
  rs ≡ₚ rs' ->
  gain_of (map f0 rs) (map fa rs) = gain_of (map f0 rs') (map fa rs').
Proof.
  intros Hp. unfold gain_of.
  rewrite !cond_entropy_values by (rewrite !length_map; reflexivity).
  rewrite (entropy_val_perm (map f0 rs) (map f0 rs')) by (apply Permutation_map, Hp).
  rewrite (np_unique_perm (map fa rs) (map fa rs')) by (apply Permutation_map, Hp).
  f_equal. apply fold_left_ext_in. intros v _ s. rewrite !select_map, !length_map.
  pose proof (filter_perm (fun r => (fa r =? v)%Z) _ _ Hp) as Hf.
  rewrite (Permutation_length Hp).
  rewrite (proj1 (Permutation_count_occ Z.eq_dec _ _) (Permutation_map fa Hp) v).
  rewrite (entropy_val_perm _ _ (Permutation_map f0 Hf)). reflexivity.
Qed.

Lemma column_map m a :
  column m a = (k ← np_axis_index (ncols m) a;
                Ok (map (fun r => nth k r 0%Z) (rows m))).
Proof. reflexivity. Qed.

Lemma fold_best_step_perm Y Y' : forall cols cols' b,
  Forall2 (fun c c' => fst c = fst c' /\ gain_of Y (snd c) = gain_of Y' (snd c'))
          cols cols' ->
  fold_left (best_step Y) cols b = fold_left (best_step Y') cols' b.
Proof.
  intros cols cols' b HF. revert b.
  induction HF as [|c c' cols cols' [Hfst Hg] _ IH]; intros b; [reflexivity |].
  simpl. rewrite <- IH. f_equal. unfold best_step. rewrite Hfst, Hg. reflexivity.
Qed.

Lemma best_attribute_perm m m' Y :
  ncols m' = ncols m -> rows m ≡ₚ rows m' ->
  column m 0 = Ok Y -> nonneg Y ->
  _best_attribute m' = _best_attribute m.
Proof.
  intros Hnc Hp Hc Hn.
  pose proof (column_0_ncols _ _ Hc) as Hpos.
  assert (HY : Y = map (fun r => nth 0 r 0%Z) (rows m)).
  { apply (column_range m 0 Y); [lia | exact Hc]. }
  assert (Hc' : column m' 0 = Ok (map (fun r => nth 0 r 0%Z) (rows m'))).
  { rewrite column_map, Hnc, (np_axis_index_range _ 0) by lia. reflexivity. }
  rewrite (best_attribute_pure m Y Hc Hn).
  rewrite (best_attribute_pure m' _ Hc').
  2:{ apply (nonneg_perm Y); [| exact Hn]. rewrite HY. apply Permutation_map, Hp. }
  f_equal. symmetry. apply fold_best_step_perm.
  unfold attribute_columns. rewrite Hnc.
  apply Forall2_fmap, Forall_Forall2_diag, Forall_forall. intros i _. simpl.
  split; [reflexivity |]. rewrite HY.
  apply (gain_of_perm (fun r => nth (S i) r 0%Z) (fun r => nth 0 r 0%Z)). exact Hp.
Qed.

Lemma np_bincount_perm Y Y' :
  Y ≡ₚ Y' -> np_bincount (IntVec Y') = np_bincount (IntVec Y).
Proof.
  intros Hp. destruct (decide (nonneg Y)) as [Hn|Hn].
  - rewrite (np_bincount_nonneg Y Hn), (np_bincount_nonneg Y' (nonneg_perm _ _ Hp Hn)).
    rewrite (hist_perm _ _ Hp). reflexivity.
  - rewrite (np_bincount_negative Y Hn), (np_bincount_negative Y'); [reflexivity |].
    intros Hn'. apply Hn. apply (nonneg_perm Y'); [symmetry; exact Hp | exact Hn'].
Qed.

Lemma build_children_perm build m m' V Xa Xa' :
  (forall v h, In v V ->
     build (take_rows m' (np_where_eq Xa' v)) h =
     build (take_rows m (np_where_eq Xa v)) h) ->
  forall h,
  build_children build m' (map (fun v => (v, np_where_eq Xa' v)) V) h =
  build_children build m (map (fun v => (v, np_where_eq Xa v)) V) h.
Proof.
  induction V as [|v V IH]; intros Hb h; [reflexivity |]. simpl.
  rewrite (Hb v h (or_introl eq_refl)).
  destruct (build (take_rows m (np_where_eq Xa v)) h) as [[child h1]|e]; [| reflexivity].
  rewrite !bind_Ok. rewrite IH by (intros v' h' Hv'; apply Hb; right; exact Hv').
  reflexivity.
Qed.

(** [_build_tree] does not look at the order of the rows. *)
Lemma build_tree_perm fuel : forall m m' par h,
  ncols m' = ncols m -> rows m ≡ₚ rows m' ->
  _build_tree fuel (IntMat m') par h = _build_tree fuel (IntMat m) par h.
Proof.
  induction fuel as [|fuel IH]; intros m m' par h Hnc Hp; [reflexivity |].
  rewrite !build_tree_unfold. simpl labels. rewrite !column_map, Hnc.
  destruct (np_axis_index (ncols m) 0) as [k0|e] eqn:Hk0; [| reflexivity].
  rewrite !bind_Ok.
  set (Y := map (fun r => nth k0 r 0%Z) (rows m)).
  set (Y' := map (fun r => nth k0 r 0%Z) (rows m')).
  assert (HpY : Y ≡ₚ Y') by (apply Permutation_map, Hp).
  rewrite (np_bincount_perm Y Y' HpY).
  destruct (np_bincount (IntVec Y)) as [ns|e] eqn:Hns; [| reflexivity].
  rewrite !bind_Ok. rewrite <- (distinct_perm _ _ HpY).
  destruct (distinct Y <=? 1); [reflexivity |].
  apply np_bincount_Ok_nonneg in Hns as [Hn ->].
  assert (Hc : column m 0 = Ok Y) by (rewrite column_map, Hk0; reflexivity).
  rewrite (best_attribute_perm m m' Y Hnc Hp Hc Hn).
  destruct (_best_attribute m) as [[g a]|e]; [| reflexivity]. rewrite !bind_Ok.
  destruct (PrimFloat.ltb Float64.zero g); [| reflexivity].
  destruct (Node_init par (hist Y) (Some a) h) as [[this h1]|e]; [| reflexivity].
  rewrite !bind_Ok, !column_map, Hnc.
  destruct (np_axis_index (ncols m) a) as [ka|e] eqn:Hka; [| reflexivity].
  rewrite !bind_Ok.
  set (Xa := map (fun r => nth ka r 0%Z) (rows m)).
  set (Xa' := map (fun r => nth ka r 0%Z) (rows m')).
  unfold partition.
  rewrite <- (np_unique_perm Xa Xa') by (apply Permutation_map, Hp).
  rewrite (build_children_perm _ m m' (np_unique Xa) Xa Xa'); [reflexivity |].
  intros v h' _. apply IH; [exact Hnc |].
  unfold take_rows, np_where_eq, Xa, Xa'. simpl.
  pose proof (take_rows_filter (fun r => nth ka r 0%Z) v (rows m) []) as H1.
  pose proof (take_rows_filter (fun r => nth ka r 0%Z) v (rows m') []) as H2.
  simpl in H1, H2. rewrite H1, H2.
  apply filter_perm, Hp.
Qed.

(** X25. The tree does not depend on the order of the training rows:
    [DecisionTree] applied to the same rows in another order returns the
    same outcome, and on success the very same tree, node for node. *)
Theorem build_ignores_row_order fuel m m' :
  ncols m' = ncols m -> rows m ≡ₚ rows m' ->
  DecisionTree_init fuel (IntMat m') = DecisionTree_init fuel (IntMat m).
Proof.
  intros Hnc Hp. unfold DecisionTree_init. apply build_tree_perm; assumption.
Qed.

(** ** The walk through a pruned tree *)

Lemma path_nil_pruned h h' x fuel n :
  pruned_from h h' -> path fuel h' n x = [] -> path fuel h n x = [].
Proof.
  intros [Hlen _] Hp. destruct fuel as [|fuel]; [reflexivity |].
  cbn [path] in *. destruct (h' !! n) as [o'|] eqn:Ho'; [discriminate |].
  apply lookup_ge_None in Ho'.
  rewrite (proj2 (lookup_ge_None h n)) by lia. reflexivity.
Qed.

(** The walk through the pruned store is the walk through the original
    store, cut after the first emptied node. *)
Lemma pruned_path h h' x : forall fuel n,
  pruned_from h h' ->
  path fuel h' n x <> [] ->
  exists post,
    path fuel h n x = path fuel h' n x ++ post /\
    (forall l, l ∈ removelast (path fuel h' n x) -> ¬ emptied h h' l) /\
    (post <> [] ->
     exists stop, last (path fuel h' n x) = Some stop /\ emptied h h' stop).
Proof.
  induction fuel as [|fuel IH]; intros n Hfr Hne; [contradiction |].
  cbn [path] in *.
  destruct (h' !! n) as [o'|] eqn:Ho'; [| contradiction].
  destruct (pruned_from_inv _ _ _ _ Hfr Ho') as (o & Ho & _ & _ & _ & Hattr & Hkids).
  rewrite Ho.
  assert (Hnot : children o' = children o -> ¬ emptied h h' n).
  { intros E (o1 & o2 & H1 & H2 & H3 & H4). congruence. }
  destruct Hkids as [Hk | Hk].
  - rewrite Hk, Hattr.
    destruct (children o) as [|e d] eqn:Hch.
    { exists []. split; [reflexivity |]. split; [| congruence].
      intros l Hl. apply elem_of_nil in Hl. contradiction. }
    destruct (attr_idx o) as [a|].
    2:{ exists []. split; [reflexivity |]. split; [| congruence].
        intros l Hl. apply elem_of_nil in Hl. contradiction. }
    destruct (np_index x a) as [v|err].
    2:{ exists []. split; [reflexivity |]. split; [| congruence].
        intros l Hl. apply elem_of_nil in Hl. contradiction. }
    destruct (dict_get (e :: d) v) as [child|].
    2:{ exists []. split; [reflexivity |]. split; [| congruence].
        intros l Hl. apply elem_of_nil in Hl. contradiction. }
    destruct (path fuel h' child x) as [|y ys] eqn:Hp'.
    + exists []. rewrite (path_nil_pruned _ _ _ _ _ Hfr Hp').
      split; [reflexivity |].
      split; [intros l Hl; apply elem_of_nil in Hl; contradiction | congruence].
    + destruct (IH child Hfr) as (post & Heq & Hpre & Hpost);
        [rewrite Hp'; discriminate |].
      rewrite Hp' in Heq, Hpre, Hpost.
      exists post. split; [rewrite Heq; reflexivity |]. split.
      * intros l Hl. change (removelast (n :: y :: ys)) with (n :: removelast (y :: ys)) in Hl.
        apply elem_of_cons in Hl as [-> | Hl]; [apply Hnot; exact Hk | auto].
      * intros Hp. destruct (Hpost Hp) as (stop & Hlast & Hem).
        exists stop. split; [| exact Hem].
        rewrite last_cons, Hlast. reflexivity.
  - rewrite Hk.
    destruct (children o) as [|e d] eqn:Hch.
    { exists []. split; [reflexivity |]. split; [| congruence].
      intros l Hl. apply elem_of_nil in Hl. contradiction. }
    eexists. split; [reflexivity |].
    split; [intros l Hl; apply elem_of_nil in Hl; contradiction |].
    intros _. exists n. split; [reflexivity |].
    exists o, o'. rewrite Hch. auto using nil_cons.
Qed.

(** X11. Pruning cuts the walk of [_predict] at the first emptied node.
    For an example at least as wide as the training data, the nodes the
    pruned tree visits are an initial part of the nodes the unpruned tree
    visits; no node before the last one was emptied by [prune], and if the
    walk is shorter than before, its last node is one that [prune] emptied.
    The pruned tree returns, without raising, the majority class of that
    last node. *)
Theorem predict_after_prune fuel m r h n h' x :
  DecisionTree_init fuel (IntMat m) = Ok (r, h) ->
  prune n h r = Ok h' ->
  ncols m <= length x ->
  forall k, length h <= k ->
  exists pre post stop o,
    path k h r x = pre ++ post /\ path k h' r x = pre /\
    last pre = Some stop /\ h !! stop = Some o /\
    (forall l, l ∈ removelast pre -> ¬ emptied h h' l) /\
    (post <> [] -> emptied h h' stop) /\
    _predict k h' r x = Ok (cls o).
Proof.
  intros Hb Hp Hx k Hk.
  pose proof (prune_frame _ _ _ _ Hp) as Hfr.
  apply init_built in Hb as (m0 & t & [= <-] & Hr & (_ & Hat & _ & Hok) & Hsize & Hlocs).
  destruct (pruned_tree_ok _ h h' t Hat Hfr Hok)
    as (t' & Hat' & Hr' & _ & Hh & Hok' & _).
  destruct (predict_tree h' x t' Hat' (tree_all_wider _ _ _ Hx Hok'))
    as (stop0 & o0 & _ & _ & _ & Hpred).
  assert (Hfuel : height t' < k) by (pose proof (height_lt_size t); lia).
  specialize (Hpred k Hfuel). rewrite Hr', Hr in Hpred.
  destruct (predict_path h' x k r _ Hpred) as (stop & o' & Hlast & Ho' & Hcls).
  destruct (pruned_from_inv _ _ _ _ Hfr Ho') as (o & Ho & _ & _ & Hclso & _).
  destruct (pruned_path h h' x k r Hfr) as (post & Heq & Hpre & Hpost).
  { intros E. rewrite E in Hlast. discriminate. }
  exists (path k h' r x), post, stop, o.
  split; [exact Heq |]. split; [reflexivity |]. split; [exact Hlast |].
  split; [exact Ho |]. split; [exact Hpre |]. split.
  - intros Hne. destruct (Hpost Hne) as (stop' & Hlast' & Hem).
    assert (stop' = stop) as -> by congruence. exact Hem.
  - rewrite Hpred, Hcls, Hclso. reflexivity.
Qed.

(** ** Where rounding decides *)

Lemma gain_of_ext (f g : Log2) Y Xa :
  (forall x, py_bool x = true -> f x = g x) ->
  @gain_of f Y Xa = @gain_of g Y Xa.
Proof.
  intros Hfg. unfold gain_of, cond_entropy, entropy_val.
  rewrite (entropy_of_counts_ext f g _ _ Hfg). f_equal.
  apply fold_left_ext_in. intros p _ acc.
  rewrite (entropy_of_counts_ext f g _ _ Hfg). reflexivity.
Qed.

Lemma gain_of_tabulated tbl Y Xa :
  agrees np_log2 tbl -> gain_of Y Xa = @gain_of (tabulate tbl np_log2) Y Xa.
Proof.
  intros Ha. apply gain_of_ext.
  intros x _. symmetry. apply (tabulate_agrees np_log2 tbl x Ha).
Qed.

(** X28. On [rounding_tie] the two attributes have the same gain in exact
    arithmetic.  With [np.log2] rounded to nearest at the halves, thirds and
    fifths the code computes two different doubles for them, the second
    above the first, and [_best_attribute] returns the second attribute,
    not the first. *)
Theorem gain_ties_decided_by_rounding :
  agrees np_log2 (log2_halves ++ log2_thirds ++ log2_fifths) ->
  gain_of [0; 0; 0; 1; 2]%Z [0; 0; 1; 0; 1]%Z = Float64.gain_tie_first /\
  gain_of [0; 0; 0; 1; 2]%Z [0; 0; 1; 1; 1]%Z = Float64.gain_tie_second /\
  PrimFloat.ltb Float64.gain_tie_first Float64.gain_tie_second = true /\
  _best_attribute rounding_tie = Ok (Float64.gain_tie_second, 2%Z).
Proof.
  intros Ha.
  rewrite !(gain_of_tabulated _ _ _ Ha), (best_attribute_tabulated _ _ Ha).
  repeat split; vm_compute; reflexivity.
Qed.

(** X29. On [independent_attribute] the gain of the attribute is 0 in exact
    arithmetic.  With [np.log2] rounded to nearest at 1, 1/3 and 2/3 the
    code computes the gain [2^-52], which is above 0: the root is split on
    the attribute, into two leaves with the label proportions of the
    root. *)
Theorem zero_gain_split_by_rounding :
  agrees np_log2 log2_thirds ->
  _best_attribute independent_attribute = Ok (Float64.epsilon, 1%Z) /\
  PrimFloat.ltb Float64.zero Float64.epsilon = true /\
  DecisionTree_init 2 (IntMat independent_attribute) =
  Ok (0, independent_attribute_heap).
Proof.
  intros Ha.
  rewrite (best_attribute_tabulated _ _ Ha), (init_tabulated _ _ _ Ha).
  repeat split; vm_compute; reflexivity.
Qed.


(** ** Information gain *)

Lemma hist_class_slots Y : hist Y = map (cnt Y) (class_slots Y).
Proof. destruct Y; reflexivity. Qed.

(** The entropy [entropy] computes from the histogram is the entropy of the
    labels as the specification words it. *)
Lemma label_entropy_entropy_val Y : label_entropy Y = entropy_val Y.
Proof.
  unfold label_entropy, entropy_val, entropy_of_counts.
  rewrite hist_class_slots, map_map.
  change (map (fun x => rate (cnt Y x) (length Y)) (class_slots Y))
    with (map (class_probability Y) (class_slots Y)).
  destruct (List.filter py_bool (map (class_probability Y) (class_slots Y)))
    as [|p ps]; [reflexivity |].
  change (map (fun p0 => PrimFloat.mul p0 (np_log2 p0)) (p :: ps))
    with (PrimFloat.mul p (np_log2 p) :: map (fun p0 => PrimFloat.mul p0 (np_log2 p0)) ps).
  cbv iota. f_equal. cbn [fold_left].
  symmetry. apply fold_left_map_acc.
Qed.

Lemma attribute_values_unique Xa : attribute_values Xa = np_unique Xa.
Proof.
  apply py_sorted_classes; [apply List.NoDup_nodup | intros x; apply nodup_In].
Qed.

(** The gain [_best_attribute] computes through [partition] is the
    information gain of the column. *)
Lemma gain_of_information_gain Y Xa :
  length Xa = length Y -> gain_of Y Xa = information_gain Y Xa.
Proof.
  intros Hlen. unfold gain_of, information_gain.
  rewrite (cond_entropy_values _ _ Hlen), attribute_values_unique,
    label_entropy_entropy_val.
  f_equal. apply fold_left_ext_in. intros v _ s.
  rewrite label_entropy_entropy_val. reflexivity.
Qed.

Lemma gain_of_column m Y c :
  column m 0 = Ok Y -> In c (attribute_columns m) ->
  gain_of Y (snd c) = information_gain Y (snd c).
Proof.
  intros Hc Hin. apply gain_of_information_gain.
  apply (attribute_columns_length m Y c Hin Hc).
Qed.



(** X16. When the root is a leaf.  The tree built from a training set is a
    single leaf exactly when the labels hold one distinct value or no
    attribute column has a positive information gain, as a binary64 value;
    otherwise the root splits on a column of positive gain. *)
Theorem root_is_leaf_iff fuel m r h Y o :
  DecisionTree_init fuel (IntMat m) = Ok (r, h) ->
  column m 0 = Ok Y -> h !! r = Some o ->
  (children o = [] <->
   distinct Y <= 1 \/
   forall c, In c (attribute_columns m) ->
     PrimFloat.ltb Float64.zero (information_gain Y (snd c)) = false).
Proof.
  intros Hb Hc Ho.
  apply init_fitted in Hb as (t & Hr & (_ & Hat & _) & Hf & _).
  apply tree_at_deref in Hat. rewrite Hr, (deref_Some _ _ _ Ho) in Hat.
  injection Hat as Hobj.
  inversion Hf; subst; simpl in *.
  - match goal with H1 : column m 0 = Ok ?Y1 |- _ =>
      assert (Y1 = Y) as -> by congruence end.
    split; [intros _ | tauto].
    match goal with Hw : _ \/ _ |- _ => destruct Hw as [Hd|Hz] end;
      [left; exact Hd | right].
    intros c Hin. rewrite <- (gain_of_column m Y c Hc Hin). apply Hz, Hin.
  - match goal with H1 : column m 0 = Ok ?Y1 |- _ =>
      assert (Y1 = Y) as -> by congruence end.
    split.
    + intros Hk.
      match goal with Hkeys : map fst (children _) = np_unique _ |- _ =>
        rewrite Hk in Hkeys; simpl in Hkeys end.
      match goal with
      | Hcol : column m a = Ok Xa,
        Hg : PrimFloat.ltb Float64.zero (gain_of Y Xa) = true |- _ =>
          pose proof (gain_positive_two_values m Y a Xa Hc Hcol Hg) as Htwo
      end.
      match goal with Hkeys : [] = np_unique _ |- _ => rewrite <- Hkeys in Htwo end.
      simpl in Htwo. lia.
    + intros [Hd | Hz]; [lia |].
      match goal with Hcol : column m a = Ok Xa, Ha : (1 <= a < _)%Z |- _ =>
        pose proof (attribute_columns_In m a Xa Ha Hcol) as Hin end.
      pose proof (Hz _ Hin) as Hz0.
      rewrite <- (gain_of_column m Y _ Hc Hin) in Hz0. simpl in Hz0. congruence.
Qed.

(** X26. [np.log2] is never consulted at a zero: [entropy] leaves out the
    probabilities that Python takes as false, so two logarithm functions
    that agree on every other double give the same entropy, the same best
    attribute with the same gain, and the same tree. *)
Theorem log2_not_consulted_at_zero (f g : Log2) :
  (forall x, py_bool x = true -> f x = g x) ->
  (forall Y, @entropy f Y = @entropy g Y) /\
  (forall m, @_best_attribute f m = @_best_attribute g m) /\
  (forall fuel data, @DecisionTree_init f fuel data = @DecisionTree_init g fuel data).
Proof.
  intros Hfg. split; [| split].
  - intros Y. apply entropy_ext, Hfg.
  - intros m. apply best_attribute_ext, Hfg.
  - intros fuel data. apply build_tree_ext, Hfg.
Qed.

(** X27. An attribute column that holds a single value never has a
    positive information gain, whatever [np.log2] returns (also [nan] or an
    infinity): the weight of its only part is [n / n], the product with the
    entropy is exact, and the difference is a zero or [nan].  So rounding
    never makes [_build_tree] split on a column that separates nothing,
    which is what bounds its recursion. *)
Theorem constant_column_no_gain Y Xa v :
  Forall (fun x => x = v) Xa -> length Xa = length Y ->
  PrimFloat.ltb Float64.zero (information_gain Y Xa) = false.
Proof.
  intros Hall Hlen. rewrite <- (gain_of_information_gain _ _ Hlen).
  apply (gain_constant_column Y Xa v Hall Hlen).
Qed.

End Properties.

(** * The training sets of the examples, run

    The statements from here on are closed.  They run the code with one
    [np.log2], [log2_tabulated], which takes the values of the three
    tables. *)

#[export] Existing Instance log2_tabulated.

Lemma log2_tabulated_halves : agrees np_log2 log2_halves.
Proof. repeat constructor. Qed.

Lemma log2_tabulated_thirds : agrees np_log2 log2_thirds.
Proof. repeat constructor. Qed.

Lemma log2_tabulated_fifths : agrees np_log2 log2_fifths.
Proof. repeat constructor. Qed.

Lemma separable_built :
  DecisionTree_init 2 (IntMat separable) = Ok (0, separable_heap).
Proof. exact (build_separable 0 log2_tabulated_thirds). Qed.

Lemma prune_children_rate_uses_min_witness :
  agrees np_log2 log2_thirds /\
  DecisionTree_init 2 (IntMat separable) = Ok (0, separable_heap) /\
  (exists ne ce,
     rates_at separable_heap 0 = Ok (ne, ce) /\
     ne = rate 1 3 /\ ce = rate 2 3 /\
     spec_node_error_rate separable_root = rate 1 3 /\
     spec_children_error_rate separable_root separable_leaves = rate 0 3 /\
     PrimFloat.ltb (spec_node_error_rate separable_root)
       (spec_children_error_rate separable_root separable_leaves) = false /\
     PrimFloat.eqb ce
       (spec_children_error_rate separable_root separable_leaves) = false) /\
  prune 3 separable_heap 0 = Ok separable_pruned.
Proof.
  split; [exact log2_tabulated_thirds |].
  exact (prune_children_rate_uses_min log2_tabulated_thirds).
Defined.

Lemma prune_lowers_training_score_witness :
  agrees np_log2 log2_thirds /\
  DecisionTree_init 2 (IntMat separable) = Ok (0, separable_heap) /\
  prune 3 separable_heap 0 = Ok separable_pruned /\
  (exists before after,
     score 2 separable_heap 0 separable = Ok before /\
     score 2 separable_pruned 0 separable = Ok after /\
     before = rate 3 3 /\ after = rate 2 3 /\
     PrimFloat.ltb after before = true).
Proof.
  split; [exact log2_tabulated_thirds |].
  exact (prune_lowers_training_score log2_tabulated_thirds).
Defined.

Lemma prune_boundary_depends_on_labels_witness :
  agrees np_log2 log2_fifths /\
  DecisionTree_init 2 (IntMat boundary) = Ok (0, boundary_heap_one_slot) /\
  (exists h',
     prune 3 boundary_heap_one_slot 0 = Ok h' /\
     (children <$> h' !! 0) = Some []) /\
  DecisionTree_init 2 (IntMat boundary_swapped) = Ok (0, boundary_heap_swapped) /\
  prune 3 boundary_heap_swapped 0 = Ok boundary_heap_swapped.
Proof.
  split; [exact log2_tabulated_fifths |].
  destruct (prune_boundary_depends_on_labels log2_tabulated_fifths)
    as (Hb & _ & Hp & Hs & _ & Hk).
  split; [exact Hb |]. split; [exact Hp |]. split; [exact Hs | exact Hk].
Defined.

Lemma gain_ties_decided_by_rounding_witness :
  agrees np_log2 (log2_halves ++ log2_thirds ++ log2_fifths) /\
  _best_attribute rounding_tie = Ok (Float64.gain_tie_second, 2%Z).
Proof.
  assert (Ha : agrees np_log2 (log2_halves ++ log2_thirds ++ log2_fifths))
    by repeat constructor.
  split; [exact Ha |].
  exact (proj2 (proj2 (proj2 (gain_ties_decided_by_rounding Ha)))).
Defined.

Lemma zero_gain_split_by_rounding_witness :
  agrees np_log2 log2_thirds /\
  DecisionTree_init 2 (IntMat independent_attribute) =
  Ok (0, independent_attribute_heap).
Proof.
  split; [exact log2_tabulated_thirds |].
  exact (proj2 (proj2 (zero_gain_split_by_rounding log2_tabulated_thirds))).
Defined.

Lemma prune_collapses_root_witness :
  agrees np_log2 log2_thirds /\
  exists data r h h' o o',
    DecisionTree_init 2 data = Ok (r, h) /\
    h !! r = Some o /\ parent o = None /\ children o <> [] /\
    prune 3 h r = Ok h' /\
    h' !! r = Some o' /\ children o' = [] /\
    _node_count 1 h' r = Ok 1 /\
    _remove_node h r = Ok (None, h).
Proof.
  split; [exact log2_tabulated_thirds |].
  exact (prune_collapses_root log2_tabulated_thirds).
Defined.

(** C9, as stated, fails on attribute values: the training set
    [[0,-1],[1,-2]] has negative attribute values and is built into a
    three-node tree. *)
Lemma negative_attribute_values_build :
  (exists row, row ∈ rows negative_attribute /\ (nth 1 row 0 < 0)%Z) /\
  DecisionTree_init 2 (IntMat negative_attribute) = Ok (0, negative_attribute_heap).
Proof.
  split; [| exact (build_negative_attribute 0 log2_tabulated_halves)].
  exists [0; -1]%Z. split; [left | reflexivity].
Qed.


Lemma root_is_leaf_iff_witness :
  DecisionTree_init 2 (IntMat separable) = Ok (0, separable_heap) /\
  column separable 0 = Ok [0; 0; 1]%Z /\
  separable_heap !! 0 = Some separable_root /\
  (children separable_root = [] <->
   distinct [0; 0; 1]%Z <= 1 \/
   forall c, In c (attribute_columns separable) ->
     PrimFloat.ltb Float64.zero (information_gain [0; 0; 1]%Z (snd c)) = false).
Proof.
  split; [apply separable_built |]. split; [reflexivity |]. split; [reflexivity |].
  exact (root_is_leaf_iff 2 separable 0 separable_heap [0; 0; 1]%Z separable_root
           separable_built eq_refl eq_refl).
Defined.

Lemma log2_not_consulted_at_zero_witness :
  (forall x, py_bool x = true ->
     log2_tabulated x = log2_with_zero log2_tabulated x) /\
  @entropy log2_tabulated (IntVec [0; 0; 1]%Z) =
    @entropy (log2_with_zero log2_tabulated) (IntVec [0; 0; 1]%Z) /\
  @DecisionTree_init log2_tabulated 2 (IntMat separable) =
    @DecisionTree_init (log2_with_zero log2_tabulated) 2 (IntMat separable).
Proof.
  assert (Hz : forall x, py_bool x = true ->
            log2_tabulated x = log2_with_zero log2_tabulated x).
  { intros x Hx. unfold log2_with_zero. rewrite Hx. reflexivity. }
  split; [exact Hz |].
  destruct (log2_not_consulted_at_zero log2_tabulated
              (log2_with_zero log2_tabulated) Hz) as (He & _ & Hi).
  split; [apply He | apply Hi].
Defined.

Lemma constant_column_no_gain_witness :
  Forall (fun x => x = 7%Z) [7; 7; 7]%Z /\
  length [7; 7; 7]%Z = length [0; 0; 1]%Z /\
  PrimFloat.ltb Float64.zero (information_gain [0; 0; 1]%Z [7; 7; 7]%Z) = false.
Proof.
  assert (Hall : Forall (fun x => x = 7%Z) [7; 7; 7]%Z) by (repeat constructor).
  split; [exact Hall |]. split; [reflexivity |].
  exact (constant_column_no_gain [0; 0; 1]%Z [7; 7; 7]%Z 7%Z Hall eq_refl).
Defined.

Lemma build_empty_fails_witness :
  nrows (IntMat (Matrix 3 [])) = 0 /\
  _build_tree 5 (IntMat (Matrix 3 [])) None [] = Raise ValueError.
Proof.
  split; [reflexivity |].
  apply (proj2 (build_empty_fails 4 (IntMat (Matrix 3 [])) None [] eq_refl) 2).
  reflexivity.
Defined.

Lemma nodes_visits_each_node_once_witness :
  DecisionTree_init 2 (IntMat separable) = Ok (0, separable_heap) /\
  exists ls,
    nodes 3 separable_heap 0 = Ok ls /\ NoDup ls /\
    _node_count 3 separable_heap 0 = Ok (length ls).
Proof.
  split; [apply separable_built |].
  destruct (nodes_visits_each_node_once 2 (IntMat separable) 0 separable_heap
              separable_built)
    as (t & ls & _ & _ & _ & Hnodes & Hnd & _ & _ & Hcount).
  exists ls. split; [apply Hnodes; reflexivity |].
  split; [exact Hnd | apply Hcount; reflexivity].
Defined.

Lemma predict_falls_back_to_majority_witness :
  DecisionTree_init 2 (IntMat separable) = Ok (0, separable_heap) /\
  ncols separable <= length [5; 7]%Z /\
  exists stop o,
    walk separable_heap [5; 7]%Z 0 stop /\ separable_heap !! stop = Some o /\
    argmax (nsamples o) = Ok (cls o) /\
    forall n, length separable_heap <= n ->
              _predict n separable_heap 0 [5; 7]%Z = Ok (cls o).
Proof.
  assert (Hw : ncols separable <= length [5; 7]%Z) by (simpl; lia).
  split; [apply separable_built |]. split; [exact Hw |].
  apply (predict_falls_back_to_majority 2 separable 0 separable_heap [5; 7]%Z
           separable_built Hw).
Defined.

Lemma prune_only_clears_children_witness :
  DecisionTree_init 2 (IntMat separable) = Ok (0, separable_heap) /\
  exists h',
    prune (length separable_heap) separable_heap 0 = Ok h' /\
    length h' = length separable_heap /\
    forall l o, separable_heap !! l = Some o ->
      exists o', h' !! l = Some o' /\
        parent o' = parent o /\ nsamples o' = nsamples o /\
        py_sum (nsamples o') = py_sum (nsamples o) /\
        cls o' = cls o /\ attr_idx o' = attr_idx o /\
        (children o' = children o \/ children o' = []).
Proof.
  split; [apply separable_built |].
  apply (prune_only_clears_children 2 (IntMat separable) 0 separable_heap
           separable_built).
Defined.

Lemma labels_index_the_histogram_witness :
  column negative_label 0 = Ok [0; -1]%Z /\
  entropy (IntVec [0; -1]%Z) = Raise ValueError /\
  _build_tree 2 (IntMat negative_label) None [] = Raise ValueError.
Proof.
  split; [reflexivity |].
  apply (proj1 (labels_index_the_histogram 1 negative_label None [] [0; -1]%Z eq_refl)).
  intros Hn. apply Forall_cons in Hn as [_ Hn]. apply Forall_cons in Hn as [Hn _]. lia.
Defined.

Lemma predict_training_row_witness :
  DecisionTree_init 2 (IntMat separable) = Ok (0, separable_heap) /\
  Forall (fun row => length row = ncols separable) (rows separable) /\
  rows separable !! 2 = Some [1; 1]%Z /\
  exists leaf o y,
    np_index [1; 1]%Z 0 = Ok y /\ (0 <= y)%Z /\
    walk separable_heap [1; 1]%Z 0 leaf /\ separable_heap !! leaf = Some o /\
    children o = [] /\
    0 < nth (Z.to_nat y) (nsamples o) 0 <= nth (cls o) (nsamples o) 0 /\
    (forall n, length separable_heap <= n ->
               _predict n separable_heap 0 [1; 1]%Z = Ok (cls o)) /\
    ((forall k, k <> Z.to_nat y -> nth k (nsamples o) 0 = 0) ->
     cls o = Z.to_nat y).
Proof.
  assert (Hwf : Forall (fun row => length row = ncols separable) (rows separable))
    by (repeat constructor).
  split; [apply separable_built |]. split; [exact Hwf |].
  split; [reflexivity |].
  apply (predict_training_row 2 separable 0 separable_heap 2 [1; 1]%Z
           separable_built Hwf eq_refl).
Defined.

Lemma built_parent_references_witness :
  DecisionTree_init 2 (IntMat separable) = Ok (0, separable_heap) /\
  separable_heap !! 1 = Some (mkNode (Some 0) [2] 0 None []) /\
  (parent (mkNode (Some 0) [2] 0 None []) = None <-> 1 = 0) /\
  (forall p, parent (mkNode (Some 0) [2] 0 None []) = Some p <->
     exists op v, separable_heap !! p = Some op /\ (v, 1) ∈ children op).
Proof.
  split; [apply separable_built |]. split; [reflexivity |].
  apply (built_parent_references 2 separable 0 separable_heap 1 _
           separable_built eq_refl).
Defined.

Lemma built_internal_nodes_witness :
  DecisionTree_init 2 (IntMat separable) = Ok (0, separable_heap) /\
  separable_heap !! 0 = Some separable_root /\
  ((children separable_root = [] /\ attr_idx separable_root = None) \/
   (exists a, attr_idx separable_root = Some a /\
      (1 <= a < Z.of_nat (ncols separable))%Z /\
      2 <= length (children separable_root) /\
      StronglySorted Z.lt (map fst (children separable_root)) /\
      NoDup (dict_values (children separable_root)) /\
      Forall (fun c => c < length separable_heap /\ c <> 0)
             (dict_values (children separable_root)))).
Proof.
  split; [apply separable_built |]. split; [reflexivity |].
  apply (built_internal_nodes 2 separable 0 separable_heap 0 separable_root
           separable_built eq_refl).
Defined.

Lemma built_counts_add_up_witness :
  DecisionTree_init 2 (IntMat separable) = Ok (0, separable_heap) /\
  (exists Y o, column separable 0 = Ok Y /\ separable_heap !! 0 = Some o /\
     nsamples o = hist Y /\
     (forall k, count_at separable_heap 0 k = count_occ Z.eq_dec Y (Z.of_nat k)) /\
     total_at separable_heap 0 = length (rows separable)) /\
  forall l o, separable_heap !! l = Some o ->
    0 < total_at separable_heap l /\
    (children o <> [] ->
     (forall k, count_at separable_heap l k =
                list_sum (map (fun c => count_at separable_heap c k)
                              (dict_values (children o)))) /\
     total_at separable_heap l =
       list_sum (map (total_at separable_heap) (dict_values (children o)))).
Proof.
  split; [apply separable_built |].
  apply (built_counts_add_up 2 separable 0 separable_heap separable_built).
Defined.

Lemma built_height_and_count_witness :
  DecisionTree_init 2 (IntMat separable) = Ok (0, separable_heap) /\
  exists H N,
    (forall n, length separable_heap <= n -> _height n separable_heap 0 = Ok H) /\
    (forall n, length separable_heap <= n -> _node_count n separable_heap 0 = Ok N) /\
    H <= ncols separable - 1 /\ H < length (rows separable) /\
    N = length separable_heap /\ N < 2 * length (rows separable) /\
    H < N /\ (H = 0 <-> N = 1).
Proof.
  split; [apply separable_built |].
  apply (built_height_and_count 2 separable 0 separable_heap separable_built).
Defined.

Lemma build_tree_returns_iff_witness :
  Nat.min (ncols separable) (length (rows separable)) <= 2 /\
  (is_ok (_build_tree 2 (IntMat separable) None []) = true <->
   exists Y, column separable 0 = Ok Y /\ nonneg Y /\ Y <> []).
Proof.
  assert (H : Nat.min (ncols separable) (length (rows separable)) <= 2)
    by (simpl; lia).
  split; [exact H |].
  apply (build_tree_returns_iff 2 separable None [] H).
Defined.

Lemma prune_decides_on_original_witness :
  DecisionTree_init 2 (IntMat separable) = Ok (0, separable_heap) /\
  exists h',
    prune (length separable_heap) separable_heap 0 = Ok h' /\
    length h' = length separable_heap /\
    forall l o, separable_heap !! l = Some o ->
      exists o', pruned_object separable_heap o = Ok o' /\ h' !! l = Some o'.
Proof.
  split; [apply separable_built |].
  apply (prune_decides_on_original 2 (IntMat separable) 0 separable_heap
           separable_built).
Defined.

Lemma prune_order_irrelevant_witness :
  DecisionTree_init 2 (IntMat separable) = Ok (0, separable_heap) /\
  [0; 1; 2] ≡ₚ seq 0 (length separable_heap) /\
  prune_loop separable_heap [0; 1; 2] =
  prune (length separable_heap) separable_heap 0.
Proof.
  assert (Hperm : [0; 1; 2] ≡ₚ seq 0 (length separable_heap)) by reflexivity.
  split; [apply separable_built |]. split; [exact Hperm |].
  apply (prune_order_irrelevant 2 (IntMat separable) 0 separable_heap [0; 1; 2]
           separable_built Hperm).
Defined.

Lemma prune_idempotent_witness :
  DecisionTree_init 2 (IntMat separable) = Ok (0, separable_heap) /\
  length separable_heap <= 3 /\
  prune 3 separable_heap 0 = Ok separable_pruned /\
  prune 3 separable_pruned 0 = Ok separable_pruned.
Proof.
  assert (Hn : length separable_heap <= 3) by (simpl; lia).
  split; [apply separable_built |]. split; [exact Hn |].
  split; [exact prune_separable |].
  apply (prune_idempotent 2 (IntMat separable) 0 separable_heap 3 separable_pruned
           separable_built Hn prune_separable).
Defined.

Lemma score_outcome_witness :
  DecisionTree_init 2 (IntMat separable) = Ok (0, separable_heap) /\
  length separable_heap <= 3 /\
  ncols separable <= ncols separable /\
  Forall (fun row => length row = ncols separable) (rows separable) /\
  exists Y ps,
    column separable 0 = Ok Y /\
    predict_all 3 separable_heap 0 (rows separable) = Ok ps /\
    length ps = length (rows separable) /\
    (forall i x, rows separable !! i = Some x ->
       exists p, ps !! i = Some p /\ _predict 3 separable_heap 0 x = Ok p) /\
    count_correct Y ps <= length (rows separable) /\
    score 3 separable_heap 0 separable =
      if length (rows separable) =? 0 then Raise ZeroDivisionError
      else Ok (rate (count_correct Y ps) (length (rows separable))).
Proof.
  assert (Hn : length separable_heap <= 3) by (simpl; lia).
  assert (Hwf : Forall (fun row => length row = ncols separable) (rows separable))
    by (repeat constructor).
  split; [apply separable_built |]. split; [exact Hn |].
  split; [apply le_n |]. split; [exact Hwf |].
  apply (score_outcome 2 separable 0 separable_heap 3 separable
           separable_built Hn (le_n _) Hwf).
Defined.

Lemma build_pure_labels_witness :
  column (Matrix 2 [[1; 7]; [1; 8]]%Z) 0 = Ok [1; 1]%Z /\
  [1; 1]%Z <> [] /\ (0 <= 1)%Z /\ Forall (fun l => l = 1%Z) [1; 1]%Z /\
  DecisionTree_init 1 (IntMat (Matrix 2 [[1; 7]; [1; 8]]%Z)) =
    Ok (0, [pure_leaf 2 1]) /\
  forall n x, _predict (S n) [pure_leaf 2 1] 0 x = Ok 1.
Proof.
  assert (Hne : [1; 1]%Z <> []) by discriminate.
  assert (Hy : (0 <= 1)%Z) by lia.
  assert (Hall : Forall (fun l => l = 1%Z) [1; 1]%Z) by (repeat constructor).
  split; [reflexivity |]. split; [exact Hne |]. split; [exact Hy |].
  split; [exact Hall |].
  apply (build_pure_labels 0 (Matrix 2 [[1; 7]; [1; 8]]%Z) [1; 1]%Z 1%Z
           eq_refl Hne Hy Hall).
Defined.

Lemma remove_node_detaches_witness :
  DecisionTree_init 2 (IntMat separable) = Ok (0, separable_heap) /\
  1 < length separable_heap /\
  (1 = 0 -> _remove_node separable_heap 1 = Ok (None, separable_heap)) /\
  (1 <> 0 ->
   exists p h' N Nl,
     _remove_node separable_heap 1 = Ok (Some p, h') /\
     (exists o, separable_heap !! 1 = Some o /\ parent o = Some p) /\
     (forall x, x <> p -> h' !! x = separable_heap !! x) /\
     _node_count (length separable_heap) separable_heap 0 = Ok N /\
     _node_count (length separable_heap) separable_heap 1 = Ok Nl /\
     _node_count (length separable_heap) h' 0 = Ok (N - Nl) /\
     0 < Nl < N /\
     ¬ reachable h' 0 1 /\
     (forall x, reachable h' 0 x -> reachable separable_heap 0 x)).
Proof.
  assert (Hl : 1 < length separable_heap) by (simpl; lia).
  split; [apply separable_built |]. split; [exact Hl |].
  apply (remove_node_detaches 2 separable 0 separable_heap 1 separable_built Hl).
Defined.

Lemma nsamples_count_routed_rows_witness :
  DecisionTree_init 2 (IntMat separable) = Ok (0, separable_heap) /\
  Forall (fun row => length row = ncols separable) (rows separable) /\
  length separable_heap <= 3 /\
  separable_heap !! 1 = Some (mkNode (Some 0) [2] 0 None []) /\
  nsamples (mkNode (Some 0) [2] 0 None []) =
    hist (map label (rows_through 3 separable_heap 0 separable 1)) /\
  (forall k, nth k (nsamples (mkNode (Some 0) [2] 0 None [])) 0 =
             count_occ Z.eq_dec
               (map label (rows_through 3 separable_heap 0 separable 1)) (Z.of_nat k)) /\
  rows_through 3 separable_heap 0 separable 1 <> [] /\
  (forall x, In x (rows separable) ->
     exists stop ol,
       last (path 3 separable_heap 0 x) = Some stop /\
       separable_heap !! stop = Some ol /\
       _predict 3 separable_heap 0 x = Ok (cls ol)).
Proof.
  assert (Hwf : Forall (fun row => length row = ncols separable) (rows separable))
    by (repeat constructor).
  assert (Hn : length separable_heap <= 3) by (simpl; lia).
  split; [apply separable_built |]. split; [exact Hwf |].
  split; [exact Hn |]. split; [reflexivity |].
  apply (nsamples_count_routed_rows 2 separable 0 separable_heap 3 1 _
           separable_built Hwf Hn eq_refl).
Defined.

Lemma training_fit_iff_pure_leaves_witness :
  DecisionTree_init 2 (IntMat separable) = Ok (0, separable_heap) /\
  Forall (fun row => length row = ncols separable) (rows separable) /\
  length separable_heap <= 3 /\
  exists Y ps,
    column separable 0 = Ok Y /\
    predict_all 3 separable_heap 0 (rows separable) = Ok ps /\
    (count_correct Y ps = length (rows separable) <->
     forall l o, separable_heap !! l = Some o -> children o = [] ->
       forall k, k <> cls o -> nth k (nsamples o) 0 = 0).
Proof.
  assert (Hwf : Forall (fun row => length row = ncols separable) (rows separable))
    by (repeat constructor).
  assert (Hn : length separable_heap <= 3) by (simpl; lia).
  split; [apply separable_built |]. split; [exact Hwf |]. split; [exact Hn |].
  apply (training_fit_iff_pure_leaves 2 separable 0 separable_heap 3
           separable_built Hwf Hn).
Defined.

Lemma build_ignores_row_order_witness :
  ncols (Matrix 2 [[1; 1]; [0; 0]; [0; 0]]%Z) = ncols separable /\
  rows separable ≡ₚ rows (Matrix 2 [[1; 1]; [0; 0]; [0; 0]]%Z) /\
  DecisionTree_init 2 (IntMat (Matrix 2 [[1; 1]; [0; 0]; [0; 0]]%Z)) =
  DecisionTree_init 2 (IntMat separable).
Proof.
  assert (Hp : rows separable ≡ₚ rows (Matrix 2 [[1; 1]; [0; 0]; [0; 0]]%Z)).
  { simpl. symmetry. apply (Permutation_cons_append [[0; 0]; [0; 0]]%Z [1; 1]%Z). }
  split; [reflexivity |]. split; [exact Hp |].
  apply (build_ignores_row_order 2 separable (Matrix 2 [[1; 1]; [0; 0]; [0; 0]]%Z)
           eq_refl Hp).
Defined.

Lemma predict_after_prune_witness :
  DecisionTree_init 2 (IntMat separable) = Ok (0, separable_heap) /\
  prune 3 separable_heap 0 = Ok separable_pruned /\
  ncols separable <= length [1; 1]%Z /\
  length separable_heap <= 3 /\
  exists pre post stop o,
    path 3 separable_heap 0 [1; 1]%Z = pre ++ post /\
    path 3 separable_pruned 0 [1; 1]%Z = pre /\
    last pre = Some stop /\ separable_heap !! stop = Some o /\
    (forall l, l ∈ removelast pre -> ¬ emptied separable_heap separable_pruned l) /\
    (post <> [] -> emptied separable_heap separable_pruned stop) /\
    _predict 3 separable_pruned 0 [1; 1]%Z = Ok (cls o).
Proof.
  assert (Hx : ncols separable <= length [1; 1]%Z) by (simpl; lia).
  assert (Hk : length separable_heap <= 3) by (simpl; lia).
  split; [apply separable_built |]. split; [exact prune_separable |].
  split; [exact Hx |]. split; [exact Hk |].
  apply (predict_after_prune 2 separable 0 separable_heap 3 separable_pruned [1; 1]%Z
           separable_built prune_separable Hx 3 Hk).
Defined.
